(** * Happy voice assistant: audio codec, resampler, WAV framing,
      native capture and the Gemini voice session

    A shallow embedding of the realtime audio sources of the Happy app
    (resample, float32ToBase64PCM16, base64PCM16ToFloat32, createWavHeader,
    the native createAudioCapture and GeminiVoiceSessionImpl) together with
    the properties stated about them, followed by the native and web
    players, the web capture handler, the playback worklet and the session
    registry.

    Part I holds the model, one module per source unit; Part II holds the
    lemmas. *)

From Stdlib Require Import ZArith QArith Qminmax Qabs Qround Lia Lqa.
From Stdlib Require Import Floats.SpecFloat Ascii.
From stdpp Require Import base option list strings gmap.

Open Scope Z_scope.

(* ===================================================================== *)
(** * Part I: the model                                                   *)
(* ===================================================================== *)

(** ** JavaScript numbers

    A JS [number] is an IEEE-754 binary64 value.  The operations are the
    executable reference operations of [SpecFloat] at precision 53 and
    maximal exponent 1024; every finite value is kept in canonical form. *)
Module Num.

Abbreviation number := spec_float.

Definition prec : Z := 53.
Definition emax : Z := 1024.

Definition NaN : number := S754_nan.

(** An integer as a [number] (exact below 2^53). *)
Definition of_Z (z : Z) : number := binary_normalize prec emax z 0 false.
Definition of_nat (n : nat) : number := of_Z (Z.of_nat n).

Definition add : number -> number -> number := SFadd prec emax.
Definition sub : number -> number -> number := SFsub prec emax.
Definition mul : number -> number -> number := SFmul prec emax.
Definition div : number -> number -> number := SFdiv prec emax.

(** [a === b] on numbers: false on NaN, true on +0 and -0. *)
Definition strict_eq (a b : number) : bool := SFeqb a b.
Definition lt (a b : number) : bool := SFltb a b.

(** The mathematical floor of a finite nonzero value [(-1)^s * m * 2^e]. *)
Definition floorZ (s : bool) (m : positive) (e : Z) : Z :=
  let v := if s then Z.neg m else Z.pos m in
  if 0 <=? e then v * 2 ^ e else v / 2 ^ (- e).

(** [Math.floor]. *)
Definition floor (x : number) : number :=
  match x with
  | S754_finite s m e =>
      if 0 <=? e then x
      else match floorZ s m e with
           | Z0 => S754_zero s
           | z => of_Z z
           end
  | _ => x
  end.

(** [Math.min(a, b)]: NaN if either is NaN, and -0 is below +0. *)
Definition min (a b : number) : number :=
  match SFcompare a b with
  | None => NaN
  | Some Lt => a
  | Some Gt => b
  | Some Eq =>
      match a with
      | S754_zero true => a
      | _ => b
      end
  end.

(** [Math.max(a, b)]: NaN if either is NaN, and +0 is above -0. *)
Definition max (a b : number) : number :=
  match SFcompare a b with
  | None => NaN
  | Some Gt => a
  | Some Lt => b
  | Some Eq =>
      match a with
      | S754_zero false => a
      | _ => b
      end
  end.

(** The integer part of a finite nonzero value, truncated toward zero. *)
Definition truncZ (s : bool) (m : positive) (e : Z) : Z :=
  let v := if s then Z.neg m else Z.pos m in
  if 0 <=? e then v * 2 ^ e else Z.quot v (2 ^ (- e)).

(** ToInt16, the conversion done by a store into an [Int16Array]: NaN,
    infinities and zeros become 0; a finite value is truncated toward
    zero and wrapped modulo 2^16 into [-32768, 32767]. *)
Definition to_int16 (x : number) : Z :=
  match x with
  | S754_finite s m e => (truncZ s m e + 32768) mod 65536 - 32768
  | _ => 0
  end.

(** ToIntegerOrInfinity followed by the range check of ToIndex, as used
    by [new Float32Array(length)]: NaN is 0, fractions are truncated
    toward zero, and a negative, infinite or too large length is a
    RangeError ([None]).  Engines also refuse lengths they cannot
    allocate; that limit is not part of the model. *)
Definition to_index (x : number) : option nat :=
  match x with
  | S754_nan => Some 0%nat
  | S754_zero _ => Some 0%nat
  | S754_infinity _ => None
  | S754_finite s m e =>
      let t := truncZ s m e in
      if (0 <=? t) && (t <=? 2 ^ 53 - 1) then Some (Z.to_nat t) else None
  end.

(** The index denoted by a number used as a property key of a typed
    array: only a non-negative integer value names an element. *)
Definition as_element_index (x : number) : option nat :=
  match x with
  | S754_zero _ => Some 0%nat
  | S754_finite false m e =>
      if 0 <=? e then Some (Z.to_nat (Z.pos m * 2 ^ e))
      else if Z.pos m mod 2 ^ (- e) =? 0 then Some (Z.to_nat (Z.pos m / 2 ^ (- e)))
      else None
  | _ => None
  end.

(** Storing a number into a [Float32Array] rounds it to binary32
    (round to nearest, ties to even); reading it back widens it again. *)
Definition fround (x : number) : number :=
  match x with
  | S754_finite s m e =>
      match binary_round 24 128 s m e with
      | S754_finite s' m' e' => binary_round prec emax s' m' e'
      | y => y
      end
  | _ => x
  end.

(** The rational denoted by a finite number (0 for the others). *)
Definition value (x : number) : Q :=
  match x with
  | S754_finite s m e =>
      let v := if s then Z.neg m else Z.pos m in
      if 0 <=? e then inject_Z (v * 2 ^ e) else v # Z.to_pos (2 ^ (- e))
  | _ => 0%Q
  end.

(** Zeros and finite nonzero values, as opposed to NaN and the
    infinities. *)
Definition is_finite (x : number) : bool :=
  match x with
  | S754_zero _ | S754_finite _ _ _ => true
  | _ => false
  end.

(** The finite elements a [Float32Array] can hold, widened to numbers:
    zeros, and canonical binary64 values that are multiples of 2^-149 with
    at most 24 significant bits and magnitude below 2^128.  These are the
    finite fixed points of [fround]. *)
Definition is_float32_sample (x : number) : bool :=
  match x with
  | S754_zero _ => true
  | S754_finite s m e =>
      bounded prec emax m e && (e <=? 75) &&
      (Z.pos m mod 2 ^ Z.max 29 (- 149 - e) =? 0)
  | _ => false
  end.

End Num.

(** A [Float32Array]: its elements, each a binary32 value widened to a
    number. *)
Abbreviation Float32Array := (list Num.number).

(** ** The resampler ([resample] of playback.ts; the capture pipeline carries
       a textually identical copy) *)
Module Resampler.
Import Num.

(** [input[k]] for a number [k]; reading outside the array gives
    [undefined], which every arithmetic operator turns into NaN. *)
Definition get (input : Float32Array) (k : number) : number :=
  match as_element_index k with
  | Some i => default NaN (input !! i)
  | None => NaN
  end.

(** One iteration of the loop body, for output index [i]. *)
Definition interpolate (input : Float32Array) (ratio : number) (i : nat) : number :=
  let srcIndex := mul (of_nat i) ratio in
  let low := floor srcIndex in
  let high := min (add low (of_Z 1)) (sub (of_nat (length input)) (of_Z 1)) in
  let frac := sub srcIndex low in
  fround (add (mul (get input low) (sub (of_Z 1) frac))
              (mul (get input high) frac)).

Definition outputLength (len : nat) (sourceSampleRate targetSampleRate : number) : number :=
  let ratio := div sourceSampleRate targetSampleRate in
  floor (div (of_nat len) ratio).

(** [None] is the RangeError of [new Float32Array(outputLength)]. *)
Definition resample (input : Float32Array)
    (sourceSampleRate targetSampleRate : number) : option Float32Array :=
  if strict_eq sourceSampleRate targetSampleRate then Some input
  else
    let ratio := div sourceSampleRate targetSampleRate in
    n ← to_index (outputLength (length input) sourceSampleRate targetSampleRate);
    Some (map (interpolate input ratio) (seq 0 n)).

End Resampler.

(** A [Uint8Array], and the binary string built from it with
    [String.fromCharCode]: a sequence of byte values in [0, 255]. *)
Abbreviation bytes := (list Z).

Definition is_byte (b : Z) : Prop := 0 <= b < 256.

(** ** [btoa] and [atob]

    The two platform functions, following RFC 4648 and the
    forgiving-base64 decoder of the HTML standard. *)
Module Base64.

Definition alphabet : list ascii :=
  String.list_ascii_of_string
    "ABCDEFGHIJKLMNOPQRSTUVWXYZabcdefghijklmnopqrstuvwxyz0123456789+/".

Definition encode_sextet (n : Z) : ascii :=
  default "A"%char (alphabet !! Z.to_nat n).

Fixpoint index_of (c : ascii) (l : list ascii) : option nat :=
  match l with
  | [] => None
  | d :: l' => if Ascii.eqb c d then Some 0%nat else S <$> index_of c l'
  end.

Definition decode_sextet (c : ascii) : option Z :=
  Z.of_nat <$> index_of c alphabet.

(** The 6-bit groups of a byte sequence; a final partial group is
    padded with zero bits. *)
Fixpoint sextets (bs : bytes) : list Z :=
  match bs with
  | [] => []
  | [a] => [a / 4; (a mod 4) * 16]
  | [a; b] => [a / 4; (a mod 4) * 16 + b / 16; (b mod 16) * 4]
  | a :: b :: c :: rest =>
      a / 4 :: (a mod 4) * 16 + b / 16 :: (b mod 16) * 4 + c / 64 :: c mod 64
        :: sextets rest
  end.

Definition padding (n : nat) : list ascii :=
  match (n mod 3)%nat with
  | 1%nat => ["="%char; "="%char]
  | 2%nat => ["="%char]
  | _ => []
  end.

Definition btoa (bs : bytes) : string :=
  String.string_of_list_ascii (map encode_sextet (sextets bs) ++ padding (length bs)).

(** Tab, line feed, form feed, carriage return and space. *)
Definition is_ascii_whitespace (c : ascii) : bool :=
  let n := nat_of_ascii c in
  ((n =? 9) || (n =? 10) || (n =? 12) || (n =? 13) || (n =? 32))%nat.

(** When the length is a multiple of four, one or two trailing [=] are
    removed. *)
Definition strip_padding (l : list ascii) : list ascii :=
  if (length l mod 4 =? 0)%nat then
    match rev l with
    | c1 :: r1 =>
        if Ascii.eqb c1 "=" then
          match r1 with
          | c2 :: r2 => if Ascii.eqb c2 "=" then rev r2 else rev r1
          | [] => rev r1
          end
        else l
    | [] => l
    end
  else l.

(** Four sextets give three bytes; a tail of two or three sextets gives
    one or two bytes, the left-over bits being discarded; a tail of one
    sextet is an error. *)
Fixpoint bytes_of_sextets (ss : list Z) : option bytes :=
  match ss with
  | [] => Some []
  | [_] => None
  | [a; b] => Some [a * 4 + b / 16]
  | [a; b; c] => Some [a * 4 + b / 16; (b mod 16) * 16 + c / 4]
  | a :: b :: c :: d :: rest =>
      rest' ← bytes_of_sextets rest;
      Some (a * 4 + b / 16 :: (b mod 16) * 16 + c / 4 :: (c mod 4) * 64 + d :: rest')
  end.

(** [None] is the InvalidCharacterError of [atob]. *)
Definition atob (s : string) : option bytes :=
  let cs := filter (λ c, is_ascii_whitespace c = false) (String.list_ascii_of_string s) in
  ss ← mapM decode_sextet (strip_padding cs);
  bytes_of_sextets ss.

End Base64.

(** ** The PCM codec ([float32ToBase64PCM16] of the capture pipeline and
       [base64PCM16ToFloat32] of playback.ts) *)
Module Codec.
Import Num.

(** The loop body of [float32ToBase64PCM16]: the value stored into
    [int16[i]] for the sample [float32[i]]. *)
Definition clamp (x : number) : number := max (of_Z (-1)) (min (of_Z 1) x).

Definition encodeSample (x : number) : Z :=
  let s := clamp x in
  to_int16 (if lt s (of_Z 0) then mul s (of_Z 0x8000) else mul s (of_Z 0x7FFF)).

(** The two bytes of an [Int16Array] element seen through
    [new Uint8Array(int16.buffer)]; typed arrays use the byte order of
    the platform, little-endian on every platform the app runs on. *)
Definition int16_bytes (v : Z) : bytes :=
  let u := v mod 65536 in [u mod 256; u / 256].

Definition float32ToBase64PCM16 (float32 : Float32Array) : string :=
  Base64.btoa (mbind int16_bytes (map encodeSample float32)).

(** [new Int16Array(bytes.buffer)]: a buffer of odd length is a
    RangeError ([None]). *)
Fixpoint int16_of_bytes (bs : bytes) : option (list Z) :=
  match bs with
  | [] => Some []
  | [_] => None
  | lo :: hi :: rest =>
      let u := lo + 256 * hi in
      rest' ← int16_of_bytes rest;
      Some ((if u <? 32768 then u else u - 65536) :: rest')
  end.

(** The loop body of [base64PCM16ToFloat32]. *)
Definition decodeSample (v : Z) : number := fround (div (of_Z v) (of_Z 0x8000)).

Definition base64PCM16ToFloat32 (base64 : string) : option Float32Array :=
  bs ← Base64.atob base64;
  int16 ← int16_of_bytes bs;
  Some (map decodeSample int16).

End Codec.

(** ** WAV framing ([createWavHeader] of the native player) *)
Module Wav.

Definition OUTPUT_SAMPLE_RATE : Z := 24000.
Definition BITS_PER_SAMPLE : Z := 16.
Definition NUM_CHANNELS : Z := 1.

(** The bytes of an unsigned integer of [n] bytes, least significant
    first. *)
Fixpoint le_bytes (n : nat) (v : Z) : bytes :=
  match n with
  | O => []
  | S n' => v mod 256 :: le_bytes n' (v / 256)
  end.

Fixpoint le_value (bs : bytes) : Z :=
  match bs with
  | [] => 0
  | b :: bs' => b + 256 * le_value bs'
  end.

Fixpoint write_at (buf : bytes) (off : nat) (bs : bytes) : bytes :=
  match bs with
  | [] => buf
  | b :: bs' => write_at (<[off := b]> buf) (S off) bs'
  end.

(** [DataView.prototype.setUint32/16]: the value is taken modulo 2^(8n);
    a write that does not fit in the buffer is a RangeError ([None]). *)
Definition setUint (n : nat) (view : bytes) (byteOffset : nat) (value : Z)
    (littleEndian : bool) : option bytes :=
  if (byteOffset + n <=? length view)%nat then
    let le := le_bytes n (value mod 2 ^ (8 * Z.of_nat n)) in
    Some (write_at view byteOffset (if littleEndian then le else rev le))
  else None.

Definition setUint32 := setUint 4.
Definition setUint16 := setUint 2.

Definition getUint (n : nat) (view : bytes) (byteOffset : nat)
    (littleEndian : bool) : option Z :=
  if (byteOffset + n <=? length view)%nat then
    let bs := take n (drop byteOffset view) in
    Some (le_value (if littleEndian then bs else rev bs))
  else None.

Definition getUint32 := getUint 4.
Definition getUint16 := getUint 2.

Definition HEADER_LENGTH : nat := 44.

Definition createWavHeader (dataLength : Z) : option bytes :=
  let view := replicate HEADER_LENGTH 0 in
  let byteRate := OUTPUT_SAMPLE_RATE * NUM_CHANNELS * (BITS_PER_SAMPLE / 8) in
  let blockAlign := NUM_CHANNELS * (BITS_PER_SAMPLE / 8) in
  (* RIFF header *)
  view ← setUint32 view 0 0x52494646 false;
  view ← setUint32 view 4 (36 + dataLength) true;
  view ← setUint32 view 8 0x57415645 false;
  (* fmt chunk *)
  view ← setUint32 view 12 0x666D7420 false;
  view ← setUint32 view 16 16 true;
  view ← setUint16 view 20 1 true;
  view ← setUint16 view 22 NUM_CHANNELS true;
  view ← setUint32 view 24 OUTPUT_SAMPLE_RATE true;
  view ← setUint32 view 28 byteRate true;
  view ← setUint16 view 32 blockAlign true;
  view ← setUint16 view 34 BITS_PER_SAMPLE true;
  (* data chunk *)
  view ← setUint32 view 36 0x64617461 false;
  view ← setUint32 view 40 dataLength true;
  Some view.

Definition uint8ArrayToBase64 (bs : bytes) : string := Base64.btoa bs.

(** The two size fields of a header, as a reader of the file sees them:
    the declared total size at offset 4 and the declared payload size at
    offset 40, both little-endian. *)
Definition totalSizeField (header : bytes) : option Z := getUint32 header 4 true.
Definition dataSizeField (header : bytes) : option Z := getUint32 header 40 true.

(** The file built by [playNext] for one queued chunk: the header for
    the decoded payload followed by the payload. *)
Definition wavBytes (base64PCM : string) : option bytes :=
  pcmBytes ← Base64.atob base64PCM;
  wavHeader ← createWavHeader (Z.of_nat (length pcmBytes));
  Some (wavHeader ++ pcmBytes).

End Wav.

(** ** Effects

    Asynchronous functions of the sources are run to completion: state is
    threaded explicitly and a thrown value (a rejected promise) is a
    result. *)
Definition Exn : Type := string.

Inductive result (A : Type) : Type :=
  | Ok (a : A)
  | Throw (e : Exn).
Arguments Ok {A} a.
Arguments Throw {A} e.

Definition M (S A : Type) : Type := S → result A * S.

Definition ret {S A} (a : A) : M S A := λ s, (Ok a, s).
Definition throw {S A} (e : Exn) : M S A := λ s, (Throw e, s).
Definition bind {S A B} (m : M S A) (k : A → M S B) : M S B :=
  λ s, match m s with
       | (Ok a, s') => k a s'
       | (Throw e, s') => (Throw e, s')
       end.
Definition get {S} : M S S := λ s, (Ok s, s).
Definition modify {S} (f : S → S) : M S unit := λ s, (Ok tt, f s).
(** [try { m } catch (e) { h e }]. *)
Definition try_catch {S A} (m : M S A) (h : Exn → M S A) : M S A :=
  λ s, match m s with
       | (Ok a, s') => (Ok a, s')
       | (Throw e, s') => h e s'
       end.
(** An awaited platform call whose outcome the environment decides. *)
Definition await {S A} (r : result A) : M S A := λ s, (r, s).
Definition when {S} (b : bool) (m : M S unit) : M S unit := if b then m else ret tt.

Declare Scope eff_scope.
Delimit Scope eff_scope with eff.
Notation "x <- m ;; k" := (bind m (λ x, k))
  (at level 100, m at next level, right associativity) : eff_scope.
Notation "m ;; k" := (bind m (λ _, k))
  (at level 100, right associativity) : eff_scope.

(** JS truthiness of an optional string: [undefined], [null] and the empty
    string are falsy. *)
Definition truthy (s : option string) : bool :=
  match s with
  | Some s => negb (String.eqb s "")
  | None => false
  end.

(** ** Native capture ([createAudioCapture] of capture.native.ts)

    The platform calls of the recorder and of the file system are
    awaited; what each of them does is given by the environment.  Poll
    cycles are taken one at a time, each run to completion. *)
Module NativeCapture.

(** The invocations of [options.onData] and [options.onError]. *)
Inductive Callback : Type :=
  | OnData (base64 : string)
  | OnError (error : Exn).

(** The closure variables of [createAudioCapture], with the record of
    the callbacks invoked so far.  [recording] counts recorder
    instances: [Some k] is the [k]-th [AudioRecorder] created. *)
Record State : Type := {
  recording : option nat;
  pollInterval : bool;
  stopped : bool;
  recorders : nat;
  callbacks : list Callback
}.

Definition create : State :=
  {| recording := None; pollInterval := false; stopped := false;
     recorders := 0; callbacks := [] |}.

Definition set_stopped (b : bool) (s : State) : State :=
  {| recording := recording s; pollInterval := pollInterval s; stopped := b;
     recorders := recorders s; callbacks := callbacks s |}.
Definition set_pollInterval (b : bool) (s : State) : State :=
  {| recording := recording s; pollInterval := b; stopped := stopped s;
     recorders := recorders s; callbacks := callbacks s |}.
Definition clear_recording (s : State) : State :=
  {| recording := None; pollInterval := pollInterval s; stopped := stopped s;
     recorders := recorders s; callbacks := callbacks s |}.
(** [recording = new AudioModule.AudioRecorder(...)]. *)
Definition new_recorder (s : State) : State :=
  {| recording := Some (recorders s); pollInterval := pollInterval s;
     stopped := stopped s; recorders := S (recorders s);
     callbacks := callbacks s |}.
Definition invoke (c : Callback) (s : State) : State :=
  {| recording := recording s; pollInterval := pollInterval s;
     stopped := stopped s; recorders := recorders s;
     callbacks := callbacks s ++ [c] |}.

(** What the platform does during [start]. *)
Record StartEnv : Type := {
  setAudioMode : result unit;
  prepareFirst : result unit
}.

(** What the platform does during one poll cycle: the outcome of
    stopping the current segment, its [uri], the outcome of reading the
    file, and the outcome of preparing the next segment. *)
Record Cycle : Type := {
  stopSegment : result unit;
  uri : option string;
  readSegment : result string;
  prepareNext : result unit
}.

Local Open Scope eff_scope.

Definition startRecordingCycle (env : StartEnv) : M State unit :=
  s <- get;;
  if stopped s then ret tt
  else
    try_catch
      (modify new_recorder;;
       await (prepareFirst env);;
       modify (set_pollInterval true))
      (λ e, modify (invoke (OnError e))).

Definition start (env : StartEnv) : M State unit :=
  modify (set_stopped false);;
  await (setAudioMode env);;
  startRecordingCycle env.

(** The callback given to [setInterval]. *)
Definition poll (env : Cycle) : M State unit :=
  s <- get;;
  if stopped s || negb (bool_decide (is_Some (recording s))) then ret tt
  else
    try_catch
      (await (stopSegment env);;
       when (truthy (uri env))
         (base64 <- await (readSegment env);;
          when (negb (String.eqb base64 ""))
            (modify (invoke (OnData base64))));;
       s <- get;;
       when (negb (stopped s))
         (modify new_recorder;;
          await (prepareNext env)))
      (λ e,
         s <- get;;
         when (negb (stopped s)) (modify (invoke (OnError e)))).

(** The timer fires [poll] only while the interval is armed.  A cycle
    is run to its end before anything else happens: what [stop] or a
    second timer tick does to a cycle that is suspended at one of its
    awaits is not covered. *)
Definition tick (env : Cycle) (s : State) : State :=
  if pollInterval s then snd (poll env s) else s.

Definition ticks (envs : list Cycle) (s : State) : State :=
  foldl (λ s env, tick env s) s envs.

Definition stop (s : State) : State :=
  clear_recording (set_pollInterval false (set_stopped true s)).

(** The pipeline is running when the poll timer is armed over a current
    recorder and [stop] has not been called. *)
Definition running (s : State) : bool :=
  pollInterval s && negb (stopped s) && bool_decide (is_Some (recording s)).

(** The capture error of a poll cycle, if any: the first platform call of
    the cycle that throws. *)
Definition failure (env : Cycle) : option Exn :=
  match stopSegment env with
  | Throw e => Some e
  | Ok _ =>
      match (if truthy (uri env) then readSegment env else Ok "") with
      | Throw e => Some e
      | Ok _ =>
          match prepareNext env with
          | Throw e => Some e
          | Ok _ => None
          end
      end
  end.

(** The chunk a poll cycle hands to the data callback, if any. *)
Definition segment (env : Cycle) : option string :=
  match stopSegment env with
  | Throw _ => None
  | Ok _ =>
      if truthy (uri env) then
        match readSegment env with
        | Ok base64 => if String.eqb base64 "" then None else Some base64
        | Throw _ => None
        end
      else None
  end.

Definition errors (s : State) : list Exn :=
  omap (λ c, match c with OnError e => Some e | _ => None end) (callbacks s).
Definition data (s : State) : list string :=
  omap (λ c, match c with OnData d => Some d | _ => None end) (callbacks s).

End NativeCapture.

(** ** Native player ([createAudioPlayer] of the native player)

    [playNext] is asynchronous: it runs up to an await, and goes on when
    the platform completes the awaited call, other calls on the player
    being possible in between.  The player is modelled with the place
    at which the running [playNext] is suspended. *)
Module NativePlayer.

(** An [AudioModule.AudioPlayer] instance: the temp file it was created
    for, named by its counter, and its [playing] property. *)
Record Instance : Type := {
  tempFile : nat;
  player_playing : bool
}.

(** The awaits of [playNext]. *)
Inductive Suspension : Type :=
  (** [await FileSystem.writeAsStringAsync(tempFile, wavBase64, ...)],
      with the bytes being written *)
  | Writing (file : nat) (wavBytes : bytes)
  (** [await new Promise(...)], resolved by the 50 ms interval *)
  | Waiting (file : nat)
  (** [await FileSystem.deleteAsync(tempFile, ...).catch(...)] *)
  | Deleting (file : nat).

(** The closure variables of [createAudioPlayer], the suspended
    [playNext] if there is one, and the record of the files that were
    handed to a new [AudioPlayer] and played, in order. *)
Record State : Type := {
  player : option Instance;
  queue : list string;
  playing : bool;
  stopped : bool;
  fileCounter : nat;
  suspended : option Suspension;
  started : list bytes
}.

Definition create : State :=
  {| player := None; queue := []; playing := false; stopped := false;
     fileCounter := 0; suspended := None; started := [] |}.

(** The first chunk of the queue that decodes, as the WAV file to
    write, and the chunks left behind it.  A chunk that fails to decode
    is logged and skipped: the catch block resets [playing] and
    [playNext] calls itself again. *)
Fixpoint next_playable (q : list string) : option bytes * list string :=
  match q with
  | [] => (None, [])
  | base64PCM :: rest =>
      match Wav.wavBytes base64PCM with
      | Some wav => (Some wav, rest)
      | None => next_playable rest
      end
  end.

(** [playNext] up to its first await, the write of the temp file. *)
Definition playNext (s : State) : State :=
  if stopped s || playing s then s
  else
    match next_playable (queue s) with
    | (Some wav, rest) =>
        {| player := player s; queue := rest; playing := true;
           stopped := stopped s; fileCounter := S (fileCounter s);
           suspended := Some (Writing (fileCounter s) wav);
           started := started s |}
    | (None, rest) =>
        {| player := player s; queue := rest; playing := false;
           stopped := stopped s; fileCounter := fileCounter s;
           suspended := suspended s; started := started s |}
    end.

(** The end of [playNext], after the try block or its catch:
    [playing = false; playNext()]. *)
Definition resume (s : State) : State :=
  playNext {| player := player s; queue := queue s; playing := false;
              stopped := stopped s; fileCounter := fileCounter s;
              suspended := None; started := started s |}.

(** What happens once the write is over: the write is rejected, or
    [new AudioModule.AudioPlayer(tempFile)] throws, or [player.play()]
    throws, or the file plays. *)
Inductive Outcome : Type :=
  | WriteRejected (e : Exn)
  | ConstructorThrows (e : Exn)
  | PlayThrows (e : Exn)
  | Plays.

(** The write completes and [playNext] goes on to its next await: the
    file is played whether or not [stop] was called meanwhile, and an
    exception goes to the catch block. *)
Definition written (o : Outcome) (s : State) : State :=
  match suspended s with
  | Some (Writing file wav) =>
      match o with
      | WriteRejected _ | ConstructorThrows _ => resume s
      | PlayThrows _ =>
          resume {| player := Some {| tempFile := file; player_playing := false |};
                    queue := queue s; playing := playing s; stopped := stopped s;
                    fileCounter := fileCounter s; suspended := suspended s;
                    started := started s |}
      | Plays =>
          {| player := Some {| tempFile := file; player_playing := true |};
             queue := queue s; playing := playing s; stopped := stopped s;
             fileCounter := fileCounter s; suspended := Some (Waiting file);
             started := started s ++ [wav] |}
      end
  | _ => s
  end.

(** The playback of the current instance reaches the end of its file. *)
Definition ended (s : State) : State :=
  {| player := (λ p, {| tempFile := tempFile p; player_playing := false |}) <$> player s;
     queue := queue s; playing := playing s; stopped := stopped s;
     fileCounter := fileCounter s; suspended := suspended s;
     started := started s |}.

(** The callback of the 50 ms interval: [!player || !player.playing]
    ends the wait, and [playNext] goes on to delete the temp file. *)
Definition poll (s : State) : State :=
  match suspended s with
  | Some (Waiting file) =>
      if match player s with
         | Some p => negb (player_playing p)
         | None => true
         end
      then {| player := player s; queue := queue s; playing := playing s;
              stopped := stopped s; fileCounter := fileCounter s;
              suspended := Some (Deleting file); started := started s |}
      else s
  | _ => s
  end.

(** The deletion completes, a rejection being swallowed by its
    [catch]. *)
Definition deleted (s : State) : State :=
  match suspended s with
  | Some (Deleting _) => resume s
  | _ => s
  end.

(** The synchronous part of [start]; the audio mode it then awaits is
    set by the caller's environment. *)
Definition start (s : State) : State :=
  {| player := player s; queue := []; playing := playing s; stopped := false;
     fileCounter := fileCounter s; suspended := suspended s;
     started := started s |}.

Definition play (base64PCM : string) (s : State) : State :=
  if stopped s then s
  else
    playNext {| player := player s; queue := queue s ++ [base64PCM];
                playing := playing s; stopped := stopped s;
                fileCounter := fileCounter s; suspended := suspended s;
                started := started s |}.

(** [player?.pause()], whose exceptions the source ignores: the instance
    stops playing. *)
Definition pause (p : option Instance) : option Instance :=
  (λ p, {| tempFile := tempFile p; player_playing := false |}) <$> p.

Definition clear (s : State) : State :=
  {| player := pause (player s); queue := []; playing := playing s;
     stopped := stopped s; fileCounter := fileCounter s;
     suspended := suspended s; started := started s |}.

Definition stop (s : State) : State :=
  {| player := None; queue := []; playing := playing s; stopped := true;
     fileCounter := fileCounter s; suspended := suspended s;
     started := started s |}.

End NativePlayer.

(** ** The Gemini voice session ([GeminiVoiceSessionImpl]) *)
Module VoiceSession.

(** *** The store *)
Inductive Status : Type := StatusIdle | Connecting | Connected | StatusError | Disconnected.
Inductive Mode : Type := Idle | Speaking.

Record Settings : Type := {
  geminiApiKey : option string;
  geminiBaseUrl : option string
}.

Record Storage : Type := {
  realtimeStatus : Status;
  realtimeMode : Mode;
  speakingHeld : bool;
  settings : Settings
}.

(** *** Messages *)
Definition Args : Type := gmap string string.

Record ToolCall : Type := {
  id : option string;
  name : option string;
  args : option Args
}.

Record FunctionResponse : Type := {
  r_id : string;
  r_name : string;
  r_result : string
}.

Record InlineData : Type := {
  data : option string;
  mimeType : option string
}.

Record Part : Type := { inlineData : option InlineData }.

Record ModelTurn : Type := { parts : option (list Part) }.

Record ServerContent : Type := {
  modelTurn : option ModelTurn;
  turnComplete : option bool
}.

Record ToolCallMessage : Type := { functionCalls : option (list ToolCall) }.

Record LiveServerMessage : Type := {
  serverContent : option ServerContent;
  toolCall : option ToolCallMessage
}.

(** What is sent on the connection. *)
Inductive ClientMessage : Type :=
  | RealtimeInput (data mimeType : string)
  | ClientContent (text : string) (turnComplete : bool)
  | ToolResponse (functionResponses : list FunctionResponse)
  | Close.

Record Connection : Type := {
  apiKey : string;
  baseUrl : option string
}.

(** *** The tool executors ([realtimeClientTools])

    The registry is not among the sources: its two executors are taken as
    parameters, each returning a result string or throwing. *)
Record Tools : Type := {
  messageClaudeCode : Args → result string;
  processPermissionRequest : Args → result string
}.

(** *** The session object and what it acts on

    [session], [audioCapture] and [audioPlayer] are the fields of
    [GeminiVoiceSessionImpl]; [storage] is the store and [published] the
    calls made to its two setters, in order; [sent] is what went out on
    the connection; [invoked] records the executor calls and [unhandled]
    the rejections of promises nobody awaits. *)
Inductive Publication : Type :=
  | SetStatus (status : Status)
  | SetMode (mode : Mode) (immediate : bool).

Record World : Type := {
  storage : Storage;
  published : list Publication;
  session : option Connection;
  audioCapture : option NativeCapture.State;
  audioPlayer : option NativePlayer.State;
  sent : list ClientMessage;
  invoked : list (string * Args);
  unhandled : list Exn
}.

Definition set_storage (f : Storage → Storage) (p : Publication) (w : World) : World :=
  {| storage := f (storage w); published := published w ++ [p];
     session := session w;
     audioCapture := audioCapture w; audioPlayer := audioPlayer w;
     sent := sent w; invoked := invoked w; unhandled := unhandled w |}.
Definition set_session (c : option Connection) (w : World) : World :=
  {| storage := storage w; published := published w; session := c;
     audioCapture := audioCapture w; audioPlayer := audioPlayer w;
     sent := sent w; invoked := invoked w; unhandled := unhandled w |}.
Definition set_audioCapture (c : option NativeCapture.State) (w : World) : World :=
  {| storage := storage w; published := published w; session := session w;
     audioCapture := c; audioPlayer := audioPlayer w;
     sent := sent w; invoked := invoked w; unhandled := unhandled w |}.
Definition set_audioPlayer (p : option NativePlayer.State) (w : World) : World :=
  {| storage := storage w; published := published w; session := session w;
     audioCapture := audioCapture w; audioPlayer := p;
     sent := sent w; invoked := invoked w; unhandled := unhandled w |}.
Definition send (m : ClientMessage) (w : World) : World :=
  {| storage := storage w; published := published w; session := session w;
     audioCapture := audioCapture w; audioPlayer := audioPlayer w;
     sent := sent w ++ [m]; invoked := invoked w; unhandled := unhandled w |}.
Definition record_calls (l : list (string * Args)) (w : World) : World :=
  {| storage := storage w; published := published w; session := session w;
     audioCapture := audioCapture w; audioPlayer := audioPlayer w;
     sent := sent w; invoked := invoked w ++ l; unhandled := unhandled w |}.
Definition record_call (n : string) (a : Args) : World → World :=
  record_calls [(n, a)].
Definition record_unhandled (e : Exn) (w : World) : World :=
  {| storage := storage w; published := published w; session := session w;
     audioCapture := audioCapture w; audioPlayer := audioPlayer w;
     sent := sent w; invoked := invoked w; unhandled := unhandled w ++ [e] |}.

(** Modelled from the spec: the status publisher of the store
    ([setRealtimeStatus] and [setRealtimeMode] of [storage], which is
    not among the sources).  [setStatus] writes the status that the UI
    observes.  [setTurnMode(mode, forced)] writes the turn mode; a write
    that is not forced is sticky: [idle] does not override a [speaking]
    transition made while the same message is handled, and only a forced
    write bypasses this.  The store keeps in [speakingHeld] whether such
    a transition was made. *)
Definition setRealtimeStatus (st : Status) (w : World) : World :=
  set_storage (λ s, {| realtimeStatus := st; realtimeMode := realtimeMode s;
                       speakingHeld := speakingHeld s;
                       settings := settings s |}) (SetStatus st) w.
Definition writeMode (m : Mode) (immediate : bool) (s : Storage) : Storage :=
  match m with
  | Speaking =>
      {| realtimeStatus := realtimeStatus s; realtimeMode := Speaking;
         speakingHeld := true; settings := settings s |}
  | Idle =>
      if immediate || negb (speakingHeld s) then
        {| realtimeStatus := realtimeStatus s; realtimeMode := Idle;
           speakingHeld := false; settings := settings s |}
      else s
  end.
Definition setRealtimeMode (m : Mode) (immediate : bool) (w : World) : World :=
  set_storage (writeMode m immediate) (SetMode m immediate) w.

(** Modelled from the spec: the hold of a [speaking] transition lasts for
    the message being handled.  The store is told nothing about
    messages: the hold ends when the connection next invokes one of its
    callbacks ([onopen], [onmessage], [onerror], [onclose]), each of
    which handles a new event. *)
Definition release (w : World) : World :=
  {| storage := {| realtimeStatus := realtimeStatus (storage w);
                   realtimeMode := realtimeMode (storage w);
                   speakingHeld := false;
                   settings := settings (storage w) |};
     published := published w; session := session w;
     audioCapture := audioCapture w; audioPlayer := audioPlayer w;
     sent := sent w; invoked := invoked w; unhandled := unhandled w |}.
Definition callback (handler : World → World) (w : World) : World :=
  handler (release w).

Local Open Scope eff_scope.

(** *** Capture wiring: the [onData] and [onError] given to
    [createAudioCapture] *)
Definition onData (base64PCM : string) (w : World) : World :=
  if bool_decide (is_Some (session w))
  then send (RealtimeInput base64PCM "audio/pcm;rate=16000") w
  else w.

Definition onError (error : Exn) (w : World) : World :=
  setRealtimeStatus StatusError w.

Definition deliver (c : NativeCapture.Callback) (w : World) : World :=
  match c with
  | NativeCapture.OnData d => onData d w
  | NativeCapture.OnError e => onError e w
  end.

(** *** [startSession] *)
Record VoiceSessionConfig : Type := {
  sessionId : string;
  initialContext : option string
}.

(** What the platform and the network do during [startSession]. *)
Record StartEnv : Type := {
  playerAudioMode : result unit;
  captureEnv : NativeCapture.StartEnv;
  connect : result unit
}.

Definition CONTEXT_PREFIX : string := "[CONTEXT UPDATE] ".

Definition onopen (w : World) : World :=
  setRealtimeMode Idle false (setRealtimeStatus Connected w).

Definition onclose (w : World) : World :=
  setRealtimeMode Idle true (setRealtimeStatus Disconnected w).

Definition stopCapture (w : World) : World :=
  set_audioCapture (NativeCapture.stop <$> audioCapture w) w.
Definition stopPlayer (w : World) : World :=
  set_audioPlayer (NativePlayer.stop <$> audioPlayer w) w.

(** [await this.audioCapture.start()], the callbacks invoked meanwhile
    being delivered to the session. *)
Definition startCapture (env : NativeCapture.StartEnv) : M World unit :=
  λ w,
    let '(r, c) := NativeCapture.start env NativeCapture.create in
    let w' := set_audioCapture (Some c) w in
    (r, foldl (λ w cb, deliver cb w) w' (NativeCapture.callbacks c)).

Definition startSession (config : VoiceSessionConfig) (env : StartEnv) : M World unit :=
  modify (setRealtimeStatus Connecting);;
  w <- get;;
  let settings := settings (storage w) in
  let apiKey := geminiApiKey settings in
  (if negb (truthy apiKey)
   then modify (setRealtimeStatus StatusError);;
        throw "Gemini API key not configured"
   else ret tt);;
  (* Initialize audio *)
  modify (set_audioPlayer (Some NativePlayer.create));;
  modify (λ w, set_audioPlayer (NativePlayer.start <$> audioPlayer w) w);;
  await (playerAudioMode env);;
  try_catch
    (startCapture (captureEnv env))
    (λ error,
       modify stopPlayer;;
       modify (setRealtimeStatus StatusError);;
       throw error);;
  (* Connect to Gemini Live API *)
  let baseUrl := geminiBaseUrl settings in
  let aiOptions :=
    {| apiKey := default "" apiKey;
       baseUrl := if truthy baseUrl then baseUrl else None |} in
  try_catch
    (await (connect env);;
     modify (callback onopen);;
     modify (set_session (Some aiOptions));;
     when (truthy (initialContext config))
       (modify (send (ClientContent
                        (CONTEXT_PREFIX +:+ default "" (initialContext config))
                        true))))
    (λ error,
       modify stopCapture;;
       modify stopPlayer;;
       modify (setRealtimeStatus StatusError);;
       throw error).

(** *** [endSession], [sendTextMessage], [sendContextualUpdate] *)
Definition endSession (closeResult : result unit) : M World unit :=
  w <- get;;
  try_catch
    (when (bool_decide (is_Some (session w)))
       (await closeResult;; modify (send Close)))
    (λ _, ret tt);;
  modify stopCapture;;
  modify stopPlayer;;
  modify (set_session None);;
  modify (set_audioCapture None);;
  modify (set_audioPlayer None);;
  modify (setRealtimeStatus Disconnected);;
  modify (setRealtimeMode Idle true).

Definition sendTextMessage (message : string) (w : World) : World :=
  if bool_decide (is_Some (session w))
  then send (ClientContent message true) w
  else w.

Definition sendContextualUpdate (update : string) (w : World) : World :=
  if bool_decide (is_Some (session w))
  then send (ClientContent (CONTEXT_PREFIX +:+ update) true) w
  else w.

(** *** [handleToolCalls] *)
Definition UNKNOWN_TOOL : string := "error (unknown tool)".

Section WithTools.
Variable tools : Tools.

(** One iteration of the loop over [functionCalls]. *)
Definition handleToolCall (call : ToolCall)
    (responses : list FunctionResponse) : M World (list FunctionResponse) :=
  if negb (truthy (name call)) || negb (truthy (id call)) then ret responses
  else
    let n := default "" (name call) in
    let a := default ∅ (args call) in
    result <-
      (if String.eqb n "messageClaudeCode" then
         modify (record_call n a);;
         await (messageClaudeCode tools a)
       else if String.eqb n "processPermissionRequest" then
         modify (record_call n a);;
         await (processPermissionRequest tools a)
       else ret UNKNOWN_TOOL);;
    ret (responses ++ [{| r_id := default "" (id call); r_name := n;
                          r_result := result |}]).

Fixpoint collectResponses (functionCalls : list ToolCall)
    (responses : list FunctionResponse) : M World (list FunctionResponse) :=
  match functionCalls with
  | [] => ret responses
  | call :: rest =>
      responses' <- handleToolCall call responses;;
      collectResponses rest responses'
  end.

(** The awaited executors are run to completion one after the other, as
    the loop does; the batched response is sent only if there is a result
    and the connection handle is still set. *)
Definition handleToolCalls (functionCalls : list ToolCall) : M World unit :=
  responses <- collectResponses functionCalls [];;
  w <- get;;
  when (bool_decide (0 < length responses)%nat && bool_decide (is_Some (session w)))
    (modify (send (ToolResponse responses))).

(** *** [handleServerMessage] *)

(** [s.includes(needle)]. *)
Fixpoint includes (needle s : string) : bool :=
  if String.prefix needle s then true
  else match s with
       | EmptyString => false
       | String _ s' => includes needle s'
       end.

(** [part.inlineData?.data && part.inlineData.mimeType?.includes('audio')]. *)
Definition isAudioPart (part : Part) : bool :=
  match inlineData part with
  | Some d =>
      truthy (data d) &&
      match mimeType d with
      | Some t => includes "audio" t
      | None => false
      end
  | None => false
  end.

Definition handlePart (part : Part) (w : World) : World :=
  if isAudioPart part then
    let d := default "" (inlineData part ≫= data) in
    setRealtimeMode Speaking false
      (set_audioPlayer (NativePlayer.play d <$> audioPlayer w) w)
  else w.

Definition parts_of (message : LiveServerMessage) : option (list Part) :=
  sc ← serverContent message; mt ← modelTurn sc; parts mt.

Definition signalsTurnComplete (message : LiveServerMessage) : bool :=
  match serverContent message ≫= turnComplete with
  | Some b => b
  | None => false
  end.

Definition functionCalls_of (message : LiveServerMessage) : option (list ToolCall) :=
  tc ← toolCall message; functionCalls tc.

(** [handleToolCalls] is called without [await]: its rejection reaches
    nobody and [handleServerMessage] itself returns normally. *)
Definition handleServerMessage (message : LiveServerMessage) (w : World) : World :=
  let w1 :=
    match parts_of message with
    | Some parts => foldl (λ w part, handlePart part w) w parts
    | None => w
    end in
  let w2 :=
    if signalsTurnComplete message then setRealtimeMode Idle false w1 else w1 in
  match functionCalls_of message with
  | Some functionCalls =>
      match handleToolCalls functionCalls w2 with
      | (Ok _, w3) => w3
      | (Throw e, w3) => record_unhandled e w3
      end
  | None => w2
  end.

(** The [onmessage] callback given to [ai.live.connect], as the
    connection invokes it. *)
Definition onmessage (message : LiveServerMessage) : World → World :=
  callback (handleServerMessage message).

(** *** Notions used to state the properties of tool dispatch *)

(** The call passes the guard [!call.name || !call.id]. *)
Definition dispatchable (call : ToolCall) : bool :=
  truthy (name call) && truthy (id call).

Definition recognized (call : ToolCall) : bool :=
  let n := default "" (name call) in
  String.eqb n "messageClaudeCode" || String.eqb n "processPermissionRequest".

(** What the executor registered under the name of the call does. *)
Definition execute (call : ToolCall) : result string :=
  let n := default "" (name call) in
  let a := default ∅ (args call) in
  if String.eqb n "messageClaudeCode" then messageClaudeCode tools a
  else if String.eqb n "processPermissionRequest" then processPermissionRequest tools a
  else Ok UNKNOWN_TOOL.

Definition returns (call : ToolCall) : Prop := ∃ r, execute call = Ok r.

Definition invocation (call : ToolCall) : option (string * Args) :=
  if dispatchable call && recognized call
  then Some (default "" (name call), default ∅ (args call))
  else None.

(** The result correlated with a dispatchable call whose executor
    returns. *)
Definition response (call : ToolCall) : option FunctionResponse :=
  if dispatchable call then
    match execute call with
    | Ok r => Some {| r_id := default "" (id call);
                      r_name := default "" (name call); r_result := r |}
    | Throw _ => None
    end
  else None.

End WithTools.

(** The key of a call and of a result: the id correlating them, and the
    name. *)
Definition call_key (c : ToolCall) : string * string :=
  (default "" (id c), default "" (name c)).
Definition response_key (r : FunctionResponse) : string * string :=
  (r_id r, r_name r).

(** The inline audio parts of a message. *)
Definition audio_parts (message : LiveServerMessage) : list Part :=
  filter (λ p, isAudioPart p = true) (default [] (parts_of message)).

(** A freshly constructed session object over a store. *)
Definition fresh (st : Storage) : World :=
  {| storage := st; published := []; session := None;
     audioCapture := None; audioPlayer := None;
     sent := []; invoked := []; unhandled := [] |}.

End VoiceSession.

(** ** Concrete sessions, messages and executors used as test inputs *)
Module Examples.
Import VoiceSession.

Definition tools_ok : Tools :=
  {| messageClaudeCode := λ _, Ok "sent";
     processPermissionRequest := λ _, Ok "done" |}.

(** Executors of which the first one throws. *)
Definition tools_throwing : Tools :=
  {| messageClaudeCode := λ _, Throw "network down";
     processPermissionRequest := λ _, Ok "done" |}.

Definition call_message : ToolCall :=
  {| id := Some "call-1"; name := Some "messageClaudeCode";
     args := Some {["message" := "run the tests"]} |}.
Definition call_permission : ToolCall :=
  {| id := Some "call-2"; name := Some "processPermissionRequest";
     args := Some {["decision" := "allow"]} |}.
Definition call_unknown : ToolCall :=
  {| id := Some "call-3"; name := Some "openBrowser"; args := None |}.
Definition call_without_id : ToolCall :=
  {| id := None; name := Some "messageClaudeCode"; args := None |}.

Definition store (key : option string) : Storage :=
  {| realtimeStatus := StatusIdle; realtimeMode := Idle; speakingHeld := false;
     settings := {| geminiApiKey := key; geminiBaseUrl := None |} |}.

Definition start_succeeds : StartEnv :=
  {| playerAudioMode := Ok tt;
     captureEnv := {| NativeCapture.setAudioMode := Ok tt;
                      NativeCapture.prepareFirst := Ok tt |};
     connect := Ok tt |}.

(** The session object after a successful [startSession]. *)
Definition connected : World :=
  snd (startSession {| sessionId := "s1"; initialContext := None |}
         start_succeeds (fresh (store (Some "key")))).

(** The same object after [endSession]: messages that still arrive on the
    closing connection find the connection handle cleared. *)
Definition ended : World := snd (endSession (Ok tt) connected).

Definition audio_part : Part :=
  {| inlineData := Some {| data := Some "AAD/fw==";
                           mimeType := Some "audio/pcm;rate=24000" |} |}.

(** One audio part and the turn-completion signal in the same message. *)
Definition audio_and_turn_complete : LiveServerMessage :=
  {| serverContent := Some {| modelTurn := Some {| parts := Some [audio_part] |};
                              turnComplete := Some true |};
     toolCall := None |}.

Definition audio_only : LiveServerMessage :=
  {| serverContent := Some {| modelTurn := Some {| parts := Some [audio_part] |};
                              turnComplete := None |};
     toolCall := None |}.

Definition turn_complete_only : LiveServerMessage :=
  {| serverContent := Some {| modelTurn := None; turnComplete := Some true |};
     toolCall := None |}.

Definition tool_message (calls : list ToolCall) : LiveServerMessage :=
  {| serverContent := None;
     toolCall := Some {| functionCalls := Some calls |} |}.

(** A capture pipeline after a successful [start]. *)
Definition capturing : NativeCapture.State :=
  snd (NativeCapture.start
         {| NativeCapture.setAudioMode := Ok tt;
            NativeCapture.prepareFirst := Ok tt |}
         NativeCapture.create).

(** A poll cycle in which stopping the segment fails, and one that
    delivers a segment. *)
Definition failing_cycle : NativeCapture.Cycle :=
  {| NativeCapture.stopSegment := Throw "device disconnected";
     NativeCapture.uri := None;
     NativeCapture.readSegment := Ok "";
     NativeCapture.prepareNext := Ok tt |}.
Definition good_cycle : NativeCapture.Cycle :=
  {| NativeCapture.stopSegment := Ok tt;
     NativeCapture.uri := Some "file:///cache/segment.wav";
     NativeCapture.readSegment := Ok "UklGRiQAAABXQVZF";
     NativeCapture.prepareNext := Ok tt |}.

End Examples.

(** ** Runs of the native player *)
Module PlayerRun.
Import NativePlayer.

(** The calls made on a player, and what the platform does to it: the
    write of the temp file completes, the file being played ends, the
    50 ms interval fires, the deletion of the temp file completes. *)
Inductive Op : Type :=
  | Start
  | Play (base64PCM : string)
  | Clear
  | Stop
  | Written (o : Outcome)
  | Ended
  | Poll
  | Deleted.

Definition step (o : Op) : State → State :=
  match o with
  | Start => start
  | Play base64PCM => play base64PCM
  | Clear => clear
  | Stop => stop
  | Written o => written o
  | Ended => ended
  | Poll => poll
  | Deleted => deleted
  end.

Definition run (ops : list Op) (s : State) : State := foldl (λ s o, step o s) s ops.

(** The chunks passed to [play] in a run, in order. *)
Definition played (ops : list Op) : list string :=
  omap (λ o, match o with Play base64PCM => Some base64PCM | _ => None end) ops.

(** The file being written, if there is one. *)
Definition in_flight (s : State) : list bytes :=
  match suspended s with
  | Some (Writing _ wav) => [wav]
  | _ => []
  end.

(** The files of a player: those started, the one being written, and
    those of the queued chunks that decode, in this order. *)
Definition files (s : State) : list bytes :=
  started s ++ in_flight s ++ omap Wav.wavBytes (queue s).

(** What leaves a run undisturbed: no [start], [clear] or [stop], and
    every written file plays. *)
Definition undisturbed (o : Op) : bool :=
  match o with
  | Start | Clear | Stop => false
  | Written Plays => true
  | Written _ => false
  | _ => true
  end.

(** [playing] is set exactly while a [playNext] is suspended. *)
Definition consistent (s : State) : Prop :=
  playing s = bool_decide (is_Some (suspended s)).

End PlayerRun.

(** ** Runs of the voice session

    What happens to a session object between [startSession] and
    [endSession]: the calls of the application, the timer of the capture
    pipeline and the callbacks of the connection. *)
Module SessionRun.
Import VoiceSession.

(** The [onerror] callback given to [ai.live.connect]. *)
Definition onerror (w : World) : World := setRealtimeStatus StatusError w.

(** One tick of the poll timer of the session's capture pipeline, the
    callbacks it invokes being delivered to the session. *)
Definition pollCapture (cycle : NativeCapture.Cycle) (w : World) : World :=
  match audioCapture w with
  | Some c =>
      let c' := NativeCapture.tick cycle c in
      foldl (λ w cb, deliver cb w) (set_audioCapture (Some c') w)
            (drop (length (NativeCapture.callbacks c)) (NativeCapture.callbacks c'))
  | None => w
  end.

Inductive Event : Type :=
  | TextMessage (message : string)
  | ContextualUpdate (update : string)
  | Poll (cycle : NativeCapture.Cycle)
  | ServerMessage (message : LiveServerMessage)
  | SocketError
  | SocketClosed.

Definition step (tools : Tools) (ev : Event) (w : World) : World :=
  match ev with
  | TextMessage message => sendTextMessage message w
  | ContextualUpdate update => sendContextualUpdate update w
  | Poll cycle => pollCapture cycle w
  | ServerMessage message => onmessage tools message w
  | SocketError => callback onerror w
  | SocketClosed => callback onclose w
  end.

Definition run (tools : Tools) (evs : list Event) (w : World) : World :=
  foldl (λ w ev, step tools ev w) w evs.

(** The payloads of the inline audio parts of a message, in order. *)
Definition audio_data (message : LiveServerMessage) : list string :=
  map (λ p, default "" (inlineData p ≫= data)) (audio_parts message).

End SessionRun.

(** ** Typed-array operations used by the web pipelines

    [new Float32Array(n)], [set], [fill], [subarray] and [slice] on the
    indices the sources use (lengths of arrays, never negative).  [None]
    is the RangeError of a [set] that does not fit. *)
Module TypedArray.

Definition zero : Num.number := S754_zero false.

(** [new Float32Array(length)]: zero-filled. *)
Definition make (length : nat) : Float32Array := replicate length zero.

(** [target.set(source, offset)]. *)
Definition set (target source : Float32Array) (offset : nat) : option Float32Array :=
  if (offset + length source <=? length target)%nat then
    Some (take offset target ++ source ++ drop (offset + length source) target)
  else None.

(** [array.fill(value, start)]. *)
Definition fill (array : Float32Array) (value : Num.number) (start : nat) : Float32Array :=
  take start array ++ replicate (length array - start) value.

(** [array.subarray(begin, end)] and [array.slice(begin, end)] give the
    same elements; the former is a view, the latter a copy. *)
Definition slice (array : Float32Array) (begin end_ : nat) : Float32Array :=
  take (end_ - begin) (drop begin array).

(** [array.slice(begin)]. *)
Definition slice_from (array : Float32Array) (begin : nat) : Float32Array :=
  drop begin array.

End TypedArray.

(** ** The playback worklet ([PCMPlaybackProcessor] of playback.ts) *)
Module PlaybackProcessor.

(** What the player posts to the processor's port. *)
Inductive Message : Type :=
  | Clear
  | Samples (incoming : Float32Array).

(** The processor's [_buffer]. *)
Definition State : Type := Float32Array.

Definition create : State := TypedArray.make 0.

(** [this.port.onmessage]. *)
Definition onmessage (data : Message) (_buffer : State) : option State :=
  match data with
  | Clear => Some (TypedArray.make 0)
  | Samples incoming =>
      let newBuffer := TypedArray.make (length _buffer + length incoming) in
      newBuffer ← TypedArray.set newBuffer _buffer 0;
      newBuffer ← TypedArray.set newBuffer incoming (length _buffer);
      Some newBuffer
  end.

(** [process(inputs, outputs)] for the first channel of the first output,
    if there is one: the channel as the processor leaves it, and the new
    [_buffer]. *)
Definition process (output : option Float32Array) (_buffer : State)
    : option (option Float32Array * State) :=
  match output with
  | None => Some (None, _buffer)
  | Some output =>
      if (length output <=? length _buffer)%nat then
        output ← TypedArray.set output (TypedArray.slice _buffer 0 (length output)) 0;
        Some (Some output, TypedArray.slice_from _buffer (length output))
      else if (0 <? length _buffer)%nat then
        output ← TypedArray.set output _buffer 0;
        Some (Some (TypedArray.fill output TypedArray.zero (length _buffer)),
              TypedArray.make 0)
      else
        Some (Some (TypedArray.fill output TypedArray.zero 0), _buffer)
  end.

(** A run of the processor: messages arriving on the port and render
    quanta, each with the output channel handed in by the audio system.
    The channels written are collected in order.  [None] is an
    exception. *)
Inductive Event : Type :=
  | Post (data : Message)
  | Render (output : Float32Array).

Fixpoint run (events : list Event) (_buffer : State)
    : option (list Float32Array * State) :=
  match events with
  | [] => Some ([], _buffer)
  | Post data :: rest =>
      _buffer ← onmessage data _buffer;
      run rest _buffer
  | Render output :: rest =>
      '(written, _buffer) ← process (Some output) _buffer;
      '(outputs, _buffer) ← run rest _buffer;
      Some (option_list written ++ outputs, _buffer)
  end.

End PlaybackProcessor.

(** ** The web player ([createAudioPlayer] of playback.ts)

    The worklet node is modelled together with the processor it talks
    to: a message posted to its port is handled by the processor before
    the next message and before the next render quantum. *)
Module WebPlayer.
Import Num.

Definition OUTPUT_SAMPLE_RATE : number := of_Z 24000.

(** The closure variables of [createAudioPlayer]; [workletNode] holds the
    [_buffer] of the node's processor. *)
Record State : Type := {
  audioContext : bool;
  workletNode : option PlaybackProcessor.State;
  nativeSampleRate : number
}.

Definition create : State :=
  {| audioContext := false; workletNode := None;
     nativeSampleRate := OUTPUT_SAMPLE_RATE |}.

Definition set_workletNode (n : option PlaybackProcessor.State) (s : State) : State :=
  {| audioContext := audioContext s; workletNode := n;
     nativeSampleRate := nativeSampleRate s |}.

(** What the platform does during [start]: the sample rate of the new
    audio context, and the outcomes of registering the processor from
    the blob URL and from the data URL. *)
Record StartEnv : Type := {
  sampleRate : number;
  addModuleBlob : result unit;
  addModuleData : result unit
}.

Local Open Scope eff_scope.

Definition start (env : StartEnv) : M State unit :=
  modify (λ s, {| audioContext := true; workletNode := workletNode s;
                  nativeSampleRate := sampleRate env |});;
  try_catch (await (addModuleBlob env)) (λ _, await (addModuleData env));;
  modify (set_workletNode (Some PlaybackProcessor.create)).

(** [workletNode.port.postMessage(data)]; a handler that throws leaves
    the processor's buffer as it was. *)
Definition postMessage (data : PlaybackProcessor.Message) (s : State) : State :=
  set_workletNode
    ((λ _buffer, default _buffer (PlaybackProcessor.onmessage data _buffer))
       <$> workletNode s) s.

(** The exception of a failing step, by its name. *)
Definition orThrow {S A : Type} (name : Exn) (o : option A) : M S A :=
  match o with
  | Some a => ret a
  | None => throw name
  end.

(** The error with which [base64PCM16ToFloat32] fails: [atob] rejects
    the text, or the [Int16Array] constructor rejects an odd length. *)
Definition decodeError (base64 : string) : Exn :=
  match Base64.atob base64 with
  | None => "InvalidCharacterError"
  | Some _ => "RangeError"
  end.

Definition play (base64PCM : string) : M State unit :=
  s <- get;;
  if negb (bool_decide (is_Some (workletNode s))) then ret tt
  else
    float32 <- orThrow (decodeError base64PCM) (Codec.base64PCM16ToFloat32 base64PCM);;
    resampled <- orThrow "RangeError"
                   (Resampler.resample float32 OUTPUT_SAMPLE_RATE (nativeSampleRate s));;
    modify (postMessage (PlaybackProcessor.Samples resampled)).

Definition clear (s : State) : State :=
  if bool_decide (is_Some (workletNode s))
  then postMessage PlaybackProcessor.Clear s else s.

Definition stop (s : State) : State :=
  {| audioContext := false; workletNode := None;
     nativeSampleRate := nativeSampleRate s |}.

End WebPlayer.

(** ** The web capture ([createAudioCapture] of the capture pipeline):
       the handler of the worklet's messages *)
Module WebCapture.
Import Num.

Definition TARGET_SAMPLE_RATE : number := of_Z 16000.

(** The literal [0.1]: the double nearest to one tenth. *)
Definition tenth : number := S754_finite false 7205759403792794 (-56).

(** [a >= b] on numbers: false when either is NaN. *)
Definition ge (a b : number) : bool := SFleb b a.

(** A number used as an index of [slice] on an array of the given
    length: truncated, counted from the end when negative, and clamped
    to the array. *)
Definition relative_index (len : nat) (x : number) : nat :=
  match x with
  | S754_nan | S754_zero _ => 0%nat
  | S754_infinity s => if s then 0%nat else len
  | S754_finite s m e =>
      let t := truncZ s m e in
      if t <? 0 then Z.to_nat (Z.max (Z.of_nat len + t) 0)
      else Z.to_nat (Z.min t (Z.of_nat len))
  end.

(** The variables of a started capture that the message handler uses,
    with the record of the [onData] calls. *)
Record State : Type := {
  nativeSampleRate : number;
  CHUNK_SIZE : number;
  buffer : Float32Array;
  delivered : list string
}.

(** The state [start] sets up for a context of the given sample rate. *)
Definition started (sampleRate : number) : State :=
  {| nativeSampleRate := sampleRate;
     CHUNK_SIZE := floor (mul sampleRate tenth);
     buffer := TypedArray.make 0;
     delivered := [] |}.

Definition set_buffer (b : Float32Array) (s : State) : State :=
  {| nativeSampleRate := nativeSampleRate s; CHUNK_SIZE := CHUNK_SIZE s;
     buffer := b; delivered := delivered s |}.

Definition onData (base64 : string) (s : State) : State :=
  {| nativeSampleRate := nativeSampleRate s; CHUNK_SIZE := CHUNK_SIZE s;
     buffer := buffer s; delivered := delivered s ++ [base64] |}.

(** The [while] loop of the handler, run for at most [fuel] iterations:
    [None] when the loop has not ended by then; otherwise how it ended
    (normally, or with the RangeError of [resample]) and the state it
    left. *)
Fixpoint chunkLoop (fuel : nat) (s : State) : option (result unit * State) :=
  match fuel with
  | O => None
  | S fuel' =>
      if ge (of_nat (length (buffer s))) (CHUNK_SIZE s) then
        let k := relative_index (length (buffer s)) (CHUNK_SIZE s) in
        let chunk := TypedArray.slice (buffer s) 0 k in
        let s := set_buffer (TypedArray.slice_from (buffer s) k) s in
        match Resampler.resample chunk (nativeSampleRate s) TARGET_SAMPLE_RATE with
        | None => Some (Throw "RangeError", s)
        | Some resampled =>
            chunkLoop fuel' (onData (Codec.float32ToBase64PCM16 resampled) s)
        end
      else Some (Ok tt, s)
  end.

(** [workletNode.port.onmessage]. *)
Definition onmessage (fuel : nat) (samples : Float32Array) (s : State)
    : option (result unit * State) :=
  let newBuffer := TypedArray.make (length (buffer s) + length samples) in
  match TypedArray.set newBuffer (buffer s) 0 with
  | None => Some (Throw "RangeError", s)
  | Some newBuffer =>
      match TypedArray.set newBuffer samples (length (buffer s)) with
      | None => Some (Throw "RangeError", s)
      | Some newBuffer => chunkLoop fuel (set_buffer newBuffer s)
      end
  end.

(** The consecutive blocks of [n] elements of a list, a shorter rest
    being left out. *)
Fixpoint blocks_upto {A : Type} (fuel n : nat) (l : list A) : list (list A) :=
  match fuel with
  | O => []
  | S fuel' =>
      if (n <=? length l)%nat then take n l :: blocks_upto fuel' n (drop n l) else []
  end.

Definition blocks {A : Type} (n : nat) (l : list A) : list (list A) :=
  blocks_upto (length l) n l.

(** The payload delivered for a chunk. *)
Definition payload (sampleRate : number) (chunk : Float32Array) : option string :=
  Codec.float32ToBase64PCM16 <$> Resampler.resample chunk sampleRate TARGET_SAMPLE_RATE.

End WebCapture.

(** ** The session registry (RealtimeSession.ts)

    The module keeps the registered voice session object and two flags.
    Permission prompts, the settings store, credentials, the voice token
    service, the paywall and the alerts are outside the sources: what
    each call returns is given by the environment, and the alerts shown
    are recorded. *)
Module RealtimeSession.

(** The argument of [VoiceSession.startSession]. *)
Record SessionConfig : Type := {
  sessionId : string;
  initialContext : option string;
  token : option string;
  agentId : option string
}.

(** The [VoiceSession] interface, as operations on the state [V] of the
    session object. *)
Record VoiceSession (V : Type) : Type := {
  startSession : SessionConfig → M V unit;
  endSession : M V unit
}.
Arguments startSession {V} _ _ _.
Arguments endSession {V} _ _.

(** What the user is shown: [Modal.alert(title, message)] and the alert
    of a denied microphone permission. *)
Inductive Notice : Type :=
  | Alert (title message : string)
  | MicrophonePermissionDenied (canAskAgain : bool).

Record PermissionResult : Type := {
  granted : bool;
  canAskAgain : bool
}.

Record VoiceTokenResponse : Type := {
  allowed : bool;
  response_token : option string;
  response_agentId : option string
}.

(** What one call of [startRealtimeSession] finds: the outcome of the
    permission request, the settings read from the store, the configured
    agent id, the stored credentials and the answer of the token
    service. *)
Record Platform : Type := {
  requestMicrophonePermission : result PermissionResult;
  voiceEngine : string;
  geminiApiKey : option string;
  experiments : bool;
  elevenLabsAgentId : option string;
  getCredentials : result (option string);
  fetchVoiceToken : result VoiceTokenResponse
}.

(** The environment of a call, with what the paywall does if it is
    presented; after a purchase the function calls itself, in the
    environment [restart]. *)
Inductive StartEnv : Type :=
  | Env (platform : Platform) (presentPaywall : Paywall)
with Paywall : Type :=
  | PaywallThrows (e : Exn)
  | NotPurchased
  | Purchased (restart : StartEnv).

Scheme StartEnv_restarts := Induction for StartEnv Sort Prop
  with Paywall_restarts := Induction for Paywall Sort Prop.

(** The variables of the module, with the record of what was shown. *)
Record State (V : Type) : Type := {
  voiceSession : option V;
  voiceSessionStarted : bool;
  currentSessionId : option string;
  shown : list Notice
}.
Arguments voiceSession {V} _.
Arguments voiceSessionStarted {V} _.
Arguments currentSessionId {V} _.
Arguments shown {V} _.

Definition initial {V : Type} : State V :=
  {| voiceSession := None; voiceSessionStarted := false;
     currentSessionId := None; shown := [] |}.

Section Registry.
Context {V : Type}.
(** The translation function [t]. *)
Variable t : string → string.
(** The operations of the registered session object. *)
Variable impl : VoiceSession V.

Definition set_voiceSession (v : option V) (s : State V) : State V :=
  {| voiceSession := v; voiceSessionStarted := voiceSessionStarted s;
     currentSessionId := currentSessionId s; shown := shown s |}.

Definition set_started (id : option string) (started : bool) (s : State V) : State V :=
  {| voiceSession := voiceSession s; voiceSessionStarted := started;
     currentSessionId := id; shown := shown s |}.

Definition show (n : Notice) (s : State V) : State V :=
  {| voiceSession := voiceSession s; voiceSessionStarted := voiceSessionStarted s;
     currentSessionId := currentSessionId s; shown := shown s ++ [n] |}.

Local Open Scope eff_scope.

(** A method called on the registered session object. *)
Definition onSession {A : Type} (m : M V A) : M (State V) A :=
  λ s, match voiceSession s with
       | Some v => let '(r, v') := m v in (r, set_voiceSession (Some v') s)
       | None => (Throw "TypeError", s)
       end.

Definition serviceUnavailable : M (State V) unit :=
  modify (set_started None false);;
  modify (show (Alert (t "common.error") (t "errors.voiceServiceUnavailable"))).

Fixpoint startRealtimeSession (env : StartEnv) (sessionId : string)
    (initialContext : option string) {struct env} : M (State V) unit :=
  let '(Env platform presentPaywall) := env in
  s <- get;;
  if negb (bool_decide (is_Some (voiceSession s))) then ret tt
  else
    (* Request microphone permission before starting voice session *)
    permissionResult <- await (requestMicrophonePermission platform);;
    if negb (granted permissionResult) then
      modify (show (MicrophonePermissionDenied (canAskAgain permissionResult)))
    else if String.eqb (voiceEngine platform) "gemini" then
      (* Gemini engine: no server token needed *)
      if negb (truthy (geminiApiKey platform)) then
        modify (show (Alert (t "common.error") (t "settingsVoice.geminiApiKeyRequired")))
      else
        try_catch
          (modify (set_started (Some sessionId) true);;
           onSession (startSession impl
                        {| sessionId := sessionId; initialContext := initialContext;
                           token := None; agentId := None |}))
          (λ _, serviceUnavailable)
    else
      (* ElevenLabs engine *)
      if negb (truthy (elevenLabsAgentId platform)) then ret tt
      else
        try_catch
          (if negb (experiments platform) then
             modify (set_started (Some sessionId) true);;
             onSession (startSession impl
                          {| sessionId := sessionId; initialContext := initialContext;
                             token := None; agentId := elevenLabsAgentId platform |})
           else
             credentials <- await (getCredentials platform);;
             if negb (bool_decide (is_Some credentials)) then
               modify (show (Alert (t "common.error") (t "errors.authenticationFailed")))
             else
               response <- await (fetchVoiceToken platform);;
               if negb (allowed response) then
                 match presentPaywall with
                 | PaywallThrows e => throw e
                 | NotPurchased => ret tt
                 | Purchased restart =>
                     startRealtimeSession restart sessionId initialContext
                 end
               else
                 modify (set_started (Some sessionId) true);;
                 if truthy (response_token response) then
                   onSession (startSession impl
                                {| sessionId := sessionId;
                                   initialContext := initialContext;
                                   token := response_token response;
                                   agentId := response_agentId response |})
                 else
                   onSession (startSession impl
                                {| sessionId := sessionId;
                                   initialContext := initialContext;
                                   token := None;
                                   agentId := elevenLabsAgentId platform |}))
          (λ _, serviceUnavailable)
  .

Definition stopRealtimeSession : M (State V) unit :=
  s <- get;;
  if negb (bool_decide (is_Some (voiceSession s))) then ret tt
  else
    try_catch
      (onSession (endSession impl);;
       modify (set_started None false))
      (λ _, ret tt).

Definition registerVoiceSession (session : V) (s : State V) : State V :=
  set_voiceSession (Some session) s.

Definition isVoiceSessionStarted (s : State V) : bool := voiceSessionStarted s.
Definition getVoiceSession (s : State V) : option V := voiceSession s.
Definition getCurrentRealtimeSessionId (s : State V) : option string := currentSessionId s.

(** The two flags agree: a session counts as started exactly when a
    current session id is recorded. *)
Definition flags_agree (s : State V) : Prop :=
  voiceSessionStarted s = bool_decide (is_Some (currentSessionId s)).

(** What a call can do to the two flags: leave them, set both, or reset
    both. *)
Definition flags_step (sessionId : string) (s s' : State V) : Prop :=
  (voiceSessionStarted s' = voiceSessionStarted s ∧
   currentSessionId s' = currentSessionId s) ∨
  (voiceSessionStarted s' = true ∧ currentSessionId s' = Some sessionId) ∨
  (voiceSessionStarted s' = false ∧ currentSessionId s' = None).

End Registry.

(** The Gemini session object behind the interface: the platform
    outcomes of starting and of closing are those of the environment
    given. *)
Definition gemini (env : VoiceSession.StartEnv) (closeResult : result unit)
    : VoiceSession VoiceSession.World :=
  {| startSession := λ config,
       VoiceSession.startSession
         {| VoiceSession.sessionId := sessionId config;
            VoiceSession.initialContext := initialContext config |} env;
     endSession := VoiceSession.endSession closeResult |}.

(** A session object that only records the configurations it is started
    with. *)
Definition recording : VoiceSession (list SessionConfig) :=
  {| startSession := λ config, modify (λ log, log ++ [config]);
     endSession := ret tt |}.

End RealtimeSession.

(* ===================================================================== *)
(** * Part II: properties                                                 *)
(* ===================================================================== *)

(** ** The effect monad *)

Lemma bind_ok {S A B} (m : M S A) (k : A → M S B) s a s' :
  m s = (Ok a, s') → bind m k s = k a s'.
Proof. intros H. unfold bind. by rewrite H. Qed.

Lemma bind_throw {S A B} (m : M S A) (k : A → M S B) s e s' :
  m s = (Throw e, s') → bind m k s = (Throw e, s').
Proof. intros H. unfold bind. by rewrite H. Qed.

(** ** The voice session: tool dispatch *)
Section ToolDispatch.
Import VoiceSession.
Variable tools : Tools.

Lemma record_calls_nil w : record_calls [] w = w.
Proof. destruct w. unfold record_calls. simpl. by rewrite app_nil_r. Qed.

Lemma record_calls_app l1 l2 w :
  record_calls l2 (record_calls l1 w) = record_calls (l1 ++ l2) w.
Proof. unfold record_calls. simpl. by rewrite app_assoc. Qed.

(** One loop iteration: a call that fails the guard is skipped; a
    dispatchable call adds its result when its executor returns and
    rejects the whole function when it throws. *)
Lemma handleToolCall_spec call acc w :
  handleToolCall tools call acc w =
    if dispatchable call then
      match execute tools call with
      | Ok r => (Ok (acc ++ [{| r_id := default "" (id call);
                                 r_name := default "" (name call);
                                 r_result := r |}]),
                 record_calls (option_list (invocation call)) w)
      | Throw e => (Throw e, record_calls (option_list (invocation call)) w)
      end
    else (Ok acc, w).
Proof.
  unfold handleToolCall, dispatchable, invocation, execute, recognized, dispatchable.
  destruct (truthy (name call)), (truthy (id call)); simpl; try reflexivity.
  destruct (String.eqb (default "" (name call)) "messageClaudeCode") eqn:E1; simpl.
  - unfold bind, modify, await, ret, record_call.
    destruct (messageClaudeCode tools _); reflexivity.
  - destruct (String.eqb (default "" (name call)) "processPermissionRequest") eqn:E2; simpl.
    + unfold bind, modify, await, ret, record_call.
      destruct (processPermissionRequest tools _); reflexivity.
    + unfold bind, ret. simpl. by rewrite record_calls_nil.
Qed.

Lemma response_Some call f :
  response tools call = Some f →
  dispatchable call = true ∧
  execute tools call = Ok (r_result f) ∧
  r_id f = default "" (id call) ∧ r_name f = default "" (name call).
Proof.
  unfold response. destruct (dispatchable call); [|done].
  destruct (execute tools call); [|done].
  intros [= <-]. done.
Qed.

Lemma omap_cons_app {A B} (f : A → option B) x l :
  omap f (x :: l) = option_list (f x) ++ omap f l.
Proof. simpl. destruct (f x); reflexivity. Qed.

(** The loop when every dispatchable call has an executor that returns:
    the results of the dispatchable calls, in the order of the calls. *)
Lemma collectResponses_returns calls acc w :
  Forall (λ c, dispatchable c = true → returns tools c) calls →
  collectResponses tools calls acc w =
    (Ok (acc ++ omap (response tools) calls),
     record_calls (omap invocation calls) w).
Proof.
  intros H. revert acc w. induction H as [|call calls Hc _ IH]; intros acc w.
  - simpl. unfold ret. by rewrite app_nil_r, record_calls_nil.
  - rewrite !omap_cons_app. simpl. unfold bind at 1. rewrite handleToolCall_spec.
    unfold response at 1.
    destruct (dispatchable call) eqn:Hd.
    + destruct (Hc eq_refl) as [r Hr]. rewrite Hr, IH.
      by rewrite <- app_assoc, record_calls_app.
    + rewrite IH. unfold invocation at 2. rewrite Hd. reflexivity.
Qed.

(** The loop when an executor throws: the function stops there. *)
Lemma collectResponses_throws pre call post e acc w :
  Forall (λ c, dispatchable c = true → returns tools c) pre →
  dispatchable call = true →
  execute tools call = Throw e →
  collectResponses tools (pre ++ call :: post) acc w =
    (Throw e, record_calls (omap invocation (pre ++ [call])) w).
Proof.
  intros H Hd He. revert acc w. induction H as [|c pre Hc _ IH]; intros acc w.
  - simpl. unfold bind. rewrite handleToolCall_spec, Hd, He.
    destruct (invocation call); reflexivity.
  - rewrite <- !app_comm_cons, omap_cons_app. simpl. unfold bind at 1.
    rewrite handleToolCall_spec.
    destruct (dispatchable c) eqn:Hdc.
    + destruct (Hc eq_refl) as [r Hr]. rewrite Hr, IH.
      by rewrite record_calls_app.
    + rewrite IH. unfold invocation at 2. by rewrite Hdc.
Qed.

(** Whatever the executors do, the loop touches nothing but the record
    of executor calls. *)
Lemma collectResponses_frame calls acc w :
  ∃ l, snd (collectResponses tools calls acc w) = record_calls l w.
Proof.
  revert acc w. induction calls as [|call calls IH]; intros acc w.
  - exists []. simpl. by rewrite record_calls_nil.
  - simpl. unfold bind. rewrite handleToolCall_spec.
    destruct (dispatchable call).
    + destruct (execute tools call).
      * destruct (IH (acc ++ [{| r_id := default "" (id call);
                                 r_name := default "" (name call);
                                 r_result := a |}])
                     (record_calls (option_list (invocation call)) w)) as [l Hl].
        eexists. rewrite Hl. apply record_calls_app.
      * eexists. reflexivity.
    + apply IH.
Qed.

Lemma collectResponses_Ok_inv calls acc w rs w' :
  collectResponses tools calls acc w = (Ok rs, w') →
  rs = acc ++ omap (response tools) calls ∧
  Forall (λ c, dispatchable c = true → returns tools c) calls.
Proof.
  revert acc w rs w'. induction calls as [|call calls IH]; intros acc w rs w'.
  - simpl. unfold ret. intros [= <- <-]. by rewrite app_nil_r.
  - rewrite omap_cons_app. simpl. unfold bind at 1. rewrite handleToolCall_spec.
    unfold response at 1.
    destruct (dispatchable call) eqn:Hd.
    + destruct (execute tools call) as [r|e] eqn:He; [|done].
      intros H. apply IH in H as [-> HF]. split.
      * by rewrite <- app_assoc.
      * constructor; [|done]. intros _. by exists r.
    + intros H. apply IH in H as [-> HF]. split; [done|].
      constructor; [|done]. congruence.
Qed.

Lemma response_keys calls :
  Forall (λ c, dispatchable c = true → returns tools c) calls →
  map response_key (omap (response tools) calls) =
  map call_key (filter (λ c, dispatchable c = true) calls).
Proof.
  induction 1 as [|c calls Hc _ IH]; [done|].
  rewrite omap_cons_app, filter_cons. unfold response at 1.
  destruct (dispatchable c) eqn:Hd.
  - destruct (Hc eq_refl) as [r Hr]. rewrite Hr.
    rewrite decide_True by done. simpl. by rewrite IH.
  - rewrite decide_False by done. simpl. exact IH.
Qed.

Lemma response_all calls :
  Forall (λ c, dispatchable c = true) calls →
  Forall (returns tools) calls →
  map r_id (omap (response tools) calls) = map (λ c, default "" (id c)) calls ∧
  length (omap (response tools) calls) = length calls.
Proof.
  induction 1 as [|c calls Hd _ IH]; [done|].
  intros HF. apply Forall_cons in HF as [[r Hr] HF].
  destruct (IH HF) as [IH1 IH2].
  rewrite omap_cons_app. unfold response at 1 3. rewrite Hd, Hr. simpl.
  by rewrite IH1, IH2.
Qed.

(** [handleToolCalls] when every dispatchable call has an executor that
    returns. *)
Lemma handleToolCalls_returns calls w :
  Forall (λ c, dispatchable c = true → returns tools c) calls →
  handleToolCalls tools calls w =
    (Ok tt,
     let rs := omap (response tools) calls in
     let w' := record_calls (omap invocation calls) w in
     if bool_decide (0 < length rs)%nat && bool_decide (is_Some (session w))
     then send (ToolResponse rs) w' else w').
Proof.
  intros H. unfold handleToolCalls, bind.
  rewrite (collectResponses_returns _ [] w H). simpl.
  destruct (bool_decide _ && bool_decide _); reflexivity.
Qed.

(** [handleToolCalls] never touches the store, the connection handle or
    the audio pipelines. *)
Lemma handleToolCalls_frame calls w :
  let w' := snd (handleToolCalls tools calls w) in
  storage w' = storage w ∧ published w' = published w ∧
  session w' = session w ∧ audioCapture w' = audioCapture w ∧
  audioPlayer w' = audioPlayer w ∧ unhandled w' = unhandled w.
Proof.
  unfold handleToolCalls, bind.
  destruct (collectResponses_frame calls [] w) as [l Hl].
  destruct (collectResponses tools calls [] w) as [[rs|e] w1]; simpl in *; subst w1.
  - destruct (bool_decide _ && bool_decide _); simpl; done.
  - done.
Qed.

End ToolDispatch.


(** ** The voice session: the scenarios of the specification *)

(** A successful [startSession]: status [connected], turn [idle], both
    pipelines started, and the initial context sent as a context update. *)
Example startSession_connects :
  let '(r, w) := VoiceSession.startSession
                   {| VoiceSession.sessionId := "s1";
                      VoiceSession.initialContext := Some "repo: happy" |}
                   Examples.start_succeeds
                   (VoiceSession.fresh (Examples.store (Some "key"))) in
  r = Ok tt ∧
  VoiceSession.realtimeStatus (VoiceSession.storage w) = VoiceSession.Connected ∧
  VoiceSession.realtimeMode (VoiceSession.storage w) = VoiceSession.Idle ∧
  (NativeCapture.running <$> VoiceSession.audioCapture w) = Some true ∧
  (NativePlayer.stopped <$> VoiceSession.audioPlayer w) = Some false ∧
  VoiceSession.sent w =
    [VoiceSession.ClientContent "[CONTEXT UPDATE] repo: happy" true].
Proof. vm_compute. done. Qed.

(** A message with an audio part and no turn completion makes the turn
    [speaking] and reaches the player; a later message with the turn
    completion alone makes it [idle]. *)
Example audio_then_turn_complete :
  let w1 := VoiceSession.onmessage Examples.tools_ok
              Examples.audio_only Examples.connected in
  let w2 := VoiceSession.onmessage Examples.tools_ok
              Examples.turn_complete_only w1 in
  VoiceSession.realtimeMode (VoiceSession.storage w1) = VoiceSession.Speaking ∧
  (NativePlayer.suspended <$> VoiceSession.audioPlayer w1) =
    Some (NativePlayer.Writing 0 <$> Wav.wavBytes "AAD/fw==") ∧
  VoiceSession.realtimeMode (VoiceSession.storage w2) = VoiceSession.Idle.
Proof. vm_compute. done. Qed.

(** One recognized and one unrecognized tool call: one batched response
    with two results, the second being the error sentinel. *)
Example recognized_and_unrecognized_call :
  VoiceSession.sent
    (VoiceSession.handleServerMessage Examples.tools_ok
       (Examples.tool_message [Examples.call_message; Examples.call_unknown])
       Examples.connected) =
  [VoiceSession.ToolResponse
     [{| VoiceSession.r_id := "call-1"; VoiceSession.r_name := "messageClaudeCode";
         VoiceSession.r_result := "sent" |};
      {| VoiceSession.r_id := "call-3"; VoiceSession.r_name := "openBrowser";
         VoiceSession.r_result := "error (unknown tool)" |}]].
Proof. vm_compute. done. Qed.

(** ** The voice session: claims *)
Section SessionClaims.
Import VoiceSession.

(** A write of the turn mode leaves the status and the settings alone. *)
Lemma writeMode_status m immediate s :
  realtimeStatus (writeMode m immediate s) = realtimeStatus s.
Proof. destruct m; unfold writeMode; [by destruct (immediate || _)|done]. Qed.

Lemma writeMode_settings m immediate s :
  settings (writeMode m immediate s) = settings s.
Proof. destruct m; unfold writeMode; [by destruct (immediate || _)|done]. Qed.

Lemma handlePart_frame part w :
  let w' := handlePart part w in
  session w' = session w ∧ sent w' = sent w ∧ invoked w' = invoked w ∧
  unhandled w' = unhandled w ∧
  realtimeStatus (storage w') = realtimeStatus (storage w).
Proof. unfold handlePart. destruct (isAudioPart part); simpl; done. Qed.

(** The loop over the parts publishes [speaking] once per audio part and
    nothing else. *)
Lemma handleParts_published parts w :
  published (foldl (λ w part, handlePart part w) w parts) =
    published w ++
    replicate (length (filter (λ p, isAudioPart p = true) parts)) (SetMode Speaking false).
Proof.
  revert w. induction parts as [|p parts IH]; intros w; simpl.
  - by rewrite app_nil_r.
  - rewrite IH, filter_cons. unfold handlePart.
    destruct (isAudioPart p) eqn:Hp.
    + rewrite decide_True by done. simpl. by rewrite <- app_assoc.
    + rewrite decide_False by congruence. done.
Qed.

(** The store after the loop over the parts: [speaking], held, if there
    was an audio part, and unchanged otherwise. *)
Lemma handleParts_storage parts w :
  storage (foldl (λ w part, handlePart part w) w parts) =
    match filter (λ p, isAudioPart p = true) parts with
    | [] => storage w
    | _ => writeMode Speaking false (storage w)
    end.
Proof.
  revert w. induction parts as [|p parts IH]; intros w; [done|].
  cbn [foldl]. rewrite IH, filter_cons. unfold handlePart.
  destruct (isAudioPart p) eqn:Hp.
  - rewrite decide_True by done.
    by destruct (filter _ parts).
  - rewrite decide_False by congruence. done.
Qed.

Lemma handleParts_frame parts w :
  let w' := foldl (λ w part, handlePart part w) w parts in
  session w' = session w ∧ sent w' = sent w ∧ invoked w' = invoked w ∧
  unhandled w' = unhandled w ∧
  realtimeStatus (storage w') = realtimeStatus (storage w).
Proof.
  revert w. induction parts as [|p parts IH]; intros w; simpl; [done|].
  destruct (IH (handlePart p w)) as (-> & -> & -> & -> & ->).
  apply handlePart_frame.
Qed.

End SessionClaims.

(** C1: for every inbound server message that contains at least one
    inline audio part and also signals turn completion, the turn mode
    after the message has been handled is [speaking], not [idle].  The
    handler publishes [speaking] once per audio part and, after them,
    [idle] without forcing it; the store does not let an [idle] that is
    not forced override the [speaking] transition of the same message. *)
Theorem audio_parts_win_over_turn_complete
    (tools : VoiceSession.Tools) (message : VoiceSession.LiveServerMessage)
    (w : VoiceSession.World) :
  VoiceSession.audio_parts message ≠ [] →
  VoiceSession.signalsTurnComplete message = true →
  let w' := VoiceSession.handleServerMessage tools message w in
  VoiceSession.realtimeMode (VoiceSession.storage w') = VoiceSession.Speaking ∧
  VoiceSession.realtimeMode (VoiceSession.storage w') ≠ VoiceSession.Idle ∧
  VoiceSession.published w' =
    VoiceSession.published w ++
    replicate (length (VoiceSession.audio_parts message))
              (VoiceSession.SetMode VoiceSession.Speaking false) ++
    [VoiceSession.SetMode VoiceSession.Idle false].
Proof.
  intros Haudio Hdone.
  unfold VoiceSession.handleServerMessage, VoiceSession.audio_parts in *.
  rewrite Hdone.
  set (w1 := match VoiceSession.parts_of message with
             | Some parts => foldl _ w parts
             | None => w
             end).
  assert (Hpub : VoiceSession.published w1 =
            VoiceSession.published w ++
            replicate (length (filter (λ p, VoiceSession.isAudioPart p = true)
                                 (default [] (VoiceSession.parts_of message))))
                      (VoiceSession.SetMode VoiceSession.Speaking false)).
  { subst w1. destruct (VoiceSession.parts_of message) as [parts|]; simpl.
    - apply handleParts_published.
    - by rewrite app_nil_r. }
  assert (Hst : VoiceSession.storage w1 =
                VoiceSession.writeMode VoiceSession.Speaking false (VoiceSession.storage w)).
  { subst w1. destruct (VoiceSession.parts_of message) as [parts|]; simpl in *; [|done].
    rewrite handleParts_storage.
    destruct (filter _ parts); [done|reflexivity]. }
  set (w2 := VoiceSession.setRealtimeMode VoiceSession.Idle false w1).
  assert (H2 : VoiceSession.storage w2 = VoiceSession.storage w1
               ∧ VoiceSession.published w2 =
                 VoiceSession.published w1 ++ [VoiceSession.SetMode VoiceSession.Idle false]).
  { subst w2. unfold VoiceSession.setRealtimeMode, VoiceSession.set_storage.
    cbn [VoiceSession.storage VoiceSession.published]. by rewrite Hst. }
  destruct H2 as [Hm Hp]. rewrite Hpub, <- app_assoc in Hp.
  assert (Hgoal : VoiceSession.realtimeMode (VoiceSession.storage w2) = VoiceSession.Speaking)
    by (by rewrite Hm, Hst).
  destruct (VoiceSession.functionCalls_of message) as [calls|].
  - pose proof (handleToolCalls_frame tools calls w2) as (Hs & Hq & _).
    destruct (VoiceSession.handleToolCalls tools calls w2) as [[[]|e] w3]; simpl in *;
      rewrite Hs, Hq, Hgoal; done.
  - rewrite Hgoal. done.
Qed.

Lemma audio_parts_win_over_turn_complete_witness :
  let w' := VoiceSession.handleServerMessage Examples.tools_ok
              Examples.audio_and_turn_complete Examples.connected in
  VoiceSession.realtimeMode (VoiceSession.storage w') = VoiceSession.Speaking ∧
  VoiceSession.realtimeMode (VoiceSession.storage w') ≠ VoiceSession.Idle ∧
  VoiceSession.published w' =
    VoiceSession.published Examples.connected ++
    [VoiceSession.SetMode VoiceSession.Speaking false;
     VoiceSession.SetMode VoiceSession.Idle false].
Proof.
  apply (audio_parts_win_over_turn_complete Examples.tools_ok
           Examples.audio_and_turn_complete Examples.connected).
  - vm_compute. congruence.
  - reflexivity.
Defined.

(** C2, as stated, fails: with an executor that throws on the first call
    of a batch of two, [handleToolCalls] rejects with the thrown value, the
    second call is never executed and no tool response is sent. *)
Lemma executor_exception_is_not_caught :
  let batch := [Examples.call_message; Examples.call_permission] in
  let '(r, w') := VoiceSession.handleToolCalls Examples.tools_throwing batch
                    Examples.connected in
  r = Throw "network down" ∧
  VoiceSession.sent w' = VoiceSession.sent Examples.connected ∧
  map fst (VoiceSession.invoked w') = ["messageClaudeCode"].
Proof. vm_compute. done. Qed.

(** C2, amended: for every batch of inbound tool calls, an exception
    thrown by an individual tool executor is not caught by
    [handleToolCalls]: the function rejects with it at that call, the calls
    after it are not executed and no tool response is sent for the batch.
    [handleServerMessage], which does not await the dispatch, still
    returns normally, leaving connection and status as they were: the
    rejection stays unhandled and the session does not crash. *)
Theorem executor_exception_rejects_the_batch
    (tools : VoiceSession.Tools) (pre post : list VoiceSession.ToolCall)
    (call : VoiceSession.ToolCall) (e : Exn) (w : VoiceSession.World) :
  Forall (λ c, VoiceSession.dispatchable c = true → VoiceSession.returns tools c) pre →
  VoiceSession.dispatchable call = true →
  VoiceSession.execute tools call = Throw e →
  let batch := pre ++ call :: post in
  (let '(r, w') := VoiceSession.handleToolCalls tools batch w in
   r = Throw e ∧
   VoiceSession.sent w' = VoiceSession.sent w ∧
   VoiceSession.invoked w' =
     VoiceSession.invoked w ++ omap VoiceSession.invocation (pre ++ [call])) ∧
  (∀ message, VoiceSession.functionCalls_of message = Some batch →
   let w' := VoiceSession.handleServerMessage tools message w in
   VoiceSession.unhandled w' = VoiceSession.unhandled w ++ [e] ∧
   VoiceSession.sent w' = VoiceSession.sent w ∧
   VoiceSession.session w' = VoiceSession.session w ∧
   VoiceSession.realtimeStatus (VoiceSession.storage w') =
     VoiceSession.realtimeStatus (VoiceSession.storage w)).
Proof.
  intros Hpre Hd He batch.
  assert (Hany : ∀ w0, VoiceSession.handleToolCalls tools batch w0 =
              (Throw e, VoiceSession.record_calls
                          (omap VoiceSession.invocation (pre ++ [call])) w0)).
  { intros w0. unfold VoiceSession.handleToolCalls, bind. subst batch.
    by rewrite (collectResponses_throws tools pre call post e [] w0 Hpre Hd He). }
  split.
  - rewrite Hany. done.
  - intros message Hm. unfold VoiceSession.handleServerMessage. rewrite Hm, Hany.
    set (w1 := match VoiceSession.parts_of message with
               | Some parts => foldl _ w parts
               | None => w
               end).
    assert (H1 : VoiceSession.session w1 = VoiceSession.session w ∧
                 VoiceSession.sent w1 = VoiceSession.sent w ∧
                 VoiceSession.invoked w1 = VoiceSession.invoked w ∧
                 VoiceSession.unhandled w1 = VoiceSession.unhandled w ∧
                 VoiceSession.realtimeStatus (VoiceSession.storage w1) =
                   VoiceSession.realtimeStatus (VoiceSession.storage w)).
    { subst w1. destruct (VoiceSession.parts_of message); [|done].
      apply handleParts_frame. }
    destruct H1 as (H1 & H2 & H3 & H4 & H5).
    destruct (VoiceSession.signalsTurnComplete message); simpl;
      try destruct (negb _); simpl; by rewrite H1, H2, H4, H5.
Qed.

Lemma executor_exception_rejects_the_batch_witness :
  let batch := [Examples.call_unknown] ++ Examples.call_message :: [Examples.call_permission] in
  (let '(r, w') := VoiceSession.handleToolCalls Examples.tools_throwing batch
                     Examples.connected in
   r = Throw "network down" ∧
   VoiceSession.sent w' = VoiceSession.sent Examples.connected ∧
   VoiceSession.invoked w' =
     VoiceSession.invoked Examples.connected ++
     omap VoiceSession.invocation ([Examples.call_unknown] ++ [Examples.call_message])) ∧
  (∀ message, VoiceSession.functionCalls_of message = Some batch →
   let w' := VoiceSession.handleServerMessage Examples.tools_throwing
               message Examples.connected in
   VoiceSession.unhandled w' = VoiceSession.unhandled Examples.connected ++ ["network down"] ∧
   VoiceSession.sent w' = VoiceSession.sent Examples.connected ∧
   VoiceSession.session w' = VoiceSession.session Examples.connected ∧
   VoiceSession.realtimeStatus (VoiceSession.storage w') =
     VoiceSession.realtimeStatus (VoiceSession.storage Examples.connected)).
Proof.
  apply (executor_exception_rejects_the_batch Examples.tools_throwing
           [Examples.call_unknown] [Examples.call_permission]
           Examples.call_message "network down" Examples.connected).
  - constructor; [|constructor]. intros _. exists VoiceSession.UNKNOWN_TOOL. reflexivity.
  - reflexivity.
  - reflexivity.
Defined.

(** C4, as stated, fails in two ways.  Once the connection handle has been
    cleared, a batch of one well-formed call produces its result but no
    tool response is sent; and when an executor throws, a batch of one
    well-formed call produces no result at all. *)
Lemma tool_response_needs_connection_and_returning_executors :
  (let '(r, w') := VoiceSession.handleToolCalls Examples.tools_ok
                     [Examples.call_unknown] Examples.ended in
   r = Ok tt ∧
   omap (VoiceSession.response Examples.tools_ok) [Examples.call_unknown] =
     [{| VoiceSession.r_id := "call-3"; VoiceSession.r_name := "openBrowser";
         VoiceSession.r_result := VoiceSession.UNKNOWN_TOOL |}] ∧
   VoiceSession.session Examples.ended = None ∧
   VoiceSession.sent w' = VoiceSession.sent Examples.ended) ∧
  (let '(r, w') := VoiceSession.handleToolCalls Examples.tools_throwing
                     [Examples.call_message] Examples.connected in
   r = Throw "network down" ∧
   VoiceSession.sent w' = VoiceSession.sent Examples.connected).
Proof. vm_compute. done. Qed.

(** C4, amended: for every inbound message carrying a batch of N tool
    calls each having a non-empty id and a non-empty name (ids pairwise
    distinct, names a mix of recognized and unrecognized), provided no
    executor throws, exactly N correlated results are produced with each
    id present exactly once, unrecognized names yielding the fixed error
    sentinel; provided also that the connection handle is set, exactly one
    batched tool-result response is sent when at least one result exists,
    and nothing is sent for an empty tool-call list. *)
Theorem tool_dispatch_complete
    (tools : VoiceSession.Tools) (calls : list VoiceSession.ToolCall)
    (w : VoiceSession.World) :
  Forall (λ c, VoiceSession.dispatchable c = true) calls →
  NoDup (map VoiceSession.id calls) →
  Forall (VoiceSession.returns tools) calls →
  is_Some (VoiceSession.session w) →
  let rs := omap (VoiceSession.response tools) calls in
  length rs = length calls ∧
  map VoiceSession.r_id rs = map (λ c, default "" (VoiceSession.id c)) calls ∧
  NoDup (map VoiceSession.r_id rs) ∧
  (∀ c, c ∈ calls → VoiceSession.recognized c = false →
     {| VoiceSession.r_id := default "" (VoiceSession.id c);
        VoiceSession.r_name := default "" (VoiceSession.name c);
        VoiceSession.r_result := VoiceSession.UNKNOWN_TOOL |} ∈ rs) ∧
  fst (VoiceSession.handleToolCalls tools calls w) = Ok tt ∧
  VoiceSession.sent (snd (VoiceSession.handleToolCalls tools calls w)) =
    VoiceSession.sent w ++
    match calls with
    | [] => []
    | _ => [VoiceSession.ToolResponse rs]
    end.
Proof.
  intros Hd Hnd Hret Hs rs.
  destruct (response_all tools calls Hd Hret) as [Hids Hlen].
  split; [done|]. split; [done|]. split; [|split; [|split]].
  - subst rs. rewrite Hids.
    assert (Hinj : ∀ c1 c2, c1 ∈ calls → c2 ∈ calls →
              default "" (VoiceSession.id c1) = default "" (VoiceSession.id c2) →
              VoiceSession.id c1 = VoiceSession.id c2).
    { intros c1 c2 H1 H2.
      rewrite Forall_forall in Hd.
      pose proof (Hd c1 H1) as D1. pose proof (Hd c2 H2) as D2.
      unfold VoiceSession.dispatchable in D1, D2.
      apply andb_true_iff in D1 as [_ D1]. apply andb_true_iff in D2 as [_ D2].
      destruct (VoiceSession.id c1), (VoiceSession.id c2); simpl in *; congruence. }
    clear -Hnd Hinj. induction calls as [|c calls IH]; [constructor|].
    simpl in *. apply NoDup_cons in Hnd as [Hc Hnd]. apply NoDup_cons. split.
    + intros Hin. apply Hc. apply list_elem_of_fmap in Hin as (c' & Heq & Hin).
      apply list_elem_of_fmap. exists c'. split; [|done].
      apply Hinj; [left|by right|done].
    + apply IH; [done|]. intros c1 c2 H1 H2. apply Hinj; by right.
  - intros c Hc Hrec. subst rs. apply list_elem_of_omap. exists c. split; [done|].
    rewrite Forall_forall in Hd. unfold VoiceSession.response. rewrite (Hd c Hc).
    unfold VoiceSession.recognized in Hrec. unfold VoiceSession.execute.
    apply orb_false_iff in Hrec as [-> ->]. done.
  - rewrite handleToolCalls_returns; [done|].
    eapply Forall_impl; [exact Hret|]. by intros.
  - rewrite handleToolCalls_returns; [|eapply Forall_impl; [exact Hret|]; by intros].
    cbv zeta. cbn [snd]. rewrite Hlen.
    rewrite (bool_decide_eq_true_2 _ Hs), andb_true_r.
    destruct calls as [|c calls'].
    + simpl. by rewrite app_nil_r.
    + rewrite bool_decide_eq_true_2 by (simpl; lia). done.
Qed.

Lemma tool_dispatch_complete_witness :
  let calls := [Examples.call_message; Examples.call_unknown; Examples.call_permission] in
  let rs := omap (VoiceSession.response Examples.tools_ok) calls in
  length rs = 3%nat ∧
  map VoiceSession.r_id rs = ["call-1"; "call-3"; "call-2"] ∧
  NoDup (map VoiceSession.r_id rs) ∧
  (∀ c, c ∈ calls → VoiceSession.recognized c = false →
     {| VoiceSession.r_id := default "" (VoiceSession.id c);
        VoiceSession.r_name := default "" (VoiceSession.name c);
        VoiceSession.r_result := VoiceSession.UNKNOWN_TOOL |} ∈ rs) ∧
  fst (VoiceSession.handleToolCalls Examples.tools_ok calls Examples.connected) = Ok tt ∧
  VoiceSession.sent
    (snd (VoiceSession.handleToolCalls Examples.tools_ok calls Examples.connected)) =
    [VoiceSession.ToolResponse rs].
Proof.
  apply (tool_dispatch_complete Examples.tools_ok
           [Examples.call_message; Examples.call_unknown; Examples.call_permission]
           Examples.connected).
  - repeat constructor.
  - compute_done.
  - repeat constructor; eexists; reflexivity.
  - eexists; reflexivity.
Defined.

(** C10: tool dispatch preserves input order.  For every batch of tool
    calls, the results in the batched tool response sent by
    [handleToolCalls] appear in the same order as the corresponding calls
    of the inbound message, restricted to the calls having both an id and
    a name. *)
Theorem tool_responses_keep_call_order
    (tools : VoiceSession.Tools) (calls : list VoiceSession.ToolCall)
    (w : VoiceSession.World) (rs : list VoiceSession.FunctionResponse) :
  VoiceSession.sent (snd (VoiceSession.handleToolCalls tools calls w)) =
    VoiceSession.sent w ++ [VoiceSession.ToolResponse rs] →
  map VoiceSession.response_key rs =
  map VoiceSession.call_key (filter (λ c, VoiceSession.dispatchable c = true) calls).
Proof.
  unfold VoiceSession.handleToolCalls, bind.
  destruct (collectResponses_frame tools calls [] w) as [l Hl].
  destruct (VoiceSession.collectResponses tools calls [] w) as [[rs'|e] w1] eqn:Hc;
    simpl in Hl; subst w1.
  - apply collectResponses_Ok_inv in Hc as [-> Hret]. simpl.
    destruct (bool_decide _ && bool_decide _); simpl.
    + intros H. apply app_inv_head in H. injection H as <-.
      by apply response_keys.
    + intros H. rewrite <- (app_nil_r (VoiceSession.sent w)) in H at 1.
      by apply app_inv_head in H.
  - simpl. intros H. rewrite <- (app_nil_r (VoiceSession.sent w)) in H at 1.
    by apply app_inv_head in H.
Qed.

Lemma tool_responses_keep_call_order_witness :
  map VoiceSession.response_key
    [{| VoiceSession.r_id := "call-2"; VoiceSession.r_name := "processPermissionRequest";
        VoiceSession.r_result := "done" |};
     {| VoiceSession.r_id := "call-3"; VoiceSession.r_name := "openBrowser";
        VoiceSession.r_result := VoiceSession.UNKNOWN_TOOL |};
     {| VoiceSession.r_id := "call-1"; VoiceSession.r_name := "messageClaudeCode";
        VoiceSession.r_result := "sent" |}] =
  map VoiceSession.call_key
    (filter (λ c, VoiceSession.dispatchable c = true)
       [Examples.call_permission; Examples.call_without_id; Examples.call_unknown;
        Examples.call_message]).
Proof.
  apply (tool_responses_keep_call_order Examples.tools_ok
           [Examples.call_permission; Examples.call_without_id; Examples.call_unknown;
            Examples.call_message] Examples.connected).
  reflexivity.
Defined.

(** C7: when [startSession] is called with no configured API key it fails
    fast: the published status becomes [error], the function raises the
    configuration error, and neither the microphone is acquired nor any
    audio pipeline is started (no capture and no player is created or
    started, no connection is opened, nothing is sent). *)
Theorem startSession_without_api_key
    (config : VoiceSession.VoiceSessionConfig) (env : VoiceSession.StartEnv)
    (w : VoiceSession.World) :
  truthy (VoiceSession.geminiApiKey (VoiceSession.settings (VoiceSession.storage w))) = false →
  let '(r, w') := VoiceSession.startSession config env w in
  r = Throw "Gemini API key not configured" ∧
  VoiceSession.realtimeStatus (VoiceSession.storage w') = VoiceSession.StatusError ∧
  VoiceSession.published w' =
    VoiceSession.published w ++
    [VoiceSession.SetStatus VoiceSession.Connecting;
     VoiceSession.SetStatus VoiceSession.StatusError] ∧
  VoiceSession.audioCapture w' = VoiceSession.audioCapture w ∧
  VoiceSession.audioPlayer w' = VoiceSession.audioPlayer w ∧
  VoiceSession.session w' = VoiceSession.session w ∧
  VoiceSession.sent w' = VoiceSession.sent w.
Proof.
  intros Hkey. unfold VoiceSession.startSession.
  unfold bind at 1. unfold modify at 1.
  unfold bind at 1. unfold get at 1.
  unfold bind at 1. cbn [VoiceSession.setRealtimeStatus VoiceSession.set_storage
    VoiceSession.storage VoiceSession.settings].
  rewrite Hkey. simpl. by rewrite <- app_assoc.
Qed.

Lemma startSession_without_api_key_witness :
  let '(r, w') := VoiceSession.startSession
                    {| VoiceSession.sessionId := "s1"; VoiceSession.initialContext := None |}
                    {| VoiceSession.playerAudioMode := Ok tt;
                       VoiceSession.captureEnv :=
                         {| NativeCapture.setAudioMode := Ok tt;
                            NativeCapture.prepareFirst := Ok tt |};
                       VoiceSession.connect := Ok tt |}
                    (VoiceSession.fresh (Examples.store None)) in
  r = Throw "Gemini API key not configured" ∧
  VoiceSession.realtimeStatus (VoiceSession.storage w') = VoiceSession.StatusError ∧
  VoiceSession.published w' =
    [VoiceSession.SetStatus VoiceSession.Connecting;
     VoiceSession.SetStatus VoiceSession.StatusError] ∧
  VoiceSession.audioCapture w' = None ∧
  VoiceSession.audioPlayer w' = None ∧
  VoiceSession.session w' = None ∧
  VoiceSession.sent w' = [].
Proof.
  apply (startSession_without_api_key
           {| VoiceSession.sessionId := "s1"; VoiceSession.initialContext := None |}
           {| VoiceSession.playerAudioMode := Ok tt;
              VoiceSession.captureEnv :=
                {| NativeCapture.setAudioMode := Ok tt;
                   NativeCapture.prepareFirst := Ok tt |};
              VoiceSession.connect := Ok tt |}
           (VoiceSession.fresh (Examples.store None))).
  reflexivity.
Defined.

(** ** Native capture *)

(** A cycle run from a running pipeline: the data callback gets the
    segment of the cycle, the error callback gets its failure, and the
    pipeline keeps running. *)
Lemma capture_tick_running env s :
  NativeCapture.running s = true →
  let s' := NativeCapture.tick env s in
  NativeCapture.callbacks s' =
    NativeCapture.callbacks s ++
    option_list (NativeCapture.OnData <$> NativeCapture.segment env) ++
    option_list (NativeCapture.OnError <$> NativeCapture.failure env) ∧
  NativeCapture.running s' = true.
Proof.
  destruct s as [[k|] [] [] n cbs]; try discriminate. intros _.
  unfold NativeCapture.tick, NativeCapture.poll, NativeCapture.failure,
    NativeCapture.segment, NativeCapture.running.
  unfold try_catch, bind, await, when, modify, get, ret.
  destruct env as [[[]|e1] u [d|e2] [[]|e3]]; simpl;
    destruct (truthy u); simpl;
    try destruct (String.eqb d ""); simpl;
    rewrite ?app_nil_r, <- ?app_assoc; done.
Qed.

Lemma capture_tick_errors env s :
  NativeCapture.running s = true →
  NativeCapture.errors (NativeCapture.tick env s) =
    NativeCapture.errors s ++ option_list (NativeCapture.failure env).
Proof.
  intros H. unfold NativeCapture.errors.
  destruct (capture_tick_running env s H) as [-> _].
  rewrite !omap_app. f_equal.
  by destruct (NativeCapture.segment env), (NativeCapture.failure env).
Qed.

Lemma capture_tick_data env s :
  NativeCapture.running s = true →
  NativeCapture.data (NativeCapture.tick env s) =
    NativeCapture.data s ++ option_list (NativeCapture.segment env).
Proof.
  intros H. unfold NativeCapture.data.
  destruct (capture_tick_running env s H) as [-> _].
  rewrite !omap_app. f_equal.
  by destruct (NativeCapture.segment env), (NativeCapture.failure env).
Qed.

(** C3, as stated, fails: from a running capture session, two failing poll
    cycles followed by a good one invoke the error callback twice and then
    the data callback, and the pipeline is still running, not stopped. *)
Lemma capture_error_does_not_stop_the_pipeline :
  NativeCapture.running Examples.capturing = true ∧
  let s := NativeCapture.ticks
             [Examples.failing_cycle; Examples.failing_cycle; Examples.good_cycle]
             Examples.capturing in
  NativeCapture.callbacks s =
    [NativeCapture.OnError "device disconnected";
     NativeCapture.OnError "device disconnected";
     NativeCapture.OnData "UklGRiQAAABXQVZF"] ∧
  NativeCapture.stopped s = false ∧
  NativeCapture.running s = true.
Proof. vm_compute. done. Qed.

(** C3, amended: for every capture session in the running state, a
    capture error invokes the registered error callback once for the
    failing poll cycle and leaves the pipeline running: it does not
    transition to [stopped], a later poll cycle that yields a segment
    invokes the data callback again, and a later failing cycle invokes the
    error callback again. *)
Theorem capture_error_is_reported_and_capture_continues
    (env : NativeCapture.Cycle) (e : Exn) (s : NativeCapture.State) :
  NativeCapture.running s = true →
  NativeCapture.failure env = Some e →
  let s1 := NativeCapture.tick env s in
  NativeCapture.errors s1 = NativeCapture.errors s ++ [e] ∧
  NativeCapture.running s1 = true ∧
  NativeCapture.stopped s1 = false ∧
  (∀ next d, NativeCapture.segment next = Some d →
     NativeCapture.data (NativeCapture.tick next s1) = NativeCapture.data s1 ++ [d]) ∧
  (∀ next e', NativeCapture.failure next = Some e' →
     NativeCapture.errors (NativeCapture.tick next s1) = NativeCapture.errors s1 ++ [e']).
Proof.
  intros Hrun Hfail s1.
  destruct (capture_tick_running env s Hrun) as [_ Hrun1]. fold s1 in Hrun1.
  split; [|split; [|split; [|split]]].
  - subst s1. by rewrite capture_tick_errors, Hfail.
  - done.
  - unfold NativeCapture.running in Hrun1.
    apply andb_true_iff in Hrun1 as [H _]. apply andb_true_iff in H as [_ H].
    by apply negb_true_iff in H.
  - intros next d Hd. by rewrite capture_tick_data, Hd.
  - intros next e' He'. by rewrite capture_tick_errors, He'.
Qed.

Lemma capture_error_is_reported_and_capture_continues_witness :
  let s1 := NativeCapture.tick Examples.failing_cycle Examples.capturing in
  NativeCapture.errors s1 =
    NativeCapture.errors Examples.capturing ++ ["device disconnected"] ∧
  NativeCapture.running s1 = true ∧
  NativeCapture.stopped s1 = false ∧
  (∀ next d, NativeCapture.segment next = Some d →
     NativeCapture.data (NativeCapture.tick next s1) = NativeCapture.data s1 ++ [d]) ∧
  (∀ next e', NativeCapture.failure next = Some e' →
     NativeCapture.errors (NativeCapture.tick next s1) = NativeCapture.errors s1 ++ [e']).
Proof.
  apply (capture_error_is_reported_and_capture_continues
           Examples.failing_cycle "device disconnected" Examples.capturing).
  - reflexivity.
  - reflexivity.
Defined.

(** ** WAV framing *)

Lemma le_bytes_4 v :
  Wav.le_bytes 4 v =
    [v mod 256; v / 256 mod 256; v / 256 / 256 mod 256; v / 256 / 256 / 256 mod 256].
Proof. reflexivity. Qed.

Lemma le_value_le_bytes_4 v :
  0 <= v < 2 ^ 32 → Wav.le_value (Wav.le_bytes 4 v) = v.
Proof.
  intros Hv. rewrite le_bytes_4. simpl Wav.le_value.
  change (2 ^ 32) with 4294967296 in Hv.
  Z.div_mod_to_equations. lia.
Qed.

(** The header as a whole: the fixed fields around the two size fields. *)
Lemma createWavHeader_bytes dataLength :
  Wav.createWavHeader dataLength =
    Some ([82; 73; 70; 70] ++ Wav.le_bytes 4 ((36 + dataLength) mod 2 ^ 32) ++
          [87; 65; 86; 69; 102; 109; 116; 32; 16; 0; 0; 0; 1; 0; 1; 0;
           192; 93; 0; 0; 128; 187; 0; 0; 2; 0; 16; 0; 100; 97; 116; 97] ++
          Wav.le_bytes 4 (dataLength mod 2 ^ 32)).
Proof.
  unfold Wav.createWavHeader, Wav.setUint32, Wav.setUint16, Wav.setUint.
  change (2 ^ (8 * Z.of_nat 4)) with (2 ^ 32).
  rewrite !le_bytes_4.
  generalize ((36 + dataLength) mod 2 ^ 32). generalize (dataLength mod 2 ^ 32).
  intros d t.
  generalize (t mod 256), (t / 256 mod 256), (t / 256 / 256 mod 256),
    (t / 256 / 256 / 256 mod 256).
  generalize (d mod 256), (d / 256 mod 256), (d / 256 / 256 mod 256),
    (d / 256 / 256 / 256 mod 256).
  intros. vm_compute. reflexivity.
Qed.

(** C6, as stated, fails: for the empty payload the declared total size is
    36, while header length plus payload length is 44. *)
Lemma wav_total_size_is_not_header_plus_payload :
  (length <$> Wav.createWavHeader 0) = Some 44%nat ∧
  (Wav.createWavHeader 0 ≫= Wav.totalSizeField) = Some 36 ∧
  36 ≠ 44 + 0.
Proof. vm_compute. split; [done|]. split; [done|]. discriminate. Qed.

(** C6, amended: for every payload length n ≥ 0 the container-wrapping
    function produces a 44-byte header whose declared total-size field
    equals the header length plus the payload length minus 8, taken
    modulo 2^32 (the RIFF chunk size 36 + n, which leaves out the 8 bytes
    of the chunk id and of the size field itself; exactly 36 + n whenever
    n < 2^32 - 36), and whose declared payload-size field equals n modulo
    2^32. *)
Theorem wav_header_size_fields (dataLength : Z) :
  0 <= dataLength →
  ∃ header,
    Wav.createWavHeader dataLength = Some header ∧
    length header = Wav.HEADER_LENGTH ∧
    Wav.totalSizeField header =
      Some ((Z.of_nat (length header) + dataLength - 8) mod 2 ^ 32) ∧
    Wav.dataSizeField header = Some (dataLength mod 2 ^ 32) ∧
    (dataLength < 2 ^ 32 - 36 →
       Wav.totalSizeField header = Some (Z.of_nat (length header) + dataLength - 8) ∧
       Wav.dataSizeField header = Some dataLength).
Proof.
  intros Hn. eexists. split; [apply createWavHeader_bytes|].
  assert (Ht : Wav.le_value (Wav.le_bytes 4 ((36 + dataLength) mod 2 ^ 32)) =
               (36 + dataLength) mod 2 ^ 32)
    by (apply le_value_le_bytes_4, Z.mod_pos_bound; lia).
  assert (Hd : Wav.le_value (Wav.le_bytes 4 (dataLength mod 2 ^ 32)) =
               dataLength mod 2 ^ 32)
    by (apply le_value_le_bytes_4, Z.mod_pos_bound; lia).
  rewrite !le_bytes_4 in *.
  split; [reflexivity|].
  assert (H1 : ∀ a b c d e f g h,
    Wav.totalSizeField
      ([82; 73; 70; 70] ++ [a; b; c; d] ++
       [87; 65; 86; 69; 102; 109; 116; 32; 16; 0; 0; 0; 1; 0; 1; 0;
        192; 93; 0; 0; 128; 187; 0; 0; 2; 0; 16; 0; 100; 97; 116; 97] ++
       [e; f; g; h]) = Some (Wav.le_value [a; b; c; d])) by reflexivity.
  assert (H2 : ∀ a b c d e f g h,
    Wav.dataSizeField
      ([82; 73; 70; 70] ++ [a; b; c; d] ++
       [87; 65; 86; 69; 102; 109; 116; 32; 16; 0; 0; 0; 1; 0; 1; 0;
        192; 93; 0; 0; 128; 187; 0; 0; 2; 0; 16; 0; 100; 97; 116; 97] ++
       [e; f; g; h]) = Some (Wav.le_value [e; f; g; h])) by reflexivity.
  rewrite H1, H2, Ht, Hd.
  change (Z.of_nat (length _)) with 44.
  replace (44 + dataLength - 8) with (36 + dataLength) by lia.
  split; [done|]. split; [done|].
  intros Hlt. rewrite !Z.mod_small by lia. done.
Qed.

Lemma wav_header_size_fields_witness :
  ∃ header,
    Wav.createWavHeader 9600 = Some header ∧
    length header = Wav.HEADER_LENGTH ∧
    Wav.totalSizeField header =
      Some ((Z.of_nat (length header) + 9600 - 8) mod 2 ^ 32) ∧
    Wav.dataSizeField header = Some (9600 mod 2 ^ 32) ∧
    (9600 < 2 ^ 32 - 36 →
       Wav.totalSizeField header = Some (Z.of_nat (length header) + 9600 - 8) ∧
       Wav.dataSizeField header = Some 9600).
Proof. apply (wav_header_size_fields 9600). lia. Defined.

(** ** The resampler *)

Lemma to_index_outputLength_empty a b :
  Num.to_index (Resampler.outputLength 0 a b) = Some 0%nat.
Proof.
  unfold Resampler.outputLength.
  change (Num.of_nat 0) with (S754_zero false).
  destruct (Num.div a b) as [s| s| |s m e]; reflexivity.
Qed.

(** Agreement with the exact quotient on the rates of the capture path,
    and the rounded length on the playback path. *)
Example outputLength_capture_44100 :
  Num.to_index (Resampler.outputLength 4410 (Num.of_Z 44100) (Num.of_Z 16000))
  = Some 1600%nat.
Proof. vm_compute. reflexivity. Qed.

Example outputLength_playback_48000 :
  Num.to_index (Resampler.outputLength 2400 (Num.of_Z 24000) (Num.of_Z 48000))
  = Some 4800%nat.
Proof. vm_compute. reflexivity. Qed.

(** C8, as stated, fails: resampling 240 samples from 24000 Hz to 44100 Hz
    yields 440 samples, while floor(240 * 44100 / 24000) is 441 (the
    quotient 24000/44100 is rounded up to the nearest double, and 240
    divided by it falls just below 441). *)
Lemma resampled_length_is_computed_in_doubles :
  (length <$> Resampler.resample (replicate 240 (Num.of_Z 0))
                (Num.of_Z 24000) (Num.of_Z 44100)) = Some 440%nat ∧
  240 * 44100 / 24000 = 441.
Proof. vm_compute. done. Qed.

(** C8, amended: for every input sequence x and rates a and b with a ≠ b,
    the resampler's output length equals floor(len(x)/ratio) with
    ratio = a/b, both quotients being evaluated in double precision (the
    result can be one less than floor(len(x) * b / a)); when a == b the
    output is x unchanged; an empty input yields an empty output. *)
Theorem resample_length (input : Float32Array) (a b : Num.number) :
  (Num.strict_eq a b = false →
     (length <$> Resampler.resample input a b) =
     Num.to_index (Num.floor (Num.div (Num.of_nat (length input)) (Num.div a b)))) ∧
  (Num.strict_eq a b = true → Resampler.resample input a b = Some input) ∧
  (input = [] → Resampler.resample input a b = Some []).
Proof.
  unfold Resampler.resample. split; [|split].
  - intros ->. fold (Resampler.outputLength (length input) a b).
    destruct (Num.to_index _) as [n|]; simpl; [|done].
    by rewrite length_map, length_seq.
  - by intros ->.
  - intros ->. destruct (Num.strict_eq a b); [done|].
    simpl length. by rewrite to_index_outputLength_empty.
Qed.

Lemma resample_length_witness :
  ((length <$> Resampler.resample (replicate 240 (Num.of_Z 0))
                 (Num.of_Z 24000) (Num.of_Z 44100)) =
   Num.to_index (Num.floor (Num.div (Num.of_nat 240)
                              (Num.div (Num.of_Z 24000) (Num.of_Z 44100))))) ∧
  Resampler.resample [Num.of_Z 1; Num.of_Z 0] (Num.of_Z 16000) (Num.of_Z 16000) =
    Some [Num.of_Z 1; Num.of_Z 0] ∧
  Resampler.resample [] (Num.of_Z 24000) (Num.of_Z 44100) = Some [].
Proof.
  split; [|split].
  - apply (resample_length (replicate 240 (Num.of_Z 0)) (Num.of_Z 24000) (Num.of_Z 44100)).
    reflexivity.
  - apply (resample_length [Num.of_Z 1; Num.of_Z 0] (Num.of_Z 16000) (Num.of_Z 16000)).
    reflexivity.
  - apply (resample_length [] (Num.of_Z 24000) (Num.of_Z 44100)).
    reflexivity.
Defined.

(** ** The PCM codec: the encoder *)

Lemma of_Z_1 : Num.of_Z 1 = S754_finite false 4503599627370496 (-52).
Proof. reflexivity. Qed.

Lemma of_Z_m1 : Num.of_Z (-1) = S754_finite true 4503599627370496 (-52).
Proof. reflexivity. Qed.

Lemma to_int16_range x : -32768 <= Num.to_int16 x <= 32767.
Proof.
  unfold Num.to_int16. destruct x; try lia.
  pose proof (Z.mod_pos_bound (Num.truncZ s m e + 32768) 65536). lia.
Qed.

Lemma min_1_cases x :
  Num.min (Num.of_Z 1) x = x ∨ Num.min (Num.of_Z 1) x = Num.of_Z 1 ∨
  Num.min (Num.of_Z 1) x = Num.NaN.
Proof.
  unfold Num.min. rewrite of_Z_1.
  destruct (SFcompare _ x) as [[]|]; auto.
Qed.

Lemma max_m1_cases y :
  Num.max (Num.of_Z (-1)) y = y ∨ Num.max (Num.of_Z (-1)) y = Num.of_Z (-1) ∨
  Num.max (Num.of_Z (-1)) y = Num.NaN.
Proof.
  unfold Num.max. rewrite of_Z_m1.
  destruct (SFcompare _ y) as [[]|]; auto.
Qed.

(** Clamping returns the sample itself, one of the two bounds, or NaN. *)
Lemma clamp_cases x :
  Codec.clamp x = x ∨ Codec.clamp x = Num.of_Z 1 ∨
  Codec.clamp x = Num.of_Z (-1) ∨ Codec.clamp x = Num.NaN.
Proof.
  unfold Codec.clamp.
  destruct (min_1_cases x) as [-> | [-> | ->]].
  - destruct (max_m1_cases x) as [-> | [-> | ->]]; auto.
  - right; left. reflexivity.
  - right; right; right. reflexivity.
Qed.

Lemma clamp_idempotent x : Codec.clamp (Codec.clamp x) = Codec.clamp x.
Proof.
  destruct (clamp_cases x) as [H|[H|[H|H]]]; rewrite H; try reflexivity.
  exact H.
Qed.

(** A sample above 1 is clamped to 1 and a sample below -1 to -1. *)
Lemma clamp_above x : Num.lt (Num.of_Z 1) x = true → Codec.clamp x = Num.of_Z 1.
Proof.
  unfold Num.lt, SFltb, Codec.clamp, Num.min.
  destruct (SFcompare (Num.of_Z 1) x) as [[]|]; try discriminate.
  intros _. reflexivity.
Qed.

Lemma max_min_below p q x :
  SFltb x (S754_finite true p q) = true →
  Num.max (S754_finite true p q) (Num.min (S754_finite false p q) x) =
  S754_finite true p q.
Proof.
  unfold SFltb, Num.min, Num.max.
  destruct x as [ [] | [] | | [] m e ]; simpl; try discriminate; try reflexivity.
  destruct (e ?= q) eqn:He.
  - apply Z.compare_eq in He. subst e. rewrite Z.compare_refl.
    rewrite (Pos.compare_cont_antisym m p Eq). simpl.
    destruct (Pos.compare_cont Eq p m); simpl; try discriminate.
    reflexivity.
  - discriminate.
  - rewrite (Z.compare_antisym e q), He. simpl. reflexivity.
Qed.

Lemma clamp_below x : Num.lt x (Num.of_Z (-1)) = true → Codec.clamp x = Num.of_Z (-1).
Proof.
  unfold Num.lt, Codec.clamp. rewrite of_Z_1, of_Z_m1. apply max_min_below.
Qed.

(** C9: the transport encoder is total over arbitrary float input
    samples, not only samples in [-1, 1].  Every sample is clamped to
    [-1, 1] before scaling, so every emitted 16-bit value lies in
    [-32768, 32767] and an out-of-range sample encodes identically to its
    clamped value (a sample above 1 as 1, that is 32767, and a sample below
    -1 as -1, that is -32768); the encoder has no error path. *)
Theorem encoder_is_total_and_clamps (x : Num.number) (samples : Float32Array) :
  -32768 <= Codec.encodeSample x <= 32767 ∧
  Codec.encodeSample x = Codec.encodeSample (Codec.clamp x) ∧
  (if Num.lt (Num.of_Z 1) x then
     Codec.encodeSample x = Codec.encodeSample (Num.of_Z 1) ∧
     Codec.encodeSample x = 32767
   else True) ∧
  (if Num.lt x (Num.of_Z (-1)) then
     Codec.encodeSample x = Codec.encodeSample (Num.of_Z (-1)) ∧
     Codec.encodeSample x = -32768
   else True) ∧
  Forall (λ v, -32768 <= v <= 32767) (map Codec.encodeSample samples).
Proof.
  split; [apply to_int16_range|]. split; [|split; [|split]].
  - unfold Codec.encodeSample. by rewrite clamp_idempotent.
  - destruct (Num.lt (Num.of_Z 1) x) eqn:H; [|done].
    unfold Codec.encodeSample. rewrite (clamp_above x H). vm_compute. done.
  - destruct (Num.lt x (Num.of_Z (-1))) eqn:H; [|done].
    unfold Codec.encodeSample. rewrite (clamp_below x H). vm_compute. done.
  - apply Forall_forall. intros v Hv. apply list_elem_of_fmap in Hv as (y & -> & _).
    apply to_int16_range.
Qed.

(** C9 at the samples 5, -5 and a NaN: they encode as 1, -1 and 0 do. *)
Lemma encoder_is_total_and_clamps_witness :
  Codec.encodeSample (Num.of_Z 5) = 32767 ∧
  Codec.encodeSample (Num.of_Z (-5)) = -32768 ∧
  -32768 <= Codec.encodeSample Num.NaN <= 32767.
Proof.
  split; [|split].
  - apply (encoder_is_total_and_clamps (Num.of_Z 5) []).
  - apply (encoder_is_total_and_clamps (Num.of_Z (-5)) []).
  - apply (encoder_is_total_and_clamps Num.NaN []).
Defined.

(** ** [btoa] and [atob] *)

Lemma list_ind3 {A} (P : list A → Prop) :
  P [] → (∀ a, P [a]) → (∀ a b, P [a; b]) →
  (∀ a b c l, P l → P (a :: b :: c :: l)) →
  ∀ l, P l.
Proof.
  intros H0 H1 H2 H3.
  assert (H : ∀ l, P l ∧ (∀ a, P (a :: l)) ∧ (∀ a b, P (a :: b :: l))).
  { induction l as [|c l (IH0 & IH1 & IH2)]; [by auto|].
    split; [apply IH1|]. split; [intros; apply IH2|]. intros a b. by apply H3. }
  intros l. apply H.
Qed.

Lemma filter_all {A} (P : A → Prop) `{∀ x, Decision (P x)} (l : list A) :
  Forall P l → filter P l = l.
Proof.
  induction 1 as [|x l Hx _ IH]; [done|].
  by rewrite filter_cons, decide_True, IH.
Qed.

Lemma encode_sextet_char n :
  Base64.is_ascii_whitespace (Base64.encode_sextet n) = false ∧
  Ascii.eqb (Base64.encode_sextet n) "=" = false.
Proof.
  assert (Hall : Forall (λ c, Base64.is_ascii_whitespace c = false ∧
                              Ascii.eqb c "=" = false)
                        ("A"%char :: Base64.alphabet)).
  { apply (bool_decide_unpack _). vm_compute. exact I. }
  rewrite Forall_forall in Hall. apply Hall.
  unfold Base64.encode_sextet.
  destruct (Base64.alphabet !! Z.to_nat n) as [c|] eqn:E; simpl.
  - right. by eapply list_elem_of_lookup_2.
  - left.
Qed.

Lemma decode_encode_sextet n :
  0 <= n < 64 → Base64.decode_sextet (Base64.encode_sextet n) = Some n.
Proof.
  intros Hn.
  assert (Hall : Forall (λ k, Base64.decode_sextet (Base64.encode_sextet (Z.of_nat k))
                              = Some (Z.of_nat k)) (seq 0 64)).
  { apply (bool_decide_unpack _). vm_compute. exact I. }
  rewrite Forall_forall in Hall.
  specialize (Hall (Z.to_nat n)). rewrite Z2Nat.id in Hall by lia.
  apply Hall, elem_of_seq. lia.
Qed.

Lemma padding_plus_3 n : Base64.padding (S (S (S n))) = Base64.padding n.
Proof.
  unfold Base64.padding.
  replace (S (S (S n)) mod 3)%nat with (n mod 3)%nat; [done|].
  change (S (S (S n))) with (3 + n)%nat.
  rewrite <- (Nat.Div0.add_mod_idemp_l 3 n 3). reflexivity.
Qed.

Lemma btoa_length bs :
  ((length (Base64.sextets bs) + length (Base64.padding (length bs))) mod 4 = 0)%nat.
Proof.
  induction bs as [| a | a b | a b c l IH] using list_ind3; try reflexivity.
  cbn [Base64.sextets length]. rewrite padding_plus_3.
  replace (S (S (S (S (length (Base64.sextets l)))))
           + length (Base64.padding (length l)))%nat
    with (4 + (length (Base64.sextets l) + length (Base64.padding (length l))))%nat
    by lia.
  rewrite <- Nat.Div0.add_mod_idemp_r, IH. reflexivity.
Qed.

Lemma padding_cases n :
  Base64.padding n = [] ∨ Base64.padding n = ["="%char] ∨
  Base64.padding n = ["="%char; "="%char].
Proof.
  unfold Base64.padding. destruct (n mod 3)%nat as [|[|[|k]]]; auto.
Qed.

Lemma strip_padding_app cs pad :
  Forall (λ c, Ascii.eqb c "=" = false) cs →
  (pad = [] ∨ pad = ["="%char] ∨ pad = ["="%char; "="%char]) →
  (length (cs ++ pad) mod 4 = 0)%nat →
  Base64.strip_padding (cs ++ pad) = cs.
Proof.
  intros Hcs Hpad Hlen. unfold Base64.strip_padding.
  rewrite Hlen, rev_app_distr. simpl.
  assert (Hhd : ∀ c r, rev cs = c :: r → Ascii.eqb c "=" = false).
  { intros c r Hr. rewrite Forall_forall in Hcs. apply Hcs.
    apply list_elem_of_In, in_rev. rewrite <- list_elem_of_In, Hr. left. }
  destruct Hpad as [-> | [-> | ->]]; simpl.
  - rewrite app_nil_r. destruct (rev cs) as [|c r] eqn:Hr; [done|].
    by rewrite (Hhd c r eq_refl).
  - destruct (rev cs) as [|c r] eqn:Hr.
    + simpl. by rewrite <- (rev_involutive cs), Hr.
    + rewrite (Hhd c r eq_refl). by rewrite <- Hr, rev_involutive.
  - by rewrite rev_involutive.
Qed.

Lemma sextets_range bs :
  Forall is_byte bs → Forall (λ s, 0 <= s < 64) (Base64.sextets bs).
Proof.
  unfold is_byte.
  induction bs as [| a | a b | a b c l IH] using list_ind3; intros H.
  - constructor.
  - apply Forall_cons in H as [Ha _]. cbn [Base64.sextets].
    repeat constructor; Z.div_mod_to_equations; lia.
  - apply Forall_cons in H as [Ha H]. apply Forall_cons in H as [Hb _].
    cbn [Base64.sextets]. repeat constructor; Z.div_mod_to_equations; lia.
  - apply Forall_cons in H as [Ha H]. apply Forall_cons in H as [Hb H].
    apply Forall_cons in H as [Hc H]. cbn [Base64.sextets].
    repeat (constructor; [Z.div_mod_to_equations; lia|]). by apply IH.
Qed.

Lemma bytes_of_sextets_sextets bs :
  Forall is_byte bs → Base64.bytes_of_sextets (Base64.sextets bs) = Some bs.
Proof.
  unfold is_byte.
  induction bs as [| a | a b | a b c l IH] using list_ind3; intros H.
  - reflexivity.
  - apply Forall_cons in H as [Ha _]. cbn [Base64.sextets Base64.bytes_of_sextets].
    do 2 f_equal. Z.div_mod_to_equations; lia.
  - apply Forall_cons in H as [Ha H]. apply Forall_cons in H as [Hb _].
    cbn [Base64.sextets Base64.bytes_of_sextets].
    do 2 f_equal; [|f_equal]; Z.div_mod_to_equations; lia.
  - apply Forall_cons in H as [Ha H]. apply Forall_cons in H as [Hb H].
    apply Forall_cons in H as [Hc H].
    cbn [Base64.sextets Base64.bytes_of_sextets]. rewrite (IH H). simpl.
    do 2 f_equal; [|f_equal; [|f_equal]]; Z.div_mod_to_equations; lia.
Qed.

(** Decoding what [btoa] produced gives back the bytes. *)
Lemma atob_btoa bs : Forall is_byte bs → Base64.atob (Base64.btoa bs) = Some bs.
Proof.
  intros Hbs. unfold Base64.atob, Base64.btoa.
  rewrite String.list_ascii_of_string_of_list_ascii.
  rewrite filter_all.
  2:{ apply Forall_app. split.
      - apply Forall_forall. intros c Hc.
        apply list_elem_of_fmap in Hc as (n & -> & _). apply encode_sextet_char.
      - destruct (padding_cases (length bs)) as [-> | [-> | ->]];
          repeat constructor. }
  rewrite strip_padding_app.
  - rewrite (mapM_fmap_Forall_Some _ _ (Base64.sextets bs)); simpl.
    + by apply bytes_of_sextets_sextets.
    + eapply Forall_impl; [by apply sextets_range|].
      intros n Hn. by apply decode_encode_sextet.
  - apply Forall_forall. intros c Hc.
    apply list_elem_of_fmap in Hc as (n & -> & _). apply encode_sextet_char.
  - apply padding_cases.
  - rewrite length_app, length_map. apply btoa_length.
Qed.

(** ** The PCM codec: bytes *)

Lemma int16_bytes_are_bytes vs : Forall is_byte (mbind Codec.int16_bytes vs).
Proof.
  unfold is_byte. induction vs as [|v vs IH]; [constructor|].
  cbn [mbind list_bind Codec.int16_bytes app].
  pose proof (Z.mod_pos_bound v 65536).
  repeat (constructor; [Z.div_mod_to_equations; lia|]). exact IH.
Qed.

Lemma int16_of_bytes_int16_bytes vs :
  Forall (λ v, -32768 <= v <= 32767) vs →
  Codec.int16_of_bytes (mbind Codec.int16_bytes vs) = Some vs.
Proof.
  induction 1 as [|v vs Hv _ IH]; [done|].
  cbn [mbind list_bind Codec.int16_bytes app Codec.int16_of_bytes].
  fold (mbind (M := list) Codec.int16_bytes vs). rewrite IH. simpl. do 2 f_equal.
  assert (Hu : v mod 65536 mod 256 + 256 * (v mod 65536 / 256) = v mod 65536)
    by (Z.div_mod_to_equations; lia).
  rewrite Hu.
  destruct (v mod 65536 <? 32768) eqn:E.
  - apply Z.ltb_lt in E. Z.div_mod_to_equations. lia.
  - apply Z.ltb_ge in E. Z.div_mod_to_equations. lia.
Qed.

(** The transport encoding followed by the transport decoding acts on each
    sample separately, as encoding followed by decoding of that sample. *)
Lemma codec_round_trip_per_sample float32 :
  Codec.base64PCM16ToFloat32 (Codec.float32ToBase64PCM16 float32) =
    Some (map (λ x, Codec.decodeSample (Codec.encodeSample x)) float32).
Proof.
  unfold Codec.base64PCM16ToFloat32, Codec.float32ToBase64PCM16.
  rewrite atob_btoa by apply int16_bytes_are_bytes. simpl.
  rewrite int16_of_bytes_int16_bytes.
  - simpl. by rewrite <- list_fmap_compose.
  - apply Forall_forall. intros v Hv. apply list_elem_of_fmap in Hv as (y & -> & _).
    apply to_int16_range.
Qed.

(** ** Binary64 arithmetic: exact cases of rounding *)

Lemma digits2_pos_spec p :
  2 ^ (Z.pos (digits2_pos p) - 1) <= Z.pos p < 2 ^ Z.pos (digits2_pos p).
Proof.
  induction p as [p IH|p IH|]; simpl digits2_pos.
  - rewrite Pos2Z.inj_succ. change (Z.pos p~1) with (2 * Z.pos p + 1).
    replace (Z.succ (Z.pos (digits2_pos p)) - 1)
      with (Z.succ (Z.pos (digits2_pos p) - 1)) by lia.
    rewrite !Z.pow_succ_r by lia.
    revert IH. generalize (2 ^ (Z.pos (digits2_pos p) - 1)), (2 ^ Z.pos (digits2_pos p)).
    intros. lia.
  - rewrite Pos2Z.inj_succ. change (Z.pos p~0) with (2 * Z.pos p).
    replace (Z.succ (Z.pos (digits2_pos p)) - 1)
      with (Z.succ (Z.pos (digits2_pos p) - 1)) by lia.
    rewrite !Z.pow_succ_r by lia.
    revert IH. generalize (2 ^ (Z.pos (digits2_pos p) - 1)), (2 ^ Z.pos (digits2_pos p)).
    intros. lia.
  - simpl. lia.
Qed.

Lemma digits2_pos_unique p k :
  2 ^ (k - 1) <= Z.pos p < 2 ^ k → Z.pos (digits2_pos p) = k.
Proof.
  intros [Hlo Hhi]. pose proof (digits2_pos_spec p) as [Dlo Dhi].
  assert (0 < k).
  { destruct (Z_lt_le_dec 0 k); [done|].
    destruct (Z.eq_dec k 0) as [->|]; [simpl in Hhi; lia|].
    rewrite Z.pow_neg_r in Hhi by lia. lia. }
  assert (Z.pos (digits2_pos p) - 1 < k).
  { apply (Z.pow_lt_mono_r_iff 2); lia. }
  assert (k - 1 < Z.pos (digits2_pos p)).
  { apply (Z.pow_lt_mono_r_iff 2); lia. }
  lia.
Qed.

Lemma iter_xO_Z a p : Z.pos (Pos.iter xO a p) = Z.pos a * 2 ^ Z.pos p.
Proof.
  induction p as [|p IH] using Pos.peano_ind.
  - simpl. lia.
  - rewrite Pos.iter_succ. change (Z.pos (Pos.iter xO a p)~0) with (2 * Z.pos (Pos.iter xO a p)).
    rewrite IH, Pos2Z.inj_succ, Z.pow_succ_r by lia. lia.
Qed.

Lemma digits_iter_xO a p :
  digits2_pos (Pos.iter xO a p) = (digits2_pos a + p)%positive.
Proof.
  induction p as [|p IH] using Pos.peano_ind.
  - simpl. lia.
  - rewrite Pos.iter_succ. simpl. rewrite IH. lia.
Qed.

Lemma iter_shr_1_exact p a :
  SpecFloat.iter_pos shr_1 p {| shr_m := Z.pos (Pos.iter xO a p); shr_r := false; shr_s := false |}
  = {| shr_m := Z.pos a; shr_r := false; shr_s := false |}.
Proof.
  revert a. induction p as [p IH|p IH|]; intros a; simpl.
  - rewrite IH, IH. reflexivity.
  - rewrite IH, IH. reflexivity.
  - reflexivity.
Qed.

Lemma binary_round_aux_exact prec emax s a p E :
  fexp prec emax (Z.pos (digits2_pos (Pos.iter xO a p)) + E) - E = Z.pos p →
  E + Z.pos p <= emax - prec →
  binary_round_aux prec emax s (Z.pos (Pos.iter xO a p)) E loc_Exact
  = S754_finite s a (E + Z.pos p).
Proof.
  intros Hn Hmax. unfold binary_round_aux, shr_fexp. simpl Zdigits2.
  rewrite Hn. simpl shr_record_of_loc. unfold shr at 1.
  rewrite iter_shr_1_exact. simpl.
  assert (H0 : fexp prec emax (Z.pos (digits2_pos a) + (E + Z.pos p)) - (E + Z.pos p) = 0).
  { rewrite digits_iter_xO, Pos2Z.inj_add in Hn.
    replace (Z.pos (digits2_pos a) + (E + Z.pos p)) with (Z.pos (digits2_pos a) + Z.pos p + E) by lia.
    lia. }
  rewrite H0. simpl.
  destruct (E + Z.pos p <=? emax - prec) eqn:Hle; [done|].
  apply Z.leb_gt in Hle. lia.
Qed.

Lemma binary_round_aux_canonical prec emax s m E :
  fexp prec emax (Z.pos (digits2_pos m) + E) - E = 0 →
  E <= emax - prec →
  binary_round_aux prec emax s (Z.pos m) E loc_Exact = S754_finite s m E.
Proof.
  intros Hn Hmax. unfold binary_round_aux, shr_fexp. simpl Zdigits2.
  rewrite Hn. simpl. rewrite Hn. simpl.
  destruct (E <=? emax - prec) eqn:Hle; [done|].
  apply Z.leb_gt in Hle. lia.
Qed.

(** Shape of a finite [Float32Array] element. *)
Lemma float32_sample_shape s m e :
  Num.is_float32_sample (S754_finite s m e) = true →
  Z.pos (digits2_pos m) = 53 ∧ -201 <= e <= 75 ∧
  ∃ a, m = Pos.iter xO a 29 ∧ Z.pos (digits2_pos a) = 24.
Proof.
  unfold Num.is_float32_sample, bounded, canonical_mantissa, fexp, emin, Num.prec, Num.emax.
  intros H. apply andb_true_iff in H as [H Hdiv]. apply andb_true_iff in H as [H He].
  apply andb_true_iff in H as [Hcan _].
  apply Z.eqb_eq in Hcan, Hdiv. apply Z.leb_le in He.
  pose proof (digits2_pos_spec m) as [Dlo Dhi].
  set (d := Z.pos (digits2_pos m)) in *.
  assert (Hd53 : d <= 53) by lia.
  set (t := Z.max 29 (-149 - e)) in *.
  assert (Ht : 29 <= t) by lia.
  apply Z.mod_divide in Hdiv; [|apply Z.pow_nonzero; lia].
  destruct Hdiv as [c Hc].
  assert (Hcpos : 0 < c).
  { assert (0 < 2 ^ t) by (apply Z.pow_pos_nonneg; lia). nia. }
  assert (Hm_lt : Z.pos m < 2 ^ 53).
  { eapply Z.lt_le_trans; [exact Dhi|]. apply Z.pow_le_mono_r; lia. }
  assert (Ht53 : t < 53).
  { destruct (Z_lt_le_dec t 53); [done|].
    assert (2 ^ 53 <= 2 ^ t) by (apply Z.pow_le_mono_r; lia). nia. }
  assert (He201 : -201 <= e) by lia.
  assert (Hd : d = 53) by lia.
  split; [done|]. split; [lia|].
  exists (Z.to_pos (c * 2 ^ (t - 29))).
  assert (Hpow : 2 ^ t = 2 ^ (t - 29) * 2 ^ 29).
  { rewrite <- Z.pow_add_r by lia. f_equal. lia. }
  assert (Hq : 0 < c * 2 ^ (t - 29)).
  { apply Z.mul_pos_pos; [done|]. apply Z.pow_pos_nonneg; lia. }
  assert (Hm : m = Pos.iter xO (Z.to_pos (c * 2 ^ (t - 29))) 29).
  { apply Pos2Z.inj. rewrite iter_xO_Z, Z2Pos.id by done. rewrite Hc, Hpow. ring. }
  split; [done|].
  assert (Hdm : Z.pos (digits2_pos m) = 53) by done.
  rewrite Hm, digits_iter_xO, Pos2Z.inj_add in Hdm. lia.
Qed.

Lemma of_Z_32768 : Num.of_Z 0x8000 = S754_finite false 4503599627370496 (-37).
Proof. reflexivity. Qed.
Lemma of_Z_32767 : Num.of_Z 0x7FFF = S754_finite false 9006924376834048 (-38).
Proof. reflexivity. Qed.
Lemma of_Z_0 : Num.of_Z 0 = S754_zero false.
Proof. reflexivity. Qed.

(** Scaling by 2^15 is a shift of the exponent. *)
Lemma mul_32768 s m e :
  Z.pos (digits2_pos m) = 53 → -201 <= e <= 75 →
  Num.mul (S754_finite s m e) (Num.of_Z 0x8000) = S754_finite s m (e + 15).
Proof.
  intros Hd He. rewrite of_Z_32768. unfold Num.mul, SFmul.
  rewrite xorb_false_r, Pos.mul_comm.
  change (4503599627370496 * m)%positive with (Pos.iter xO m 52).
  rewrite (binary_round_aux_exact Num.prec Num.emax s m 52 (e + -37)).
  - f_equal. lia.
  - rewrite digits_iter_xO, Pos2Z.inj_add, Hd.
    unfold fexp, emin, Num.prec, Num.emax. lia.
  - unfold Num.prec, Num.emax. lia.
Qed.

(** Scaling by 32767 is exact on [Float32Array] elements: the product has
    at most 39 significant bits. *)
Lemma mul_32767 s a e :
  Z.pos (digits2_pos a) = 24 → -201 <= e <= 75 →
  ∃ M' j, (j = 14 ∨ j = 15) ∧
    Num.mul (S754_finite s (Pos.iter xO a 29) e) (Num.of_Z 0x7FFF) =
      S754_finite s M' (e + j) ∧
    Z.pos M' * 2 ^ j = Z.pos a * 2 ^ 29 * 32767.
Proof.
  intros Hd He. rewrite of_Z_32767. unfold Num.mul, SFmul. rewrite xorb_false_r.
  pose proof (digits2_pos_spec a) as Ha. rewrite Hd in Ha.
  change (2 ^ (24 - 1)) with 8388608 in Ha. change (2 ^ 24) with 16777216 in Ha.
  set (b := (a * 32767)%positive).
  assert (Hb : Z.pos b = Z.pos a * 32767) by (subst b; lia).
  assert (HM : (Pos.iter xO a 29 * 9006924376834048)%positive = Pos.iter xO b 67).
  { apply Pos2Z.inj. rewrite Pos2Z.inj_mul, !iter_xO_Z, Hb.
    change (2 ^ Z.pos 29) with 536870912.
    change (2 ^ Z.pos 67) with 147573952589676412928. lia. }
  rewrite HM.
  destruct (Z_lt_le_dec (Z.pos b) (2 ^ 38)) as [Hlt|Hge].
  - assert (Hdb : Z.pos (digits2_pos b) = 38).
    { apply digits2_pos_unique. change (2 ^ (38 - 1)) with 137438953472.
      change (2 ^ 38) with 274877906944 in *. lia. }
    exists (Pos.iter xO b 15), 14. split; [by left|].
    change (Pos.iter xO b 67) with (Pos.iter xO (Pos.iter xO b 15) 52).
    rewrite (binary_round_aux_exact Num.prec Num.emax s (Pos.iter xO b 15) 52 (e + -38)).
    + split; [f_equal; lia|]. rewrite iter_xO_Z, Hb.
      change (2 ^ Z.pos 15) with 32768. change (2 ^ 14) with 16384.
      change (2 ^ 29) with 536870912. lia.
    + rewrite !digits_iter_xO, !Pos2Z.inj_add, Hdb.
      unfold fexp, emin, Num.prec, Num.emax. lia.
    + unfold Num.prec, Num.emax. lia.
  - assert (Hdb : Z.pos (digits2_pos b) = 39).
    { apply digits2_pos_unique. change (2 ^ (39 - 1)) with 274877906944.
      change (2 ^ 38) with 274877906944 in *. change (2 ^ 39) with 549755813888. lia. }
    exists (Pos.iter xO b 14), 15. split; [by right|].
    change (Pos.iter xO b 67) with (Pos.iter xO (Pos.iter xO b 14) 53).
    rewrite (binary_round_aux_exact Num.prec Num.emax s (Pos.iter xO b 14) 53 (e + -38)).
    + split; [f_equal; lia|]. rewrite iter_xO_Z, Hb.
      change (2 ^ Z.pos 14) with 16384. change (2 ^ 15) with 32768.
      change (2 ^ 29) with 536870912. lia.
    + rewrite !digits_iter_xO, !Pos2Z.inj_add, Hdb.
      unfold fexp, emin, Num.prec, Num.emax. lia.
    + unfold Num.prec, Num.emax. lia.
Qed.

(** Clamping leaves a sample of magnitude at most the bound unchanged. *)
Lemma max_min_within p q s m e :
  e < q ∨ (e = q ∧ m = p) →
  Num.max (S754_finite true p q) (Num.min (S754_finite false p q) (S754_finite s m e)) =
  S754_finite s m e.
Proof.
  intros H. unfold Num.max, Num.min.
  destruct H as [Hlt | [-> ->]].
  - assert (Hc : (q ?= e) = Gt) by (apply Z.compare_gt_iff; lia).
    destruct s; simpl; rewrite ?Hc; simpl; rewrite ?Hc; reflexivity.
  - destruct s; simpl; rewrite ?Z.compare_refl, ?Pos.compare_cont_refl; simpl;
      rewrite ?Z.compare_refl, ?Pos.compare_cont_refl; reflexivity.
Qed.

Lemma int16_wrap_id v : -32768 <= v <= 32767 → (v + 32768) mod 65536 - 32768 = v.
Proof. intros H. rewrite Z.mod_small by lia. lia. Qed.

(** A sample of magnitude at most 1 has a negative exponent of at least
    52 bits, and is left alone by [clamp]. *)
Lemma clamp_sample s m e :
  Z.pos (digits2_pos m) = 53 → e < 0 → Z.pos m <= 2 ^ (- e) →
  e <= -52 ∧ Codec.clamp (S754_finite s m e) = S754_finite s m e.
Proof.
  intros Hd He Hm.
  pose proof (digits2_pos_spec m) as [Dlo _]. rewrite Hd in Dlo.
  assert (He52 : e <= -52).
  { destruct (Z_lt_le_dec (- e) 52) as [Hlt|]; [|lia].
    assert (2 ^ (- e) < 2 ^ (53 - 1)) by (apply Z.pow_lt_mono_r; lia). lia. }
  split; [done|].
  unfold Codec.clamp. rewrite of_Z_1, of_Z_m1. apply max_min_within.
  destruct (Z.eq_dec e (-52)) as [->|]; [right|left; lia].
  split; [done|]. apply Pos2Z.inj. change (2 ^ (53 - 1)) with 4503599627370496 in Dlo.
  change (2 ^ (- -52)) with 4503599627370496 in Hm. lia.
Qed.

(** The 16-bit value of a non-negative sample: the scaled sample,
    truncated. *)
Lemma encodeSample_nonneg m e :
  Num.is_float32_sample (S754_finite false m e) = true →
  e < 0 → Z.pos m <= 2 ^ (- e) →
  Codec.encodeSample (S754_finite false m e) = Z.pos m * 32767 / 2 ^ (- e).
Proof.
  intros Hs He Hm.
  destruct (float32_sample_shape _ _ _ Hs) as (Hd & Hrange & a & -> & Ha).
  destruct (clamp_sample false _ e Hd He Hm) as [He52 Hclamp].
  unfold Codec.encodeSample. rewrite Hclamp. rewrite of_Z_0.
  change (Num.lt (S754_finite false (Pos.iter xO a 29) e) (S754_zero false)) with false.
  cbv iota.
  destruct (mul_32767 false a e Ha Hrange) as (M' & j & Hj & -> & HM).
  rewrite iter_xO_Z in *. change (2 ^ Z.pos 29) with (2 ^ 29) in *.
  assert (Hpow : 2 ^ (- e) = 2 ^ (- (e + j)) * 2 ^ j).
  { rewrite <- Z.pow_add_r by lia. f_equal. lia. }
  assert (Hpos : 0 < 2 ^ (- (e + j))) by (apply Z.pow_pos_nonneg; lia).
  assert (Hposj : 0 < 2 ^ j) by (apply Z.pow_pos_nonneg; lia).
  assert (Hv : Num.truncZ false M' (e + j) = Z.pos a * 2 ^ 29 * 32767 / 2 ^ (- e)).
  { unfold Num.truncZ. destruct (0 <=? e + j) eqn:E; [apply Z.leb_le in E; lia|].
    rewrite Z.quot_div_nonneg by lia.
    rewrite <- HM, Hpow. rewrite Z.div_mul_cancel_r by lia. reflexivity. }
  unfold Num.to_int16. rewrite Hv. apply int16_wrap_id.
  assert (0 < 2 ^ (- e)) by (apply Z.pow_pos_nonneg; lia).
  split.
  - assert (0 <= Z.pos a * 2 ^ 29 * 32767 / 2 ^ (- e)); [|lia].
    apply Z.div_pos; lia.
  - apply Z.div_le_upper_bound; [lia|]. nia.
Qed.

(** The 16-bit value of a negative sample. *)
Lemma encodeSample_neg m e :
  Num.is_float32_sample (S754_finite true m e) = true →
  e < 0 → Z.pos m <= 2 ^ (- e) →
  Codec.encodeSample (S754_finite true m e) = - (Z.pos m * 32768 / 2 ^ (- e)).
Proof.
  intros Hs He Hm.
  destruct (float32_sample_shape _ _ _ Hs) as (Hd & Hrange & _).
  destruct (clamp_sample true _ e Hd He Hm) as [He52 Hclamp].
  unfold Codec.encodeSample. rewrite Hclamp. rewrite of_Z_0.
  change (Num.lt (S754_finite true m e) (S754_zero false)) with true.
  cbv iota. rewrite (mul_32768 true m e Hd Hrange).
  assert (Hpow : 2 ^ (- e) = 2 ^ (- (e + 15)) * 32768).
  { change 32768 with (2 ^ 15). rewrite <- Z.pow_add_r by lia. f_equal. lia. }
  assert (Hpos : 0 < 2 ^ (- (e + 15))) by (apply Z.pow_pos_nonneg; lia).
  assert (Hv : Num.truncZ true m (e + 15) = - (Z.pos m * 32768 / 2 ^ (- e))).
  { unfold Num.truncZ. destruct (0 <=? e + 15) eqn:E; [apply Z.leb_le in E; lia|].
    change (Z.neg m) with (- Z.pos m).
    rewrite Z.quot_opp_l by lia. rewrite Z.quot_div_nonneg by lia.
    rewrite Hpow, Z.div_mul_cancel_r by lia. reflexivity. }
  unfold Num.to_int16. rewrite Hv. apply int16_wrap_id.
  assert (0 < 2 ^ (- e)) by (apply Z.pow_pos_nonneg; lia).
  assert (0 <= Z.pos m * 32768 / 2 ^ (- e)) by (apply Z.div_pos; lia).
  assert (Z.pos m * 32768 / 2 ^ (- e) <= 32768).
  { apply Z.div_le_upper_bound; [lia|]. nia. }
  lia.
Qed.

Lemma value_finite_neg_exp s m e :
  e < 0 →
  Num.value (S754_finite s m e) =
    (if s then Z.neg m else Z.pos m) # Z.to_pos (2 ^ (- e)).
Proof.
  intros He. unfold Num.value.
  destruct (0 <=? e) eqn:E; [apply Z.leb_le in E; lia|done].
Qed.

(** Rounding a mantissa shorter than the precision, in the normal range:
    the mantissa is shifted left to full width. *)
Lemma binary_round_short prec emax s p e :
  Z.pos (digits2_pos p) < prec →
  3 - emax - prec <= Z.pos (digits2_pos p) + e - prec →
  Z.pos (digits2_pos p) + e <= emax →
  binary_round prec emax s p e =
    S754_finite s (Pos.iter xO p (Z.to_pos (prec - Z.pos (digits2_pos p))))
                (Z.pos (digits2_pos p) + e - prec).
Proof.
  intros Hd Hmin Hmax. unfold binary_round, shl_align.
  set (d := Z.pos (digits2_pos p)) in *.
  assert (Hf : fexp prec emax (d + e) = d + e - prec) by (unfold fexp, emin; lia).
  rewrite Hf.
  replace (d + e - prec - e) with (Z.neg (Z.to_pos (prec - d))) by lia.
  cbv iota beta.
  apply binary_round_aux_canonical.
  - rewrite digits_iter_xO, Pos2Z.inj_add. fold d. rewrite Z2Pos.id by lia.
    unfold fexp, emin. lia.
  - lia.
Qed.

Lemma div_eucl_exact a b q : 0 < b → a = q * b → Z.div_eucl a b = (q, 0).
Proof.
  intros Hb ->.
  pose proof (Z_div_mult q b ltac:(lia)) as Hq.
  pose proof (Z_mod_mult q b) as Hr.
  unfold Z.div, Z.modulo in Hq, Hr.
  destruct (Z.div_eucl (q * b) b) as [q' r']. by subst.
Qed.

(** Dividing by 2^15 is a shift of the exponent. *)
Lemma div_32768 s m e :
  Z.pos (digits2_pos m) = 53 → -1000 <= e <= 900 →
  Num.div (S754_finite s m e) (Num.of_Z 0x8000) = S754_finite s m (e - 15).
Proof.
  intros Hd He. rewrite of_Z_32768. unfold Num.div, SFdiv.
  assert (Hcore : SFdiv_core_binary Num.prec Num.emax (Z.pos m) e
                    (Z.pos 4503599627370496) (-37) = (Z.pos m~0, e - 16, loc_Exact)).
  { unfold SFdiv_core_binary. cbn [Zdigits2]. rewrite Hd.
    change (Z.pos (digits2_pos 4503599627370496)) with 53.
    assert (He' : Z.min (fexp Num.prec Num.emax (53 + e - (53 + -37))) (e - -37) = e - 16)
      by (unfold fexp, emin, Num.prec, Num.emax; lia).
    cbv zeta. rewrite He'.
    replace (e - -37 - (e - 16)) with 53 by lia. cbv iota beta.
    rewrite (div_eucl_exact _ _ (Z.pos m~0)).
    - reflexivity.
    - lia.
    - rewrite Z.shiftl_mul_pow2 by lia.
      change (2 ^ 53) with 9007199254740992. lia. }
  rewrite Hcore, xorb_false_r.
  change (m~0)%positive with (Pos.iter xO m 1).
  rewrite (binary_round_aux_exact Num.prec Num.emax s m 1 (e - 16)).
  - f_equal. lia.
  - rewrite digits_iter_xO, Pos2Z.inj_add, Hd.
    unfold fexp, emin, Num.prec, Num.emax. lia.
  - unfold Num.prec, Num.emax. lia.
Qed.

(** A normal binary32 value is a fixed point of [fround]. *)
Lemma fround_float32 s a e :
  Z.pos (digits2_pos a) = 24 → -178 <= e <= 75 →
  Num.fround (S754_finite s (Pos.iter xO a 29) e) = S754_finite s (Pos.iter xO a 29) e.
Proof.
  intros Hd He. unfold Num.fround.
  assert (H24 : binary_round 24 128 s (Pos.iter xO a 29) e = S754_finite s a (e + 29)).
  { unfold binary_round, shl_align.
    rewrite digits_iter_xO, Pos2Z.inj_add, Hd.
    assert (Hf : fexp 24 128 (24 + 29 + e) = e + 29) by (unfold fexp, emin; lia).
    rewrite Hf. replace (e + 29 - e) with 29 by lia. cbv iota beta.
    apply binary_round_aux_exact.
    - rewrite digits_iter_xO, Pos2Z.inj_add, Hd. unfold fexp, emin. lia.
    - lia. }
  rewrite H24.
  rewrite binary_round_short; rewrite ?Hd; unfold Num.prec, Num.emax; try lia.
  f_equal. lia.
Qed.

Lemma digits_le_of_lt (p : positive) (k : Z) :
  0 <= k → Z.pos p < 2 ^ k → Z.pos (digits2_pos p) <= k.
Proof.
  intros Hk Hp. pose proof (digits2_pos_spec p) as [Dlo _].
  destruct (Z_le_gt_dec (Z.pos (digits2_pos p)) k) as [|Hgt]; [done|].
  assert (2 ^ k <= 2 ^ (Z.pos (digits2_pos p) - 1)) by (apply Z.pow_le_mono_r; lia).
  lia.
Qed.

(** A nonzero integer of at most 16 bits as a number. *)
Lemma of_Z_small (s : bool) (p : positive) :
  Z.pos (digits2_pos p) <= 16 →
  Num.of_Z (if s then Z.neg p else Z.pos p) =
    S754_finite s (Pos.iter xO p (Z.to_pos (53 - Z.pos (digits2_pos p))))
                (Z.pos (digits2_pos p) - 53).
Proof.
  intros Hd. unfold Num.of_Z, binary_normalize.
  destruct s; rewrite binary_round_short; unfold Num.prec, Num.emax; try lia;
    f_equal; lia.
Qed.

(** The decoded sample of a nonzero 16-bit value, in closed form. *)
Lemma decodeSample_finite (s : bool) (p : positive) :
  Z.pos (digits2_pos p) <= 16 →
  Codec.decodeSample (if s then Z.neg p else Z.pos p) =
    S754_finite s (Pos.iter xO p (Z.to_pos (53 - Z.pos (digits2_pos p))))
                (Z.pos (digits2_pos p) - 68).
Proof.
  intros Hd. unfold Codec.decodeSample. rewrite (of_Z_small s p Hd).
  set (d := Z.pos (digits2_pos p)) in *.
  assert (Hdig : Z.pos (digits2_pos (Pos.iter xO p (Z.to_pos (53 - d)))) = 53).
  { rewrite digits_iter_xO, Pos2Z.inj_add. fold d. rewrite Z2Pos.id by lia. lia. }
  rewrite div_32768 by (done || lia).
  replace (d - 53 - 15) with (d - 68) by lia.
  assert (Hsplit : Pos.iter xO p (Z.to_pos (53 - d)) =
                   Pos.iter xO (Pos.iter xO p (Z.to_pos (24 - d))) 29).
  { rewrite <- Pos.iter_add. f_equal. apply Pos2Z.inj.
    rewrite Pos2Z.inj_add, !Z2Pos.id by lia. lia. }
  rewrite Hsplit. apply fround_float32; [|lia].
  rewrite digits_iter_xO, Pos2Z.inj_add. fold d. rewrite Z2Pos.id by lia. lia.
Qed.

(** Decoding a 16-bit value is exact: the result denotes v/32768 and is a
    [Float32Array] element. *)
Lemma decodeSample_value v :
  -32768 <= v <= 32767 →
  (Num.value (Codec.decodeSample v) == v # 32768)%Q ∧
  Num.is_float32_sample (Codec.decodeSample v) = true.
Proof.
  intros Hv.
  assert (Hcase : v = 0 ∨ ∃ (s : bool) p, v = (if s then Z.neg p else Z.pos p) ∧
                                 Z.pos (digits2_pos p) <= 16).
  { destruct v as [|p|p]; [by left|right..].
    - exists false, p. split; [done|]. apply digits_le_of_lt; [lia|].
      change (2 ^ 16) with 65536. lia.
    - exists true, p. split; [done|]. apply digits_le_of_lt; [lia|].
      change (2 ^ 16) with 65536. lia. }
  destruct Hcase as [-> | (s & p & -> & Hd)]; [by vm_compute|].
  rewrite (decodeSample_finite s p Hd).
  set (d := Z.pos (digits2_pos p)) in *.
  assert (Hd1 : 1 <= d) by (subst d; lia).
  set (M := Pos.iter xO p (Z.to_pos (53 - d))).
  assert (HM : Z.pos M = Z.pos p * 2 ^ (53 - d)).
  { subst M. rewrite iter_xO_Z, Z2Pos.id by lia. reflexivity. }
  assert (Hdig : Z.pos (digits2_pos M) = 53).
  { subst M. rewrite digits_iter_xO, Pos2Z.inj_add. fold d. rewrite Z2Pos.id by lia. lia. }
  split.
  - rewrite value_finite_neg_exp by lia.
    assert (Hp : 0 < 2 ^ (- (d - 68))) by (apply Z.pow_pos_nonneg; lia).
    assert (Hpow : 2 ^ (- (d - 68)) = 2 ^ (53 - d) * 32768).
    { change 32768 with (2 ^ 15). rewrite <- Z.pow_add_r by lia. f_equal. lia. }
    unfold Qeq. cbn [Qnum Qden]. rewrite Z2Pos.id by done. rewrite Hpow.
    destruct s.
    + change (Z.neg M) with (- Z.pos M). change (Z.neg p) with (- Z.pos p).
      rewrite HM. change (Z.pos 32768) with 32768. ring.
    + rewrite HM. change (Z.pos 32768) with 32768. ring.
  - unfold Num.is_float32_sample, bounded, canonical_mantissa.
    rewrite Hdig.
    assert (H1 : fexp Num.prec Num.emax (53 + (d - 68)) = d - 68)
      by (unfold fexp, emin, Num.prec, Num.emax; lia).
    rewrite H1, Z.eqb_refl.
    assert (H2 : (d - 68 <=? Num.emax - Num.prec) = true)
      by (apply Z.leb_le; unfold Num.emax, Num.prec; lia).
    assert (H3 : (d - 68 <=? 75) = true) by (apply Z.leb_le; lia).
    rewrite H2, H3. simpl andb.
    replace (Z.max 29 (-149 - (d - 68))) with 29 by lia.
    apply Z.eqb_eq. rewrite HM.
    replace (2 ^ (53 - d)) with (2 ^ (24 - d) * 2 ^ 29).
    + rewrite Z.mul_assoc. apply Z_mod_mult.
    + rewrite <- Z.pow_add_r by lia. f_equal. lia.
Qed.

(** A sample of magnitude at most 1, in integers. *)
Lemma sample_within_unit s m e :
  Z.pos (digits2_pos m) = 53 →
  (-1 <= Num.value (S754_finite s m e) <= 1)%Q →
  e < 0 ∧ Z.pos m <= 2 ^ (- e).
Proof.
  intros Hd [Hlo Hhi].
  pose proof (digits2_pos_spec m) as [Dlo _]. rewrite Hd in Dlo.
  change (2 ^ (53 - 1)) with 4503599627370496 in Dlo.
  destruct (Z_lt_le_dec e 0) as [He|He].
  - split; [done|]. rewrite value_finite_neg_exp in Hlo, Hhi by done.
    assert (Hp : 0 < 2 ^ (- e)) by (apply Z.pow_pos_nonneg; lia).
    unfold Qle in Hlo, Hhi. cbn [Qnum Qden] in Hlo, Hhi.
    rewrite Z2Pos.id in Hlo, Hhi by done.
    destruct s; lia.
  - exfalso. unfold Num.value in Hlo, Hhi.
    destruct (0 <=? e) eqn:E; [|apply Z.leb_gt in E; lia].
    assert (Hp : 0 < 2 ^ e) by (apply Z.pow_pos_nonneg; lia).
    unfold Qle in Hlo, Hhi. cbn [Qnum Qden inject_Z] in Hlo, Hhi.
    destruct s; nia.
Qed.

(** Every value admitted by [is_float32_sample] is a fixed point of
    [fround]: it is a binary32 value, normal or subnormal. *)
Lemma float32_sample_fround x :
  Num.is_float32_sample x = true → Num.fround x = x.
Proof.
  destruct x as [s|s| |s m e]; try done.
  intros Hs. destruct (float32_sample_shape _ _ _ Hs) as (Hd & He & a & Ha & Hda).
  destruct (Z_le_gt_dec (-178) e) as [Hn|Hsub].
  - subst m. apply fround_float32; [done|lia].
  - unfold Num.is_float32_sample in Hs.
    apply andb_true_iff in Hs as [_ Hdiv]. apply Z.eqb_eq in Hdiv.
    replace (Z.max 29 (-149 - e)) with (-149 - e) in Hdiv by lia.
    set (n := -149 - e) in *.
    assert (Hn : 29 < n) by lia.
    assert (Hp : 0 < 2 ^ n) by (apply Z.pow_pos_nonneg; lia).
    apply Z.mod_divide in Hdiv; [|lia]. destruct Hdiv as [c Hc].
    assert (Hcpos : 0 < c) by nia.
    assert (Hm : m = Pos.iter xO (Z.to_pos c) (Z.to_pos n)).
    { apply Pos2Z.inj. rewrite iter_xO_Z, !Z2Pos.id by lia. done. }
    assert (Hdc : Z.pos (digits2_pos (Z.to_pos c)) = 53 - n).
    { rewrite Hm, digits_iter_xO, Pos2Z.inj_add, Z2Pos.id in Hd by lia. lia. }
    unfold Num.fround.
    assert (H24 : binary_round 24 128 s m e = S754_finite s (Z.to_pos c) (-149)).
    { unfold binary_round, shl_align. rewrite Hd.
      assert (Hf : fexp 24 128 (53 + e) = -149) by (unfold fexp, emin; lia).
      rewrite Hf. replace (-149 - e) with (Z.pos (Z.to_pos n)) by (rewrite Z2Pos.id; lia).
      cbv iota beta. rewrite Hm.
      rewrite binary_round_aux_exact.
      - f_equal. rewrite Z2Pos.id by lia. lia.
      - rewrite <- Hm, Hd, Hf, Z2Pos.id by lia. lia.
      - rewrite Z2Pos.id by lia. lia. }
    rewrite H24.
    rewrite binary_round_short; rewrite ?Hdc; unfold Num.prec, Num.emax; try lia.
    rewrite Hm. f_equal; [|lia]. f_equal. f_equal. lia.
Qed.

Lemma shr_1_m r : 0 <= shr_m r → shr_m (shr_1 r) = shr_m r / 2.
Proof.
  destruct r as [m r s]. simpl. intros Hm.
  destruct m as [|q|q]; [reflexivity| |lia].
  destruct q as [p|p|]; simpl.
  - change (Z.pos p~1) with (2 * Z.pos p + 1). Z.div_mod_to_equations. lia.
  - change (Z.pos p~0) with (2 * Z.pos p). Z.div_mod_to_equations. lia.
  - reflexivity.
Qed.

Lemma iter_shr_1_m p r :
  0 <= shr_m r → shr_m (SpecFloat.iter_pos shr_1 p r) = shr_m r / 2 ^ Z.pos p.
Proof.
  assert (Hnn : ∀ r, 0 <= shr_m r → 0 <= shr_m (shr_1 r)).
  { intros r' H. rewrite shr_1_m by done. apply Z.div_pos; lia. }
  revert r. induction p as [p IH|p IH|]; intros r Hr; simpl SpecFloat.iter_pos.
  - assert (H1 : 0 <= shr_m (shr_1 r)) by auto.
    assert (H2 : 0 <= shr_m (SpecFloat.iter_pos shr_1 p (shr_1 r))).
    { rewrite IH by done. apply Z.div_pos; [done|]. apply Z.pow_pos_nonneg; lia. }
    rewrite IH, IH, shr_1_m by done.
    assert (0 < 2 ^ Z.pos p) by (apply Z.pow_pos_nonneg; lia).
    rewrite !Z.div_div by lia. f_equal.
    replace (Z.pos p~1) with (1 + (Z.pos p + Z.pos p)) by lia.
    rewrite !Z.pow_add_r by lia. change (2 ^ 1) with 2. lia.
  - assert (H2 : 0 <= shr_m (SpecFloat.iter_pos shr_1 p r)).
    { rewrite IH by done. apply Z.div_pos; [done|]. apply Z.pow_pos_nonneg; lia. }
    rewrite IH, IH by done.
    assert (0 < 2 ^ Z.pos p) by (apply Z.pow_pos_nonneg; lia).
    rewrite !Z.div_div by lia. f_equal.
    replace (Z.pos p~0) with (Z.pos p + Z.pos p) by lia.
    rewrite !Z.pow_add_r by lia. lia.
  - apply shr_1_m. done.
Qed.

Lemma digits_div (m : positive) (p : positive) :
  Z.pos p < Z.pos (digits2_pos m) →
  ∃ q, Z.pos m / 2 ^ Z.pos p = Z.pos q ∧
       Z.pos (digits2_pos q) = Z.pos (digits2_pos m) - Z.pos p.
Proof.
  intros Hp. pose proof (digits2_pos_spec m) as [Dlo Dhi].
  set (d := Z.pos (digits2_pos m)) in *.
  assert (Hpp : 0 < 2 ^ Z.pos p) by (apply Z.pow_pos_nonneg; lia).
  assert (Hlo : 2 ^ (d - Z.pos p - 1) <= Z.pos m / 2 ^ Z.pos p).
  { apply Z.div_le_lower_bound; [done|].
    rewrite <- Z.pow_add_r by lia.
    replace (Z.pos p + (d - Z.pos p - 1)) with (d - 1) by lia. done. }
  assert (Hhi : Z.pos m / 2 ^ Z.pos p < 2 ^ (d - Z.pos p)).
  { apply Z.div_lt_upper_bound; [done|].
    rewrite <- Z.pow_add_r by lia.
    replace (Z.pos p + (d - Z.pos p)) with d by lia. done. }
  assert (H0 : 0 < 2 ^ (d - Z.pos p - 1)) by (apply Z.pow_pos_nonneg; lia).
  destruct (Z.pos m / 2 ^ Z.pos p) as [|q|q] eqn:E; try lia.
  exists q. split; [done|]. apply digits2_pos_unique. split; [done|lia].
Qed.

Lemma div_small_digits (m : positive) (p : positive) :
  Z.pos (digits2_pos m) <= Z.pos p → Z.pos m / 2 ^ Z.pos p = 0.
Proof.
  intros Hp. pose proof (digits2_pos_spec m) as [_ Dhi].
  apply Z.div_small. split; [lia|].
  eapply Z.lt_le_trans; [exact Dhi|]. apply Z.pow_le_mono_r; lia.
Qed.

Lemma digits_mono (a b : positive) :
  Z.pos a <= Z.pos b → Z.pos (digits2_pos a) <= Z.pos (digits2_pos b).
Proof.
  intros Hab. pose proof (digits2_pos_spec a) as [Alo _].
  pose proof (digits2_pos_spec b) as [_ Bhi].
  destruct (Z_le_gt_dec (Z.pos (digits2_pos a)) (Z.pos (digits2_pos b))); [done|].
  assert (2 ^ Z.pos (digits2_pos b) <= 2 ^ (Z.pos (digits2_pos a) - 1))
    by (apply Z.pow_le_mono_r; lia).
  lia.
Qed.

Lemma fexp_mono prec emax x y : x <= y → fexp prec emax x <= fexp prec emax y.
Proof. unfold fexp. lia. Qed.

(** A right shift by the amount the format asks for leaves a canonical
    mantissa, when anything is left of it. *)
Lemma shr_canonical prec emax r m2 e1 mrs e3 m3 :
  shr_m r = Z.pos m2 →
  0 <= fexp prec emax (Z.pos (digits2_pos m2) + e1) - e1 →
  shr r e1 (fexp prec emax (Z.pos (digits2_pos m2) + e1) - e1) = (mrs, e3) →
  shr_m mrs = Z.pos m3 →
  canonical_mantissa prec emax m3 e3 = true.
Proof.
  intros Hr Hn Hshr Hm3. unfold canonical_mantissa. apply Z.eqb_eq.
  unfold shr in Hshr.
  destruct (fexp prec emax (Z.pos (digits2_pos m2) + e1) - e1) as [|p|p] eqn:En; [| |lia].
  - injection Hshr as <- <-. rewrite Hr in Hm3. injection Hm3 as <-. lia.
  - injection Hshr as <- <-. rewrite iter_shr_1_m, Hr in Hm3 by (rewrite Hr; lia).
    destruct (Z_lt_le_dec (Z.pos p) (Z.pos (digits2_pos m2))) as [Hlt|Hge].
    + destruct (digits_div m2 p Hlt) as (q & Hq & Hdq).
      rewrite Hq in Hm3. injection Hm3 as <-. rewrite Hdq.
      replace (Z.pos (digits2_pos m2) - Z.pos p + (e1 + Z.pos p))
        with (Z.pos (digits2_pos m2) + e1) by lia.
      lia.
    + rewrite div_small_digits in Hm3 by done. discriminate.
Qed.

Lemma round_nearest_even_cases m l :
  round_nearest_even m l = m ∨ round_nearest_even m l = m + 1.
Proof.
  unfold round_nearest_even. destruct l as [|[]]; auto.
  destruct (Z.even m); auto.
Qed.

(** Rounding an aligned mantissa gives a number of the format. *)
Lemma binary_round_aux_bounded prec emax s m ex s' m' e' :
  0 < prec →
  0 <= fexp prec emax (Z.pos (digits2_pos m) + ex) - ex →
  binary_round_aux prec emax s (Z.pos m) ex loc_Exact = S754_finite s' m' e' →
  bounded prec emax m' e' = true.
Proof.
  intros Hprec Hn. unfold binary_round_aux, shr_fexp. cbn [Zdigits2].
  set (D := Z.pos (digits2_pos m) + ex) in *.
  destruct (shr (shr_record_of_loc (Z.pos m) loc_Exact) ex (fexp prec emax D - ex))
    as [mrs1 e1] eqn:E1.
  set (m2 := round_nearest_even (shr_m mrs1) (loc_of_shr_record mrs1)).
  assert (Hfirst : e1 = fexp prec emax D ∧ 0 <= shr_m mrs1 ∧
            (shr_m mrs1 = 0 → e1 = emin prec emax) ∧
            (∀ q, shr_m mrs1 = Z.pos q → Z.pos (digits2_pos q) + e1 = D)).
  { unfold shr in E1. destruct (fexp prec emax D - ex) as [|p|p] eqn:En; [| |lia].
    - injection E1 as <- <-. simpl. repeat split; try lia.
      intros q [= <-]. done.
    - injection E1 as <- <-. rewrite iter_shr_1_m by (simpl; lia). simpl shr_m.
      assert (0 < 2 ^ Z.pos p) by (apply Z.pow_pos_nonneg; lia).
      split; [lia|]. split; [apply Z.div_pos; lia|].
      destruct (Z_lt_le_dec (Z.pos p) (Z.pos (digits2_pos m))) as [Hlt|Hge].
      + destruct (digits_div m p Hlt) as (q & Hq & Hdq). rewrite Hq.
        split; [discriminate|]. intros q' [= <-]. subst D. lia.
      + rewrite div_small_digits by done. split; [|discriminate].
        intros _. unfold fexp in En |- *. subst D. unfold fexp. lia. }
  destruct Hfirst as (He1 & Hnn & Hzero & Hdig).
  assert (Hm2 : m2 = shr_m mrs1 ∨ m2 = shr_m mrs1 + 1) by apply round_nearest_even_cases.
  destruct m2 as [|q2|q2] eqn:Em2; [| |lia].
  - (* rounded to zero: the result is a zero *)
    cbn [Zdigits2]. unfold shr.
    destruct (fexp prec emax (0 + e1) - e1) as [|p|p]; cbn [shr_record_of_loc].
    + simpl. discriminate.
    + rewrite iter_shr_1_m by (simpl; lia). simpl shr_m.
      rewrite Z.div_0_l by (apply Z.pow_nonzero; lia). discriminate.
    + simpl. discriminate.
  - cbn [Zdigits2].
    assert (Hn2 : 0 <= fexp prec emax (Z.pos (digits2_pos q2) + e1) - e1).
    { destruct (shr_m mrs1) as [|q1|q1] eqn:Eq1; [| |lia].
      - rewrite (Hzero eq_refl). unfold fexp. lia.
      - specialize (Hdig q1 eq_refl).
        assert (Z.pos (digits2_pos q1) <= Z.pos (digits2_pos q2))
          by (apply digits_mono; lia).
        pose proof (fexp_mono prec emax D (Z.pos (digits2_pos q2) + e1) ltac:(lia)).
        lia. }
    destruct (shr (shr_record_of_loc (Z.pos q2) loc_Exact) e1
                (fexp prec emax (Z.pos (digits2_pos q2) + e1) - e1)) as [mrs2 e2] eqn:E2.
    destruct (shr_m mrs2) as [|q3|q3] eqn:Eq3; try discriminate.
    destruct (e2 <=? emax - prec) eqn:Ele; [|discriminate].
    intros [= <- <- <-]. unfold bounded. rewrite Ele, andb_true_r.
    eapply (shr_canonical prec emax _ q2 e1 mrs2 e2 q3); [|exact Hn2|exact E2|exact Eq3].
    reflexivity.
Qed.

Lemma binary_round_bounded prec emax s m e s' m' e' :
  0 < prec →
  binary_round prec emax s m e = S754_finite s' m' e' →
  bounded prec emax m' e' = true.
Proof.
  intros Hprec. unfold binary_round, shl_align.
  destruct (fexp prec emax (Z.pos (digits2_pos m) + e) - e) as [|d|d] eqn:En.
  - apply binary_round_aux_bounded; [done|lia].
  - apply binary_round_aux_bounded; [done|lia].
  - apply binary_round_aux_bounded; [done|].
    rewrite digits_iter_xO, Pos2Z.inj_add.
    replace (Z.pos (digits2_pos m) + Z.pos d +
             fexp prec emax (Z.pos (digits2_pos m) + e))
      with (Z.pos (digits2_pos m) + e) by lia.
    lia.
Qed.

(** Every finite fixed point of [fround] is admitted by
    [is_float32_sample]: the predicate covers all finite elements of a
    [Float32Array]. *)
Lemma fround_fixed_sample s m e :
  Num.fround (S754_finite s m e) = S754_finite s m e →
  Num.is_float32_sample (S754_finite s m e) = true.
Proof.
  unfold Num.fround.
  destruct (binary_round 24 128 s m e) as [| | |s' m' e'] eqn:H24; try discriminate.
  apply binary_round_bounded in H24; [|lia].
  unfold bounded, canonical_mantissa in H24.
  apply andb_true_iff in H24 as [Hcan Hle].
  apply Z.eqb_eq in Hcan. apply Z.leb_le in Hle.
  set (d' := Z.pos (digits2_pos m')) in *.
  assert (Hd1 : 1 <= d') by (subst d'; lia).
  unfold fexp, emin in Hcan.
  rewrite binary_round_short; fold d'; unfold Num.prec, Num.emax; try lia.
  intros [= <- <- <-].
  unfold Num.is_float32_sample, bounded, canonical_mantissa.
  rewrite digits_iter_xO, Pos2Z.inj_add. fold d'. rewrite Z2Pos.id by lia.
  assert (H1 : fexp Num.prec Num.emax (d' + (53 - d') + (d' + e' - 53)) = d' + e' - 53)
    by (unfold fexp, emin, Num.prec, Num.emax; lia).
  rewrite H1, Z.eqb_refl.
  assert (H2 : (d' + e' - 53 <=? Num.emax - Num.prec) = true)
    by (apply Z.leb_le; unfold Num.emax, Num.prec; lia).
  assert (H3 : (d' + e' - 53 <=? 75) = true) by (apply Z.leb_le; lia).
  rewrite H2, H3. simpl andb. apply Z.eqb_eq.
  rewrite iter_xO_Z, Z2Pos.id by lia.
  set (t := Z.max 29 (-149 - (d' + e' - 53))).
  assert (Ht : 0 <= t <= 53 - d') by lia.
  replace (2 ^ (53 - d')) with (2 ^ (53 - d' - t) * 2 ^ t).
  - rewrite Z.mul_assoc. apply Z_mod_mult.
  - rewrite <- Z.pow_add_r by lia. f_equal. lia.
Qed.

(** The finite elements of a [Float32Array] are exactly the values
    admitted by [is_float32_sample]. *)
Lemma float32_sample_iff x :
  Num.is_float32_sample x = true ↔ Num.is_finite x = true ∧ Num.fround x = x.
Proof.
  split.
  - intros H. split; [by destruct x|by apply float32_sample_fround].
  - intros [Hfin Hfix]. destruct x as [s|s| |s m e]; try done.
    by apply fround_fixed_sample.
Qed.

Lemma value_zero s : Num.value (S754_zero s) = 0%Q.
Proof. reflexivity. Qed.

Lemma encodeSample_zero s : Codec.encodeSample (S754_zero s) = 0.
Proof. destruct s; reflexivity. Qed.

(** C5, as stated, fails: the sample 0.75 + 2^-16 = 49153/65536, an exact
    binary32 value, is encoded as 24575 and decoded as 24575/32768; the
    difference is 3/65536, one and a half quantization steps. *)
Lemma codec_round_trip_exceeds_one_step :
  let x := Num.div (Num.of_Z 49153) (Num.of_Z 65536) in
  let y := Codec.decodeSample (Codec.encodeSample x) in
  Num.is_finite x = true ∧ Num.fround x = x ∧
  (Num.value x == 49153 # 65536)%Q ∧
  Codec.encodeSample x = 24575 ∧
  Codec.base64PCM16ToFloat32 (Codec.float32ToBase64PCM16 [x]) = Some [y] ∧
  (Num.value y == 24575 # 32768)%Q ∧
  (Num.value x - Num.value y == 3 # 65536)%Q ∧
  ¬ (Qabs (Num.value x - Num.value y) <= 1 # 32768)%Q.
Proof.
  cbv zeta. repeat split; try (vm_compute; reflexivity).
  intros H. vm_compute in H. by apply H.
Qed.

(** C5, amended: for every sample s in [-1, 1], decoding the transport
    encoding of s (encode: clamp, scale by 32768 for negative / 32767 for
    non-negative, truncate toward zero, serialize as signed 16-bit
    little-endian, wrap in base64; decode: divide the 16-bit value by
    32768) yields a value d within two quantization steps of s:
    |s - d| < 2/32768.  More precisely 0 <= s - d < 2/32768 for s >= 0 and
    0 <= d - s < 1/32768 for s <= 0.  A sample is a finite element of a
    [Float32Array], that is a finite number that [fround] leaves
    unchanged. *)
Theorem codec_round_trip_error (x : Num.number) :
  Num.is_finite x = true → Num.fround x = x →
  (-1 <= Num.value x <= 1)%Q →
  let d := Num.value (Codec.decodeSample (Codec.encodeSample x)) in
  Codec.base64PCM16ToFloat32 (Codec.float32ToBase64PCM16 [x]) =
    Some [Codec.decodeSample (Codec.encodeSample x)] ∧
  (Qabs (Num.value x - d) < 2 # 32768)%Q ∧
  (0 <= Num.value x → 0 <= Num.value x - d)%Q ∧
  (Num.value x <= 0 → 0 <= d - Num.value x ∧ d - Num.value x < 1 # 32768)%Q.
Proof.
  intros Hfin Hfix Hx d.
  assert (Hs : Num.is_float32_sample x = true) by (by apply float32_sample_iff).
  clear Hfin Hfix. split; [apply codec_round_trip_per_sample|].
  assert (Hd : (d == Codec.encodeSample x # 32768)%Q).
  { apply decodeSample_value. apply to_int16_range. }
  assert (Core :
    ((0 <= Num.value x → 0 <= Num.value x - d ∧ Num.value x - d < 2 # 32768) ∧
     (Num.value x <= 0 → 0 <= d - Num.value x ∧ d - Num.value x < 1 # 32768))%Q).
  { rewrite Hd. clear d Hd.
    destruct x as [s| | |s m e]; try discriminate.
    - rewrite value_zero, encodeSample_zero. repeat split; intros; by vm_compute.
    - destruct (float32_sample_shape _ _ _ Hs) as (Hdig & _ & _).
      destruct (sample_within_unit s m e Hdig Hx) as [He Hm].
      rewrite value_finite_neg_exp by done.
      assert (Hp : 0 < 2 ^ (- e)) by (apply Z.pow_pos_nonneg; lia).
      destruct s.
      + rewrite (encodeSample_neg m e Hs He Hm).
        pose proof (Z.mul_div_le (Z.pos m * 32768) (2 ^ (- e)) Hp) as Hlo.
        pose proof (Z.mul_succ_div_gt (Z.pos m * 32768) (2 ^ (- e)) Hp) as Hhi.
        revert Hlo Hhi. generalize (Z.pos m * 32768 / 2 ^ (- e)). intros q Hlo Hhi.
        unfold Qle, Qlt, Qminus, Qplus, Qopp. cbn [Qnum Qden].
        rewrite !Pos2Z.inj_mul, !Z2Pos.id by done.
        revert Hlo Hhi Hm Hp. generalize (2 ^ (- e)). intros N Hlo Hhi Hm Hp.
        change (Z.neg m) with (- Z.pos m).
        repeat split; intros; nia.
      + rewrite (encodeSample_nonneg m e Hs He Hm).
        pose proof (Z.mul_div_le (Z.pos m * 32767) (2 ^ (- e)) Hp) as Hlo.
        pose proof (Z.mul_succ_div_gt (Z.pos m * 32767) (2 ^ (- e)) Hp) as Hhi.
        revert Hlo Hhi. generalize (Z.pos m * 32767 / 2 ^ (- e)). intros q Hlo Hhi.
        unfold Qle, Qlt, Qminus, Qplus, Qopp. cbn [Qnum Qden].
        rewrite !Pos2Z.inj_mul, !Z2Pos.id by done.
        revert Hlo Hhi Hm Hp. generalize (2 ^ (- e)). intros N Hlo Hhi Hm Hp.
        repeat split; intros; nia. }
  destruct Core as (C1 & C2).
  split; [|split].
  - apply Qabs_Qlt_condition.
    destruct (Qlt_le_dec (Num.value x) 0) as [Hneg|Hpos].
    + destruct C2 as [C2 C3]; [by apply Qlt_le_weak|]. split; lra.
    + destruct (C1 Hpos) as [C3 C4]. split; lra.
  - intros H. by destruct (C1 H).
  - done.
Qed.

Lemma codec_round_trip_error_witness :
  let x := Num.div (Num.of_Z 49153) (Num.of_Z 65536) in
  let d := Num.value (Codec.decodeSample (Codec.encodeSample x)) in
  Codec.base64PCM16ToFloat32 (Codec.float32ToBase64PCM16 [x]) =
    Some [Codec.decodeSample (Codec.encodeSample x)] ∧
  (Qabs (Num.value x - d) < 2 # 32768)%Q ∧
  (0 <= Num.value x → 0 <= Num.value x - d)%Q ∧
  (Num.value x <= 0 → 0 <= d - Num.value x ∧ d - Num.value x < 1 # 32768)%Q.
Proof.
  apply (codec_round_trip_error (Num.div (Num.of_Z 49153) (Num.of_Z 65536))).
  - reflexivity.
  - reflexivity.
  - split; vm_compute; discriminate.
Defined.

(* ===================================================================== *)
(** * Part III: further properties of the sources                         *)
(* ===================================================================== *)

(** ** The native player: runs of calls and platform events *)

Lemma next_playable_files q :
  option_list (fst (NativePlayer.next_playable q)) ++
    omap Wav.wavBytes (snd (NativePlayer.next_playable q)) = omap Wav.wavBytes q.
Proof.
  induction q as [|c q IH]; [done|].
  simpl. destruct (Wav.wavBytes c) as [wav|] eqn:Hc; simpl; done.
Qed.

Lemma consistent_idle s :
  PlayerRun.consistent s → NativePlayer.playing s = false →
  NativePlayer.suspended s = None.
Proof.
  unfold PlayerRun.consistent. intros -> H.
  destruct (NativePlayer.suspended s); [|done].
  by rewrite bool_decide_eq_true_2 in H by eauto.
Qed.

Lemma consistent_busy s :
  PlayerRun.consistent s → is_Some (NativePlayer.suspended s) →
  NativePlayer.playing s = true.
Proof. unfold PlayerRun.consistent. intros -> H. by rewrite bool_decide_eq_true_2. Qed.

(** [playNext] moves the first chunk that decodes from the queue to the
    write, and drops only chunks that do not decode. *)
Lemma playNext_files s :
  PlayerRun.consistent s →
  PlayerRun.consistent (NativePlayer.playNext s) ∧
  PlayerRun.files (NativePlayer.playNext s) = PlayerRun.files s ∧
  NativePlayer.stopped (NativePlayer.playNext s) = NativePlayer.stopped s.
Proof.
  intros Hc. unfold NativePlayer.playNext.
  destruct (NativePlayer.stopped s) eqn:Hs; [done|].
  destruct (NativePlayer.playing s) eqn:Hp; [done|]. cbn [orb].
  pose proof (consistent_idle s Hc Hp) as Hn.
  pose proof (next_playable_files (NativePlayer.queue s)) as Hq.
  destruct (NativePlayer.next_playable (NativePlayer.queue s)) as [[wav|] rest];
    cbn [fst snd option_list] in Hq.
  - split; [done|]. split; [|done].
    unfold PlayerRun.files, PlayerRun.in_flight. cbn. by rewrite Hn, <- Hq.
  - split; [unfold PlayerRun.consistent; cbn; by rewrite Hn|]. split; [|done].
    unfold PlayerRun.files, PlayerRun.in_flight. cbn. by rewrite Hn, <- Hq.
Qed.

Lemma resume_files s :
  PlayerRun.consistent (NativePlayer.resume s) ∧
  PlayerRun.files (NativePlayer.resume s) =
    NativePlayer.started s ++ omap Wav.wavBytes (NativePlayer.queue s) ∧
  NativePlayer.stopped (NativePlayer.resume s) = NativePlayer.stopped s.
Proof.
  unfold NativePlayer.resume.
  match goal with |- context [NativePlayer.playNext ?s0] =>
    destruct (playNext_files s0) as (H1 & H2 & H3); [done|] end.
  rewrite H2, H3. done.
Qed.

(** One call or event: the files of the player stay a subsequence of
    what they were, followed by the file of the chunk played if the
    step is a [play]; an undisturbing step on a player that is not
    stopped loses nothing. *)
Lemma player_step_files o s :
  PlayerRun.consistent s →
  PlayerRun.consistent (PlayerRun.step o s) ∧
  PlayerRun.files (PlayerRun.step o s)
    `sublist_of` PlayerRun.files s ++ omap Wav.wavBytes (PlayerRun.played [o]) ∧
  (PlayerRun.undisturbed o = true → NativePlayer.stopped s = false →
     PlayerRun.files (PlayerRun.step o s) =
       PlayerRun.files s ++ omap Wav.wavBytes (PlayerRun.played [o]) ∧
     NativePlayer.stopped (PlayerRun.step o s) = false).
Proof.
  intros Hc.
  assert (Hdrop : ∀ (a b c : list bytes), a ++ c `sublist_of` a ++ b ++ c).
  { intros a b c. apply sublist_app; [done|]. by apply sublist_inserts_l. }
  destruct o as [|base64PCM| | |o| | |]; cbn [PlayerRun.step PlayerRun.played omap].
  - (* start *)
    split; [done|]. split; [|done]. rewrite app_nil_r.
    unfold PlayerRun.files. cbn. apply sublist_app; [done|].
    apply sublist_app; [done|]. apply sublist_nil_l.
  - (* play *)
    unfold NativePlayer.play.
    destruct (NativePlayer.stopped s) eqn:Hs.
    { split; [done|]. split; [by apply sublist_inserts_r|done]. }
    match goal with |- context [NativePlayer.playNext ?s0] =>
      destruct (playNext_files s0) as (H1 & H2 & H3); [done|];
      rewrite H2, H3; set (s1 := s0) in * end.
    assert (Hf : PlayerRun.files s1 =
                 PlayerRun.files s ++
                 omap Wav.wavBytes (option_list (Some base64PCM) ++ [])).
    { unfold PlayerRun.files. subst s1. cbn. by rewrite omap_app, !app_assoc. }
    cbn [option_list app] in Hf. cbn [mbind option_bind option_list app].
    rewrite Hf. done.
  - (* clear *)
    split; [done|]. split; [|done]. rewrite app_nil_r.
    unfold PlayerRun.files. cbn. apply sublist_app; [done|].
    apply sublist_app; [done|]. apply sublist_nil_l.
  - (* stop *)
    split; [done|]. split; [|done]. rewrite app_nil_r.
    unfold PlayerRun.files. cbn. apply sublist_app; [done|].
    apply sublist_app; [done|]. apply sublist_nil_l.
  - (* the write completes *)
    rewrite app_nil_r. unfold NativePlayer.written.
    destruct (NativePlayer.suspended s) as [[file wav| |]|] eqn:Hsus;
      try (split; [done|]; split; [done|]; intros _ Hst; done).
    assert (Hfiles : PlayerRun.files s =
              NativePlayer.started s ++ [wav] ++ omap Wav.wavBytes (NativePlayer.queue s)).
    { unfold PlayerRun.files, PlayerRun.in_flight. by rewrite Hsus. }
    destruct o as [e|e|e|].
    + destruct (resume_files s) as (R1 & R2 & R3).
      split; [done|]. split; [|done]. rewrite R2, Hfiles. apply Hdrop.
    + destruct (resume_files s) as (R1 & R2 & R3).
      split; [done|]. split; [|done]. rewrite R2, Hfiles. apply Hdrop.
    + match goal with |- context [NativePlayer.resume ?s0] =>
        destruct (resume_files s0) as (R1 & R2 & R3) end.
      split; [done|]. split; [|done]. rewrite R2, Hfiles.
      cbn [NativePlayer.started NativePlayer.queue]. apply Hdrop.
    + assert (Hp : NativePlayer.playing s = true)
        by (apply consistent_busy; [done|rewrite Hsus; eauto]).
      assert (Heq : PlayerRun.files
                {| NativePlayer.player :=
                     Some {| NativePlayer.tempFile := file;
                             NativePlayer.player_playing := true |};
                   NativePlayer.queue := NativePlayer.queue s;
                   NativePlayer.playing := NativePlayer.playing s;
                   NativePlayer.stopped := NativePlayer.stopped s;
                   NativePlayer.fileCounter := NativePlayer.fileCounter s;
                   NativePlayer.suspended := Some (NativePlayer.Waiting file);
                   NativePlayer.started := NativePlayer.started s ++ [wav] |} =
                PlayerRun.files s).
      { rewrite Hfiles. unfold PlayerRun.files, PlayerRun.in_flight. cbn.
        by rewrite <- app_assoc. }
      split; [unfold PlayerRun.consistent; cbn; by rewrite Hp|].
      rewrite Heq. done.
  - (* the file ends *)
    rewrite app_nil_r. split; [done|]. split; [done|]. done.
  - (* the interval fires *)
    rewrite app_nil_r. unfold NativePlayer.poll.
    destruct (NativePlayer.suspended s) as [[file wav|file|file]|] eqn:Hsus;
      try (split; [done|]; split; [done|]; intros _ Hst; done).
    assert (Hp : NativePlayer.playing s = true)
      by (apply consistent_busy; [done|rewrite Hsus; eauto]).
    destruct (match NativePlayer.player s with
              | Some p => negb (NativePlayer.player_playing p)
              | None => true
              end); [|by split; [done|]; split; [done|]; intros _ Hst].
    split; [unfold PlayerRun.consistent; cbn; by rewrite Hp|].
    assert (Heq : ∀ s', NativePlayer.started s' = NativePlayer.started s →
                        NativePlayer.queue s' = NativePlayer.queue s →
                        NativePlayer.suspended s' = Some (NativePlayer.Deleting file) →
                        PlayerRun.files s' = PlayerRun.files s).
    { intros s' E1 E2 E3. unfold PlayerRun.files, PlayerRun.in_flight.
      by rewrite E1, E2, E3, Hsus. }
    rewrite Heq by done. done.
  - (* the deletion completes *)
    rewrite app_nil_r. unfold NativePlayer.deleted.
    destruct (NativePlayer.suspended s) as [[file wav|file|file]|] eqn:Hsus;
      try (split; [done|]; split; [done|]; intros _ Hst; done).
    destruct (resume_files s) as (R1 & R2 & R3).
    assert (Hfiles : PlayerRun.files s =
              NativePlayer.started s ++ omap Wav.wavBytes (NativePlayer.queue s)).
    { unfold PlayerRun.files, PlayerRun.in_flight. by rewrite Hsus. }
    split; [done|]. rewrite R2, R3, Hfiles. done.
Qed.

Lemma played_cons o ops :
  omap Wav.wavBytes (PlayerRun.played (o :: ops)) =
    omap Wav.wavBytes (PlayerRun.played [o]) ++ omap Wav.wavBytes (PlayerRun.played ops).
Proof.
  change (o :: ops) with ([o] ++ ops).
  unfold PlayerRun.played. by rewrite !omap_app.
Qed.

Lemma player_run_files ops :
  ∀ s, PlayerRun.consistent s →
    PlayerRun.files (PlayerRun.run ops s)
      `sublist_of` PlayerRun.files s ++ omap Wav.wavBytes (PlayerRun.played ops) ∧
    (forallb PlayerRun.undisturbed ops = true → NativePlayer.stopped s = false →
       PlayerRun.files (PlayerRun.run ops s) =
         PlayerRun.files s ++ omap Wav.wavBytes (PlayerRun.played ops)).
Proof.
  induction ops as [|o ops IH]; intros s Hc.
  { cbn. rewrite app_nil_r. done. }
  destruct (player_step_files o s Hc) as (C1 & S1 & E1).
  destruct (IH _ C1) as [S2 E2].
  rewrite played_cons, app_assoc.
  change (PlayerRun.run (o :: ops) s) with (PlayerRun.run ops (PlayerRun.step o s)).
  split.
  - etrans; [exact S2|]. by apply sublist_app.
  - cbn [forallb]. intros Hu Hs. apply andb_true_iff in Hu as [Hu1 Hu2].
    destruct (E1 Hu1 Hs) as [E1a E1b]. rewrite (E2 Hu2 E1b), E1a. done.
Qed.

(** X1. The native player plays the chunks that decode in the order in
    which they were passed to [play].  In every run of calls and platform
    events from a new player, the files started, followed by the file
    being written and by the files of the queued chunks, are a
    subsequence of the files of the chunks played so far: no file is
    started twice, out of order, or without its chunk having been
    played.  In a run without [start], [clear] and [stop] in which every
    written file plays, they are all of them: no chunk that decodes is
    dropped, and only these are skipped. *)
Theorem player_starts_chunks_in_the_order_played (ops : list PlayerRun.Op) :
  let s := PlayerRun.run ops NativePlayer.create in
  PlayerRun.files s `sublist_of` omap Wav.wavBytes (PlayerRun.played ops) ∧
  (forallb PlayerRun.undisturbed ops = true →
     PlayerRun.files s = omap Wav.wavBytes (PlayerRun.played ops)).
Proof.
  destruct (player_run_files ops NativePlayer.create) as [H1 H2]; [done|].
  split; [exact H1|]. intros Hu. by apply H2.
Qed.

(** [clear] pauses the file being played: while it plays, the interval
    leaves the wait as it is; after [clear], the next firing ends the
    wait, the temp file is deleted, and the chunk that was queued behind
    it is never started. *)
Example clear_pauses_the_file_being_played :
  let s := PlayerRun.run [PlayerRun.Play "AAD/fw=="; PlayerRun.Written NativePlayer.Plays;
                          PlayerRun.Play "AQID"] NativePlayer.create in
  NativePlayer.suspended s = Some (NativePlayer.Waiting 0) ∧
  NativePlayer.suspended (PlayerRun.run [PlayerRun.Poll] s) = Some (NativePlayer.Waiting 0) ∧
  NativePlayer.suspended (PlayerRun.run [PlayerRun.Clear; PlayerRun.Poll] s) =
    Some (NativePlayer.Deleting 0) ∧
  let s' := PlayerRun.run [PlayerRun.Clear; PlayerRun.Poll; PlayerRun.Deleted] s in
  NativePlayer.suspended s' = None ∧
  NativePlayer.playing s' = false ∧
  NativePlayer.started s' = NativePlayer.started s.
Proof. vm_compute. done. Qed.

(** What [stop] leaves possible: the state of a stopped player after
    calls other than [start] and platform events. *)
Lemma stopped_player_step o s :
  o ≠ PlayerRun.Start →
  NativePlayer.stopped s = true → NativePlayer.queue s = [] →
  let s' := PlayerRun.step o s in
  NativePlayer.stopped s' = true ∧ NativePlayer.queue s' = [] ∧
  NativePlayer.fileCounter s' = NativePlayer.fileCounter s ∧
  ((NativePlayer.suspended s' = NativePlayer.suspended s ∧
    NativePlayer.started s' = NativePlayer.started s) ∨
   (NativePlayer.started s' = NativePlayer.started s ∧
    PlayerRun.in_flight s' = []) ∨
   (∃ file wav, NativePlayer.suspended s = Some (NativePlayer.Writing file wav) ∧
      NativePlayer.started s' = NativePlayer.started s ++ [wav] ∧
      PlayerRun.in_flight s' = [])).
Proof.
  intros Ho Hs Hq.
  assert (Hres : ∀ s0, NativePlayer.stopped s0 = true →
            NativePlayer.resume s0 =
              {| NativePlayer.player := NativePlayer.player s0;
                 NativePlayer.queue := NativePlayer.queue s0;
                 NativePlayer.playing := false;
                 NativePlayer.stopped := NativePlayer.stopped s0;
                 NativePlayer.fileCounter := NativePlayer.fileCounter s0;
                 NativePlayer.suspended := None;
                 NativePlayer.started := NativePlayer.started s0 |}).
  { intros s0 H0. unfold NativePlayer.resume, NativePlayer.playNext. cbn. by rewrite H0. }
  assert (Hstay : ∀ s', NativePlayer.stopped s' = true → NativePlayer.queue s' = [] →
            NativePlayer.fileCounter s' = NativePlayer.fileCounter s →
            NativePlayer.suspended s' = NativePlayer.suspended s →
            NativePlayer.started s' = NativePlayer.started s →
            NativePlayer.stopped s' = true ∧ NativePlayer.queue s' = [] ∧
            NativePlayer.fileCounter s' = NativePlayer.fileCounter s ∧
            ((NativePlayer.suspended s' = NativePlayer.suspended s ∧
              NativePlayer.started s' = NativePlayer.started s) ∨
             (NativePlayer.started s' = NativePlayer.started s ∧
              PlayerRun.in_flight s' = []) ∨
             (∃ file wav,
                NativePlayer.suspended s = Some (NativePlayer.Writing file wav) ∧
                NativePlayer.started s' = NativePlayer.started s ++ [wav] ∧
                PlayerRun.in_flight s' = []))).
  { intros s' ? ? ? ? ?. do 3 (split; [done|]). by left. }
  assert (Hquiet : ∀ s', NativePlayer.stopped s' = true → NativePlayer.queue s' = [] →
            NativePlayer.fileCounter s' = NativePlayer.fileCounter s →
            PlayerRun.in_flight s' = [] →
            NativePlayer.started s' = NativePlayer.started s →
            NativePlayer.stopped s' = true ∧ NativePlayer.queue s' = [] ∧
            NativePlayer.fileCounter s' = NativePlayer.fileCounter s ∧
            ((NativePlayer.suspended s' = NativePlayer.suspended s ∧
              NativePlayer.started s' = NativePlayer.started s) ∨
             (NativePlayer.started s' = NativePlayer.started s ∧
              PlayerRun.in_flight s' = []) ∨
             (∃ file wav,
                NativePlayer.suspended s = Some (NativePlayer.Writing file wav) ∧
                NativePlayer.started s' = NativePlayer.started s ++ [wav] ∧
                PlayerRun.in_flight s' = []))).
  { intros s' ? ? ? ? ?. do 3 (split; [done|]). right. by left. }
  destruct o as [|base64PCM| | |o| | |]; cbn [PlayerRun.step]; [done| | | | | | |].
  - unfold NativePlayer.play. rewrite Hs. by apply Hstay.
  - by apply Hstay.
  - by apply Hstay.
  - unfold NativePlayer.written.
    destruct (NativePlayer.suspended s) as [[file wav| |]|] eqn:Hsus;
      try (apply Hstay; done).
    destruct o as [e|e|e|].
    + rewrite Hres by done. by apply Hquiet.
    + rewrite Hres by done. by apply Hquiet.
    + rewrite Hres by done. by apply Hquiet.
    + cbn. do 3 (split; [done|]). right. right. by exists file, wav.
  - by apply Hstay.
  - unfold NativePlayer.poll.
    destruct (NativePlayer.suspended s) as [[file wav|file|file]|] eqn:Hsus;
      try (apply Hstay; done).
    destruct (match NativePlayer.player s with
              | Some p => negb (NativePlayer.player_playing p)
              | None => true
              end); [by apply Hquiet|by apply Hstay].
  - unfold NativePlayer.deleted.
    destruct (NativePlayer.suspended s) as [[file wav|file|file]|] eqn:Hsus;
      try (apply Hstay; done).
    rewrite Hres by done. by apply Hquiet.
Qed.

Lemma stopped_player_run ops :
  Forall (λ o, o ≠ PlayerRun.Start) ops →
  ∀ s, NativePlayer.stopped s = true → NativePlayer.queue s = [] →
  let s' := PlayerRun.run ops s in
  NativePlayer.stopped s' = true ∧ NativePlayer.queue s' = [] ∧
  NativePlayer.fileCounter s' = NativePlayer.fileCounter s ∧
  (NativePlayer.started s' = NativePlayer.started s ∨
   ∃ file wav, NativePlayer.suspended s = Some (NativePlayer.Writing file wav) ∧
     NativePlayer.started s' = NativePlayer.started s ++ [wav]).
Proof.
  intros Hops.
  assert (Hquiet : ∀ ops, Forall (λ o, o ≠ PlayerRun.Start) ops →
            ∀ s, NativePlayer.stopped s = true → NativePlayer.queue s = [] →
                 PlayerRun.in_flight s = [] →
            let s' := PlayerRun.run ops s in
            NativePlayer.stopped s' = true ∧ NativePlayer.queue s' = [] ∧
            NativePlayer.fileCounter s' = NativePlayer.fileCounter s ∧
            NativePlayer.started s' = NativePlayer.started s).
  { clear ops Hops. intros ops Hops.
    induction Hops as [|o ops Ho _ IH]; intros s Hs Hq Hfl; [done|].
    destruct (stopped_player_step o s Ho Hs Hq) as (S1 & S2 & S3 & S4).
    assert (Hst : NativePlayer.started (PlayerRun.step o s) = NativePlayer.started s ∧
                  PlayerRun.in_flight (PlayerRun.step o s) = []).
    { destruct S4 as [[E1 E2]|[[E1 E2]|(file & wav & E1 & _)]]; [|done|].
      - split; [done|]. unfold PlayerRun.in_flight in *. by rewrite E1.
      - unfold PlayerRun.in_flight in Hfl. by rewrite E1 in Hfl. }
    destruct Hst as [E1 E2].
    destruct (IH _ S1 S2 E2) as (I1 & I2 & I3 & I4).
    change (PlayerRun.run (o :: ops) s) with (PlayerRun.run ops (PlayerRun.step o s)).
    cbv zeta in *. rewrite I3, I4. done. }
  induction Hops as [|o ops Ho Hops IH]; intros s Hs Hq; [cbn; auto|].
  destruct (stopped_player_step o s Ho Hs Hq) as (S1 & S2 & S3 & S4).
  change (PlayerRun.run (o :: ops) s) with (PlayerRun.run ops (PlayerRun.step o s)).
  cbv zeta in *.
  destruct S4 as [[E1 E2]|[[E1 E2]|(file & wav & E1 & E2 & E3)]].
  - destruct (IH _ S1 S2) as (I1 & I2 & I3 & I4).
    rewrite I3, S3. do 3 (split; [done|]).
    rewrite E1, E2 in I4. exact I4.
  - destruct (Hquiet ops Hops _ S1 S2 E2) as (I1 & I2 & I3 & I4).
    rewrite I3, I4, S3, E1. auto.
  - destruct (Hquiet ops Hops _ S1 S2 E3) as (I1 & I2 & I3 & I4).
    rewrite I3, I4, S3, E2.
    do 3 (split; [done|]). right. by exists file, wav.
Qed.

(** X2. [stop] does not cancel a write that is in progress.  After [stop],
    and until [start] is called again, whatever is played, cleared or
    stopped and whatever the platform does, the queue stays empty and no
    new temp file is written; the only file that can still start is the
    one whose write was in progress when [stop] was called, and it does
    start as soon as that write is over, although the player is
    stopped. *)
Theorem stop_lets_the_file_being_written_start
    (s : NativePlayer.State) (ops : list PlayerRun.Op) :
  Forall (λ o, o ≠ PlayerRun.Start) ops →
  let s' := PlayerRun.run ops (NativePlayer.stop s) in
  NativePlayer.stopped s' = true ∧
  NativePlayer.queue s' = [] ∧
  NativePlayer.fileCounter s' = NativePlayer.fileCounter s ∧
  (NativePlayer.started s' = NativePlayer.started s ∨
   ∃ file wav, NativePlayer.suspended s = Some (NativePlayer.Writing file wav) ∧
     NativePlayer.started s' = NativePlayer.started s ++ [wav]) ∧
  (∀ file wav, NativePlayer.suspended s = Some (NativePlayer.Writing file wav) →
     let s1 := NativePlayer.written NativePlayer.Plays (NativePlayer.stop s) in
     NativePlayer.stopped s1 = true ∧
     NativePlayer.started s1 = NativePlayer.started s ++ [wav] ∧
     NativePlayer.player s1 =
       Some {| NativePlayer.tempFile := file; NativePlayer.player_playing := true |}).
Proof.
  intros Hops.
  destruct (stopped_player_run ops Hops (NativePlayer.stop s)) as (H1 & H2 & H3 & H4);
    [done|done|].
  do 3 (split; [done|]). split; [exact H4|].
  intros file wav Hsus. unfold NativePlayer.written. cbn. rewrite Hsus. done.
Qed.

Lemma stop_lets_the_file_being_written_start_witness :
  let s := PlayerRun.run [PlayerRun.Play "AAD/fw=="] NativePlayer.create in
  let s' := PlayerRun.run [PlayerRun.Play "AQID"; PlayerRun.Written NativePlayer.Plays;
                           PlayerRun.Ended; PlayerRun.Poll; PlayerRun.Deleted;
                           PlayerRun.Play "AQID"]
              (NativePlayer.stop s) in
  NativePlayer.suspended s = NativePlayer.Writing 0 <$> Wav.wavBytes "AAD/fw==" ∧
  NativePlayer.stopped s' = true ∧
  NativePlayer.queue s' = [] ∧
  NativePlayer.fileCounter s' = NativePlayer.fileCounter s ∧
  option_list (Wav.wavBytes "AAD/fw==") = NativePlayer.started s'.
Proof.
  split; [reflexivity|].
  destruct (stop_lets_the_file_being_written_start
              (PlayerRun.run [PlayerRun.Play "AAD/fw=="] NativePlayer.create)
              [PlayerRun.Play "AQID"; PlayerRun.Written NativePlayer.Plays;
               PlayerRun.Ended; PlayerRun.Poll; PlayerRun.Deleted;
               PlayerRun.Play "AQID"]) as (H1 & H2 & H3 & _).
  { repeat constructor; discriminate. }
  split; [exact H1|]. split; [exact H2|]. split; [exact H3|]. reflexivity.
Defined.

(** ** Native capture: starting, and runs of poll cycles *)

(** X5. Starting the native capture from an object whose poll timer is not
    armed (a new one, or one that was stopped).  If configuring the audio
    mode fails, [start] rejects with that error and nothing else happens.
    If preparing the first recorder fails, [start] still resolves: the
    error goes to the error callback once, the poll timer is never armed,
    and no later timer tick does anything.  If both succeed, [start]
    resolves with one new recorder, the timer armed and no callback
    invoked. *)
Theorem capture_start_outcomes (env : NativeCapture.StartEnv) (s : NativeCapture.State) :
  NativeCapture.pollInterval s = false →
  let r := fst (NativeCapture.start env s) in
  let s' := snd (NativeCapture.start env s) in
  (∀ e, NativeCapture.setAudioMode env = Throw e →
     r = Throw e ∧ s' = NativeCapture.set_stopped false s) ∧
  (∀ e, NativeCapture.setAudioMode env = Ok tt →
     NativeCapture.prepareFirst env = Throw e →
     r = Ok tt ∧
     NativeCapture.callbacks s' = NativeCapture.callbacks s ++ [NativeCapture.OnError e] ∧
     NativeCapture.running s' = false ∧
     ∀ cycles, NativeCapture.ticks cycles s' = s') ∧
  (NativeCapture.setAudioMode env = Ok tt →
   NativeCapture.prepareFirst env = Ok tt →
     r = Ok tt ∧
     NativeCapture.callbacks s' = NativeCapture.callbacks s ∧
     NativeCapture.recording s' = Some (NativeCapture.recorders s) ∧
     NativeCapture.recorders s' = S (NativeCapture.recorders s) ∧
     NativeCapture.running s' = true).
Proof.
  intros Hp r s'. subst r s'.
  unfold NativeCapture.start, NativeCapture.startRecordingCycle.
  unfold bind, modify, await, get, try_catch. simpl.
  destruct env as [[[]|e1] [[]|e2]]; simpl.
  - split; [done|]. split; [done|]. intros _ _.
    unfold NativeCapture.running. simpl. done.
  - split; [done|]. split; [|done]. intros e _ [= <-].
    split; [done|]. split; [done|].
    unfold NativeCapture.running. simpl. rewrite Hp. split; [done|].
    intros cycles. induction cycles as [|c cycles IH]; [done|].
    unfold NativeCapture.ticks in *. cbn [foldl].
    unfold NativeCapture.tick at 2. simpl. rewrite Hp. exact IH.
  - split; [|done]. by intros e [= <-].
  - split; [|done]. by intros e [= <-].
Qed.

Lemma capture_start_outcomes_witness :
  let env := {| NativeCapture.setAudioMode := Ok tt;
                NativeCapture.prepareFirst := Throw "microphone busy" |} in
  let r := fst (NativeCapture.start env NativeCapture.create) in
  let s' := snd (NativeCapture.start env NativeCapture.create) in
  r = Ok tt ∧
  NativeCapture.callbacks s' = [NativeCapture.OnError "microphone busy"] ∧
  NativeCapture.running s' = false ∧
  ∀ cycles, NativeCapture.ticks cycles s' = s'.
Proof.
  pose proof (capture_start_outcomes
                {| NativeCapture.setAudioMode := Ok tt;
                   NativeCapture.prepareFirst := Throw "microphone busy" |}
                NativeCapture.create eq_refl) as (_ & H & _).
  exact (H "microphone busy" eq_refl eq_refl).
Defined.

(** X6. A run of poll cycles from a running native capture: every cycle hands
    its segment, if it has one, to the data callback and its failure, if
    any, to the error callback, in the order of the cycles and the data of
    a cycle before its error; the pipeline is running after every cycle. *)
Theorem capture_cycles_deliver_in_order
    (cycles : list NativeCapture.Cycle) (s : NativeCapture.State) :
  NativeCapture.running s = true →
  let s' := NativeCapture.ticks cycles s in
  NativeCapture.callbacks s' =
    NativeCapture.callbacks s ++
    mbind (λ c, option_list (NativeCapture.OnData <$> NativeCapture.segment c) ++
                option_list (NativeCapture.OnError <$> NativeCapture.failure c)) cycles ∧
  NativeCapture.data s' = NativeCapture.data s ++ omap NativeCapture.segment cycles ∧
  NativeCapture.errors s' = NativeCapture.errors s ++ omap NativeCapture.failure cycles ∧
  NativeCapture.running s' = true.
Proof.
  revert s. induction cycles as [|c cycles IH]; intros s Hrun.
  - simpl. by rewrite !app_nil_r.
  - destruct (capture_tick_running c s Hrun) as [Hcb Hrun1].
    pose proof (capture_tick_data c s Hrun) as Hd.
    pose proof (capture_tick_errors c s Hrun) as He.
    destruct (IH _ Hrun1) as (I1 & I2 & I3 & I4).
    unfold NativeCapture.ticks in *. simpl.
    rewrite I1, I2, I3, Hcb, Hd, He.
    rewrite <- !app_assoc.
    repeat split; try done.
    + by destruct (NativeCapture.segment c).
    + by destruct (NativeCapture.failure c).
Qed.

Lemma capture_cycles_deliver_in_order_witness :
  let cycles := [Examples.good_cycle; Examples.failing_cycle; Examples.good_cycle] in
  let s' := NativeCapture.ticks cycles Examples.capturing in
  NativeCapture.callbacks s' =
    NativeCapture.callbacks Examples.capturing ++
    mbind (λ c, option_list (NativeCapture.OnData <$> NativeCapture.segment c) ++
                option_list (NativeCapture.OnError <$> NativeCapture.failure c)) cycles ∧
  NativeCapture.data s' =
    NativeCapture.data Examples.capturing ++ omap NativeCapture.segment cycles ∧
  NativeCapture.errors s' =
    NativeCapture.errors Examples.capturing ++ omap NativeCapture.failure cycles ∧
  NativeCapture.running s' = true.
Proof.
  apply (capture_cycles_deliver_in_order
           [Examples.good_cycle; Examples.failing_cycle; Examples.good_cycle]
           Examples.capturing).
  reflexivity.
Defined.

(** ** Base64: what [atob] returns *)

Lemma index_of_lt c l n : Base64.index_of c l = Some n → (n < length l)%nat.
Proof.
  revert n. induction l as [|d l IH]; intros n; simpl; [done|].
  destruct (Ascii.eqb c d).
  - intros [= <-]. lia.
  - destruct (Base64.index_of c l) as [k|]; simpl; [|done].
    intros [= <-]. specialize (IH k eq_refl). lia.
Qed.

Lemma decode_sextet_range c n : Base64.decode_sextet c = Some n → 0 <= n < 64.
Proof.
  unfold Base64.decode_sextet.
  destruct (Base64.index_of c Base64.alphabet) as [k|] eqn:E; simpl; [|done].
  intros [= <-]. apply index_of_lt in E. change (length Base64.alphabet) with 64%nat in E. lia.
Qed.

Lemma bytes_of_sextets_bytes ss bs :
  Forall (λ s, 0 <= s < 64) ss →
  Base64.bytes_of_sextets ss = Some bs → Forall is_byte bs.
Proof.
  remember (length ss) as n eqn:Hn. revert ss bs Hn.
  induction (lt_wf n) as [n _ IH]. intros ss bs Hn Hss.
  destruct ss as [|a [|b [|c [|d rest]]]]; simpl.
  - intros [= <-]. constructor.
  - done.
  - intros [= <-]. inversion Hss as [|? ? Ha Hss1]; subst. inversion Hss1 as [|? ? Hb _]; subst.
    repeat constructor; unfold is_byte; Z.div_mod_to_equations; lia.
  - intros [= <-]. inversion Hss as [|? ? Ha Hss1]; subst. inversion Hss1 as [|? ? Hb Hss2]; subst.
    inversion Hss2 as [|? ? Hc _]; subst.
    repeat constructor; unfold is_byte; Z.div_mod_to_equations; lia.
  - inversion Hss as [|? ? Ha Hss1]; subst. inversion Hss1 as [|? ? Hb Hss2]; subst.
    inversion Hss2 as [|? ? Hc Hss3]; subst. inversion Hss3 as [|? ? Hd Hrest]; subst.
    destruct (Base64.bytes_of_sextets rest) as [rest'|] eqn:E; simpl; [|done].
    intros [= <-].
    assert (Hr : Forall is_byte rest').
    { eapply (IH (length rest)); [simpl; lia|reflexivity|exact Hrest|exact E]. }
    repeat constructor; try exact Hr; unfold is_byte; Z.div_mod_to_equations; lia.
Qed.

Lemma atob_bytes s bs : Base64.atob s = Some bs → Forall is_byte bs.
Proof.
  unfold Base64.atob.
  destruct (mapM Base64.decode_sextet _) as [ss|] eqn:E; simpl; [|done].
  apply bytes_of_sextets_bytes.
  apply mapM_Some in E. induction E as [|c n cs ns Hc _ IH]; constructor; [|done].
  by apply decode_sextet_range in Hc.
Qed.

(** ** WAV framing: the file of a chunk *)

Lemma le_bytes_are_bytes n v : Forall is_byte (Wav.le_bytes n v).
Proof.
  revert v. induction n as [|n IH]; intros v; simpl; constructor; [|done].
  unfold is_byte. Z.div_mod_to_equations. lia.
Qed.

Lemma createWavHeader_is_bytes dataLength header :
  Wav.createWavHeader dataLength = Some header →
  length header = 44%nat ∧ Forall is_byte header.
Proof.
  rewrite createWavHeader_bytes. intros [= <-]. split; [reflexivity|].
  repeat (apply Forall_cons; split;
            [unfold is_byte; first [lia | apply Z.mod_pos_bound; lia]|]).
  by apply Forall_nil.
Qed.

(** X3. The file that the native player writes for a queued chunk.  A chunk
    that is not valid base64 gives no file.  Otherwise the file is the
    44-byte header for the decoded payload followed by that payload,
    unchanged; the payload size declared in the header is the number of
    bytes that follow it (for payloads below 2^32 bytes); and the base64
    text handed to the file system decodes to exactly these bytes. *)
Theorem wav_file_is_header_then_payload (base64PCM : string) :
  (Base64.atob base64PCM = None → Wav.wavBytes base64PCM = None) ∧
  (∀ pcmBytes, Base64.atob base64PCM = Some pcmBytes →
     ∃ wavBytes,
       Wav.wavBytes base64PCM = Some wavBytes ∧
       length wavBytes = (Wav.HEADER_LENGTH + length pcmBytes)%nat ∧
       Wav.createWavHeader (Z.of_nat (length pcmBytes)) = Some (take Wav.HEADER_LENGTH wavBytes) ∧
       drop Wav.HEADER_LENGTH wavBytes = pcmBytes ∧
       (Z.of_nat (length pcmBytes) < 2 ^ 32 →
          Wav.dataSizeField (take Wav.HEADER_LENGTH wavBytes) =
            Some (Z.of_nat (length (drop Wav.HEADER_LENGTH wavBytes)))) ∧
       Base64.atob (Wav.uint8ArrayToBase64 wavBytes) = Some wavBytes).
Proof.
  split; [unfold Wav.wavBytes; by intros ->|].
  intros pcmBytes Hpcm.
  destruct (Wav.createWavHeader (Z.of_nat (length pcmBytes))) as [header|] eqn:Hh;
    [|by rewrite createWavHeader_bytes in Hh].
  destruct (createWavHeader_is_bytes _ _ Hh) as [Hlen Hbytes].
  assert (Hw : Wav.wavBytes base64PCM = Some (header ++ pcmBytes)).
  { unfold Wav.wavBytes. rewrite Hpcm. unfold mbind, option_bind. by rewrite Hh. }
  exists (header ++ pcmBytes).
  change Wav.HEADER_LENGTH with 44%nat. rewrite <- Hlen.
  rewrite take_app_length, drop_app_length, length_app.
  split; [done|]. split; [done|]. split; [done|]. split; [done|]. split.
  - intros Hsmall. clear Hw Hbytes Hlen.
    rewrite createWavHeader_bytes in Hh. injection Hh as <-.
    transitivity (Some (Wav.le_value (Wav.le_bytes 4 (Z.of_nat (length pcmBytes) mod 2 ^ 32)))).
    + rewrite !le_bytes_4. reflexivity.
    + f_equal. rewrite le_value_le_bytes_4 by (apply Z.mod_pos_bound; lia).
      apply Z.mod_small. lia.
  - apply atob_btoa. apply Forall_app. split; [done|]. by eapply atob_bytes.
Qed.

Lemma wav_file_is_header_then_payload_witness :
  ∃ wavBytes,
    Wav.wavBytes "AAD/fw==" = Some wavBytes ∧
    length wavBytes = (Wav.HEADER_LENGTH + length [0; 0; 255; 127])%nat ∧
    Wav.createWavHeader (Z.of_nat (length [0; 0; 255; 127])) =
      Some (take Wav.HEADER_LENGTH wavBytes) ∧
    drop Wav.HEADER_LENGTH wavBytes = [0; 0; 255; 127] ∧
    (Z.of_nat (length [0; 0; 255; 127]) < 2 ^ 32 →
       Wav.dataSizeField (take Wav.HEADER_LENGTH wavBytes) =
         Some (Z.of_nat (length (drop Wav.HEADER_LENGTH wavBytes)))) ∧
    Base64.atob (Wav.uint8ArrayToBase64 wavBytes) = Some wavBytes.
Proof.
  destruct (wav_file_is_header_then_payload "AAD/fw==") as [_ H].
  exact (H [0; 0; 255; 127] eq_refl).
Defined.

(** X4. The header written by [createWavHeader] is, for every data length,
    a canonical 44-byte PCM header: the chunk ids RIFF, WAVE, fmt and
    data at offsets 0, 8, 12 and 36, a format chunk of 16 bytes, format
    tag 1 (PCM), one channel, 24000 samples per second, 16 bits per
    sample, block alignment 2 and byte rate 48000 (the sample rate times
    the block alignment), each read back with the getter matching the
    setter that wrote it. *)
Theorem wav_header_describes_mono_16_bit_pcm (dataLength : Z) :
  ∃ header,
    Wav.createWavHeader dataLength = Some header ∧
    length header = Wav.HEADER_LENGTH ∧
    Forall is_byte header ∧
    Wav.getUint32 header 0 false = Some 0x52494646 ∧
    Wav.getUint32 header 8 false = Some 0x57415645 ∧
    Wav.getUint32 header 12 false = Some 0x666D7420 ∧
    Wav.getUint32 header 16 true = Some 16 ∧
    Wav.getUint16 header 20 true = Some 1 ∧
    Wav.getUint16 header 22 true = Some Wav.NUM_CHANNELS ∧
    Wav.getUint32 header 24 true = Some Wav.OUTPUT_SAMPLE_RATE ∧
    Wav.getUint32 header 28 true =
      Some (Wav.OUTPUT_SAMPLE_RATE * Wav.NUM_CHANNELS * (Wav.BITS_PER_SAMPLE / 8)) ∧
    Wav.getUint16 header 32 true = Some (Wav.NUM_CHANNELS * (Wav.BITS_PER_SAMPLE / 8)) ∧
    Wav.getUint16 header 34 true = Some Wav.BITS_PER_SAMPLE ∧
    Wav.getUint32 header 36 false = Some 0x64617461.
Proof.
  destruct (Wav.createWavHeader dataLength) as [header|] eqn:Hh;
    [|by rewrite createWavHeader_bytes in Hh].
  destruct (createWavHeader_is_bytes _ _ Hh) as [Hlen Hbytes].
  exists header. split; [done|]. split; [done|]. split; [done|].
  clear Hlen Hbytes. rewrite createWavHeader_bytes in Hh. injection Hh as <-.
  repeat split; reflexivity.
Qed.

(** ** The PCM codec: decoding any payload *)

Lemma int16_of_bytes_spec bs :
  Forall is_byte bs →
  match Codec.int16_of_bytes bs with
  | Some vs => length bs = (2 * length vs)%nat ∧ Forall (λ v, -32768 <= v <= 32767) vs
  | None => Nat.odd (length bs) = true
  end.
Proof.
  remember (length bs) as n eqn:Hn. revert bs Hn.
  induction (lt_wf n) as [n _ IH]. intros bs Hn Hbs.
  destruct bs as [|lo [|hi rest]]; simpl in *.
  - by subst n.
  - by subst n.
  - inversion Hbs as [|? ? Hlo Hbs1]; subst. inversion Hbs1 as [|? ? Hhi Hrest]; subst.
    specialize (IH (length rest) ltac:(lia) rest eq_refl Hrest).
    destruct (Codec.int16_of_bytes rest) as [vs|]; simpl.
    + destruct IH as [IH1 IH2]. split; [lia|]. constructor; [|done].
      unfold is_byte in *. destruct (lo + 256 * hi <? 32768) eqn:E;
        [apply Z.ltb_lt in E|apply Z.ltb_ge in E]; lia.
    + exact IH.
Qed.

(** X7. Decoding any payload: whenever [base64PCM16ToFloat32] returns, the
    payload decodes to twice as many bytes as there are samples, and every
    sample is a [Float32Array] element equal to v/32768 for a 16-bit value
    v, hence at least -1 and below 1. *)
Theorem decoded_samples_are_sixteen_bit_fractions
    (base64 : string) (float32 : Float32Array) :
  Codec.base64PCM16ToFloat32 base64 = Some float32 →
  (∃ bytes, Base64.atob base64 = Some bytes ∧ length bytes = (2 * length float32)%nat) ∧
  Forall (λ y, Num.is_float32_sample y = true ∧
               (∃ v, -32768 <= v <= 32767 ∧ (Num.value y == v # 32768)%Q) ∧
               (-1 <= Num.value y)%Q ∧ (Num.value y < 1)%Q) float32.
Proof.
  unfold Codec.base64PCM16ToFloat32.
  destruct (Base64.atob base64) as [bs|] eqn:Hb; simpl; [|done].
  pose proof (int16_of_bytes_spec bs (atob_bytes _ _ Hb)) as Hspec.
  destruct (Codec.int16_of_bytes bs) as [vs|]; simpl; [|done].
  destruct Hspec as [Hlen Hvs]. intros [= <-]. split.
  - exists bs. by rewrite length_map.
  - apply Forall_map. eapply Forall_impl; [exact Hvs|].
    intros v Hv. simpl. destruct (decodeSample_value v Hv) as [Hval Hs].
    split; [done|]. split; [by exists v|].
    simpl in Hv. rewrite Hval. unfold Qle, Qlt. simpl. lia.
Qed.

Lemma decoded_samples_are_sixteen_bit_fractions_witness :
  (∃ bytes, Base64.atob "AAD/fwCA" = Some bytes ∧
            length bytes = Nat.mul 2 (length (map Codec.decodeSample [0; 32767; -32768]))) ∧
  Forall (λ y, Num.is_float32_sample y = true ∧
               (∃ v, -32768 <= v <= 32767 ∧ (Num.value y == v # 32768)%Q) ∧
               (-1 <= Num.value y)%Q ∧ (Num.value y < 1)%Q)
         (map Codec.decodeSample [0; 32767; -32768]).
Proof.
  apply (decoded_samples_are_sixteen_bit_fractions "AAD/fwCA").
  reflexivity.
Defined.

(** X8. [base64PCM16ToFloat32] throws in exactly two cases: the payload is not
    valid base64, or it decodes to an odd number of bytes (the RangeError
    of the [Int16Array] constructor). *)
Theorem decoder_rejects_invalid_and_odd_payloads (base64 : string) :
  Codec.base64PCM16ToFloat32 base64 = None ↔
  Base64.atob base64 = None ∨
  ∃ bytes, Base64.atob base64 = Some bytes ∧ Nat.odd (length bytes) = true.
Proof.
  unfold Codec.base64PCM16ToFloat32.
  destruct (Base64.atob base64) as [bs|] eqn:Hb; simpl; [|by split; [left|]].
  pose proof (int16_of_bytes_spec bs (atob_bytes _ _ Hb)) as Hspec.
  destruct (Codec.int16_of_bytes bs) as [vs|]; simpl.
  - destruct Hspec as [Hlen _]. split; [done|].
    intros [|(bs' & [= <-] & Hodd)]; [done|].
    rewrite Hlen, Nat.odd_mul in Hodd. done.
  - split; [|done]. intros _. right. by exists bs.
Qed.

(** ** The PCM codec: the encoder on samples in range, exactly *)

(** In integers: the 16-bit value of a sample in [-1, 1]. *)
Lemma encodeSample_exact x :
  Num.is_float32_sample x = true →
  (-1 <= Num.value x <= 1)%Q →
  (0 <= Num.value x → Codec.encodeSample x = Qfloor (Num.value x * 32767))%Q ∧
  (Num.value x <= 0 → Codec.encodeSample x = Qceiling (Num.value x * 32768))%Q.
Proof.
  intros Hs Hx. destruct x as [s| | |s m e]; try discriminate.
  - rewrite value_zero, encodeSample_zero. split; intros _; reflexivity.
  - destruct (float32_sample_shape _ _ _ Hs) as (Hdig & _ & _).
    destruct (sample_within_unit s m e Hdig Hx) as [He Hm].
    rewrite value_finite_neg_exp by done.
    assert (Hp : 0 < 2 ^ (- e)) by (apply Z.pow_pos_nonneg; lia).
    destruct s.
    + rewrite (encodeSample_neg m e Hs He Hm). split.
      * unfold Qle. cbn [Qnum Qden]. lia.
      * intros _. unfold Qceiling, Qfloor, Qopp, Qmult. cbn [Qnum Qden].
        rewrite Pos.mul_1_r, Z2Pos.id by done.
        change (Z.neg m) with (- Z.pos m).
        replace (- (- Z.pos m * 32768)) with (Z.pos m * 32768) by lia. reflexivity.
    + rewrite (encodeSample_nonneg m e Hs He Hm). split.
      * intros _. unfold Qfloor, Qmult. cbn [Qnum Qden].
        rewrite Pos.mul_1_r, Z2Pos.id by done. reflexivity.
      * unfold Qle. cbn [Qnum Qden]. lia.
Qed.

(** X9. On a sample in [-1, 1] the encoder makes no rounding error of its
    own: the product with 32767 (for a non-negative sample) or 32768 (for
    a negative one) is exact in double precision, so the 16-bit value is
    the exact product truncated toward zero, that is its floor for a
    non-negative sample and its ceiling for a negative one. *)
Theorem encoder_truncates_the_exact_product (x : Num.number) :
  Num.is_float32_sample x = true →
  (-1 <= Num.value x <= 1)%Q →
  (0 <= Num.value x → Codec.encodeSample x = Qfloor (Num.value x * 32767))%Q ∧
  (Num.value x <= 0 → Codec.encodeSample x = Qceiling (Num.value x * 32768))%Q.
Proof. apply encodeSample_exact. Qed.

Lemma encoder_truncates_the_exact_product_witness :
  let x := Num.div (Num.of_Z (-3)) (Num.of_Z 4) in
  (0 <= Num.value x → Codec.encodeSample x = Qfloor (Num.value x * 32767))%Q ∧
  (Num.value x <= 0 → Codec.encodeSample x = Qceiling (Num.value x * 32768))%Q.
Proof.
  apply (encoder_truncates_the_exact_product (Num.div (Num.of_Z (-3)) (Num.of_Z 4))).
  - reflexivity.
  - split; vm_compute; discriminate.
Defined.

(** X10. The encoder preserves the order of samples in [-1, 1]: a larger
    sample never gets a smaller 16-bit value. *)
Theorem encoder_is_monotone (x y : Num.number) :
  Num.is_float32_sample x = true → Num.is_float32_sample y = true →
  (-1 <= Num.value x)%Q → (Num.value x <= Num.value y)%Q → (Num.value y <= 1)%Q →
  Codec.encodeSample x <= Codec.encodeSample y.
Proof.
  intros Hx Hy Hlo Hxy Hhi.
  assert (Rx : (-1 <= Num.value x <= 1)%Q) by (split; [done|by eapply Qle_trans]).
  assert (Ry : (-1 <= Num.value y <= 1)%Q) by (split; [by eapply Qle_trans|done]).
  destruct (encodeSample_exact x Hx Rx) as [Xp Xn].
  destruct (encodeSample_exact y Hy Ry) as [Yp Yn].
  destruct (Qlt_le_dec (Num.value x) 0) as [Hxn|Hxp].
  - rewrite (Xn (Qlt_le_weak _ _ Hxn)).
    destruct (Qlt_le_dec (Num.value y) 0) as [Hyn|Hyp].
    + rewrite (Yn (Qlt_le_weak _ _ Hyn)). apply Qceiling_resp_le. lra.
    + rewrite (Yp Hyp).
      transitivity (Qceiling 0); [apply Qceiling_resp_le; lra|].
      transitivity (Qfloor 0); [done|apply Qfloor_resp_le; lra].
  - assert (Hyp : (0 <= Num.value y)%Q) by lra.
    rewrite (Xp Hxp), (Yp Hyp). apply Qfloor_resp_le. lra.
Qed.

Lemma encoder_is_monotone_witness :
  Codec.encodeSample (Num.div (Num.of_Z (-3)) (Num.of_Z 4)) <=
  Codec.encodeSample (Num.div (Num.of_Z 1) (Num.of_Z 8)).
Proof.
  apply (encoder_is_monotone (Num.div (Num.of_Z (-3)) (Num.of_Z 4))
                             (Num.div (Num.of_Z 1) (Num.of_Z 8))).
  - reflexivity.
  - reflexivity.
  - vm_compute. discriminate.
  - vm_compute. discriminate.
  - vm_compute. discriminate.
Defined.

(** X11. Encoding what the decoder produced does not give the 16-bit value
    back for positive values: a value v > 0 comes back as v - 1, because
    the decoder divides by 32768 and the encoder multiplies by 32767 and
    truncates; zero and the negative values come back unchanged. *)
Theorem reencoding_a_decoded_value (v : Z) :
  -32768 <= v <= 32767 →
  Codec.encodeSample (Codec.decodeSample v) = if 0 <? v then v - 1 else v.
Proof.
  intros Hv.
  destruct (decodeSample_value v Hv) as [Hval Hs].
  assert (Hr : (-1 <= Num.value (Codec.decodeSample v) <= 1)%Q).
  { rewrite Hval. unfold Qle. simpl. lia. }
  destruct (encodeSample_exact _ Hs Hr) as [Hp Hn].
  destruct (0 <? v) eqn:E; [apply Z.ltb_lt in E|apply Z.ltb_ge in E].
  - rewrite Hp by (rewrite Hval; unfold Qle; simpl; lia).
    rewrite Hval. unfold Qfloor, Qmult. cbn [Qnum Qden].
    change (Z.pos (32768 * 1)) with 32768.
    symmetry. apply (Z.div_unique _ _ _ (32768 - v)); lia.
  - rewrite Hn by (rewrite Hval; unfold Qle; simpl; lia).
    rewrite Hval. unfold Qceiling, Qfloor, Qopp, Qmult. cbn [Qnum Qden].
    change (Z.pos (32768 * 1)) with 32768.
    replace (- (v * 32768)) with (- v * 32768) by lia.
    rewrite Z.div_mul by lia. lia.
Qed.

Lemma reencoding_a_decoded_value_witness :
  Codec.encodeSample (Codec.decodeSample 12345) = if 0 <? 12345 then 12345 - 1 else 12345.
Proof. apply (reencoding_a_decoded_value 12345). lia. Defined.

(** ** The PCM codec: arrays through the transport encoding *)

Lemma string_of_list_ascii_length l :
  String.length (String.string_of_list_ascii l) = length l.
Proof. induction l as [|c l IH]; simpl; [done|by rewrite IH]. Qed.

Lemma btoa_length_exact bs :
  String.length (Base64.btoa bs) = (4 * ((length bs + 2) / 3))%nat.
Proof.
  unfold Base64.btoa. rewrite string_of_list_ascii_length, length_app, length_map.
  induction bs as [| a | a b | a b c l IH] using list_ind3; try reflexivity.
  cbn [Base64.sextets length]. rewrite padding_plus_3.
  replace (S (S (S (length l))) + 2)%nat with (length l + 2 + 1 * 3)%nat by lia.
  rewrite Nat.div_add by lia. lia.
Qed.

Lemma int16_bytes_length vs : length (mbind Codec.int16_bytes vs) = (2 * length vs)%nat.
Proof.
  induction vs as [|v vs IH]; [done|].
  change (length (Codec.int16_bytes v ++ mbind Codec.int16_bytes vs) =
          (2 * length (v :: vs))%nat).
  rewrite length_app, IH. simpl. lia.
Qed.

Lemma float32ToBase64PCM16_length float32 :
  String.length (Codec.float32ToBase64PCM16 float32) =
    (4 * ((2 * length float32 + 2) / 3))%nat.
Proof.
  unfold Codec.float32ToBase64PCM16.
  by rewrite btoa_length_exact, int16_bytes_length, length_map.
Qed.

(** X12. A whole array through the transport encoding, whatever it holds (NaN
    and infinities included): n samples become a base64 text of
    4 * ceil(2n / 3) characters, and decoding that text gives n samples
    again, the i-th being exactly the 16-bit value of the i-th input
    sample divided by 32768. *)
Theorem transport_round_trip_of_an_array (float32 : Float32Array) :
  let payload := Codec.float32ToBase64PCM16 float32 in
  String.length payload = (4 * ((2 * length float32 + 2) / 3))%nat ∧
  ∃ decoded,
    Codec.base64PCM16ToFloat32 payload = Some decoded ∧
    length decoded = length float32 ∧
    Forall2 (λ x y, Num.is_float32_sample y = true ∧
                    (Num.value y == Codec.encodeSample x # 32768)%Q)
            float32 decoded.
Proof.
  cbv zeta. split.
  - apply float32ToBase64PCM16_length.
  - eexists. split; [apply codec_round_trip_per_sample|].
    split; [by rewrite length_map|].
    apply Forall2_fmap_r, Forall_Forall2_diag, Forall_forall.
    intros x _. destruct (decodeSample_value (Codec.encodeSample x) (to_int16_range _)).
    done.
Qed.

Section SessionFacts.
Import VoiceSession.
Variable tools : Tools.

Lemma handleToolCalls_sent calls w :
  session w = None → sent (snd (handleToolCalls tools calls w)) = sent w.
Proof.
  intros Hs. unfold handleToolCalls, bind.
  destruct (collectResponses_frame tools calls [] w) as [l Hl].
  destruct (collectResponses tools calls [] w) as [[rs|e] w1]; simpl in *; subst w1; [|done].
  simpl. rewrite Hs. rewrite andb_false_r. done.
Qed.

Lemma handleParts_player parts w :
  let w' := foldl (λ w part, handlePart part w) w parts in
  audioCapture w' = audioCapture w ∧
  settings (storage w') = settings (storage w) ∧
  audioPlayer w' =
    foldl (λ p d, NativePlayer.play d <$> p) (audioPlayer w)
          (map (λ p, default "" (inlineData p ≫= data))
               (filter (λ p, isAudioPart p = true) parts)).
Proof.
  revert w. induction parts as [|p parts IH]; intros w; [done|].
  cbn [foldl]. destruct (IH (handlePart p w)) as (-> & -> & ->).
  rewrite filter_cons. unfold handlePart.
  destruct (isAudioPart p) eqn:Hp.
  - rewrite decide_True by done. done.
  - rewrite decide_False by congruence. done.
Qed.

Lemma handleServerMessage_frame message w :
  let w' := handleServerMessage tools message w in
  session w' = session w ∧
  audioCapture w' = audioCapture w ∧
  realtimeStatus (storage w') = realtimeStatus (storage w) ∧
  settings (storage w') = settings (storage w) ∧
  (session w = None → sent w' = sent w).
Proof.
  unfold handleServerMessage.
  set (w1 := match parts_of message with
             | Some parts => foldl _ w parts
             | None => w
             end).
  assert (H1 : session w1 = session w ∧ sent w1 = sent w ∧
               realtimeStatus (storage w1) = realtimeStatus (storage w) ∧
               audioCapture w1 = audioCapture w ∧
               settings (storage w1) = settings (storage w)).
  { subst w1. destruct (parts_of message) as [parts|]; [|done].
    destruct (handleParts_frame parts w) as (A & B & _ & _ & C).
    destruct (handleParts_player parts w) as (D & E & _). done. }
  destruct H1 as (A & B & C & D & E).
  set (w2 := if signalsTurnComplete message then setRealtimeMode Idle false w1 else w1).
  assert (H2 : session w2 = session w ∧ sent w2 = sent w ∧
               realtimeStatus (storage w2) = realtimeStatus (storage w) ∧
               audioCapture w2 = audioCapture w ∧
               settings (storage w2) = settings (storage w)).
  { subst w2. destruct (signalsTurnComplete message); [|done].
    unfold setRealtimeMode, set_storage. cbn [session sent storage audioCapture].
    by rewrite writeMode_status, writeMode_settings. }
  clearbody w2. clear A B C D E. destruct H2 as (A & B & C & D & E).
  destruct (functionCalls_of message) as [calls|]; [|done].
  pose proof (handleToolCalls_frame tools calls w2) as (F1 & _ & F3 & F4 & _ & _).
  pose proof (handleToolCalls_sent calls w2) as F6.
  destruct (handleToolCalls tools calls w2) as [[[]|e] w3]; simpl in *;
    rewrite F1, F3, F4, A, C, D, E; repeat split; try done;
    intros Hn; rewrite F6; congruence.
Qed.

End SessionFacts.

Lemma step_without_connection tools ev w :
  VoiceSession.session w = None →
  VoiceSession.session (SessionRun.step tools ev w) = None ∧
  VoiceSession.sent (SessionRun.step tools ev w) = VoiceSession.sent w.
Proof.
  intros Hs. destruct ev; simpl.
  - unfold VoiceSession.sendTextMessage. by rewrite Hs.
  - unfold VoiceSession.sendContextualUpdate. by rewrite Hs.
  - unfold SessionRun.pollCapture. destruct (VoiceSession.audioCapture w) as [c|]; [|done].
    generalize (drop (length (NativeCapture.callbacks c))
                  (NativeCapture.callbacks (NativeCapture.tick cycle c))).
    intros cbs.
    assert (H : ∀ w0, VoiceSession.session w0 = None →
              VoiceSession.session (foldl (λ w cb, VoiceSession.deliver cb w) w0 cbs) = None ∧
              VoiceSession.sent (foldl (λ w cb, VoiceSession.deliver cb w) w0 cbs) =
                VoiceSession.sent w0).
    { induction cbs as [|cb cbs IH]; intros w0 H0; [done|].
      cbn [foldl].
      assert (H1 : VoiceSession.session (VoiceSession.deliver cb w0) = None ∧
                   VoiceSession.sent (VoiceSession.deliver cb w0) = VoiceSession.sent w0).
      { destruct cb; simpl; [|done]. unfold VoiceSession.onData. by rewrite H0. }
      destruct H1 as [H1 H2]. destruct (IH _ H1) as [I1 I2]. by rewrite I1, I2. }
    destruct (H (VoiceSession.set_audioCapture (Some (NativeCapture.tick cycle c)) w) Hs)
      as [H1 H2].
    by rewrite H1, H2.
  - unfold VoiceSession.onmessage, VoiceSession.callback.
    destruct (handleServerMessage_frame tools message (VoiceSession.release w))
      as (A & _ & _ & _ & B).
    rewrite A. split; [done|]. by apply B.
  - done.
  - done.
Qed.

Lemma run_without_connection tools evs w :
  VoiceSession.session w = None →
  VoiceSession.session (SessionRun.run tools evs w) = None ∧
  VoiceSession.sent (SessionRun.run tools evs w) = VoiceSession.sent w.
Proof.
  revert w. induction evs as [|ev evs IH]; intros w Hs; [done|].
  destruct (step_without_connection tools ev w Hs) as [H1 H2].
  destruct (IH _ H1) as [I1 I2]. unfold SessionRun.run in *. simpl.
  by rewrite I1, I2.
Qed.

(** X14. [endSession] never fails and always leaves the session object
    disconnected: whether or not there was a connection and whether or
    not closing it throws, the connection handle and both audio pipelines
    are cleared, [disconnected] and then a forced [idle] are published,
    and a close goes out only if there was a connection and closing did
    not throw.  Afterwards nothing is sent any more: text messages,
    context updates, captured audio and tool results that still arrive
    find no connection. *)
Theorem endSession_always_disconnects
    (closeResult : result unit) (w : VoiceSession.World) :
  let r := fst (VoiceSession.endSession closeResult w) in
  let w' := snd (VoiceSession.endSession closeResult w) in
  r = Ok tt ∧
  VoiceSession.session w' = None ∧
  VoiceSession.audioCapture w' = None ∧
  VoiceSession.audioPlayer w' = None ∧
  VoiceSession.realtimeStatus (VoiceSession.storage w') = VoiceSession.Disconnected ∧
  VoiceSession.realtimeMode (VoiceSession.storage w') = VoiceSession.Idle ∧
  VoiceSession.published w' =
    VoiceSession.published w ++
    [VoiceSession.SetStatus VoiceSession.Disconnected;
     VoiceSession.SetMode VoiceSession.Idle true] ∧
  VoiceSession.sent w' =
    VoiceSession.sent w ++
    match VoiceSession.session w, closeResult with
    | Some _, Ok _ => [VoiceSession.Close]
    | _, _ => []
    end ∧
  ∀ tools evs, VoiceSession.sent (SessionRun.run tools evs w') = VoiceSession.sent w'.
Proof.
  cbv zeta.
  assert (H : fst (VoiceSession.endSession closeResult w) = Ok tt ∧
    VoiceSession.session (snd (VoiceSession.endSession closeResult w)) = None ∧
    VoiceSession.audioCapture (snd (VoiceSession.endSession closeResult w)) = None ∧
    VoiceSession.audioPlayer (snd (VoiceSession.endSession closeResult w)) = None ∧
    VoiceSession.realtimeStatus (VoiceSession.storage
      (snd (VoiceSession.endSession closeResult w))) = VoiceSession.Disconnected ∧
    VoiceSession.realtimeMode (VoiceSession.storage
      (snd (VoiceSession.endSession closeResult w))) = VoiceSession.Idle ∧
    VoiceSession.published (snd (VoiceSession.endSession closeResult w)) =
      VoiceSession.published w ++
      [VoiceSession.SetStatus VoiceSession.Disconnected;
       VoiceSession.SetMode VoiceSession.Idle true] ∧
    VoiceSession.sent (snd (VoiceSession.endSession closeResult w)) =
      VoiceSession.sent w ++
      match VoiceSession.session w, closeResult with
      | Some _, Ok _ => [VoiceSession.Close]
      | _, _ => []
      end).
  { unfold VoiceSession.endSession, bind, get, try_catch, when, modify, await, ret.
    destruct w as [st pub [conn|] cap pl snt inv unh]; destruct closeResult as [[]|e];
      simpl; rewrite ?app_nil_r, <- ?app_assoc; done. }
  destruct H as (H1 & H2 & H3 & H4 & H5 & H6 & H7 & H8).
  repeat split; try done.
  intros tools evs. by apply run_without_connection.
Qed.

(** ** [startSession]: success and failure *)

Lemma truthy_Some_key (k : option string) :
  truthy k = true → ∃ key, k = Some key ∧ key ≠ "".
Proof.
  destruct k as [key|]; [|done]. simpl. intros H. exists key. split; [done|].
  intros ->. done.
Qed.

(** X15. With an API key configured, the audio mode set for the player, the
    first recorder prepared and the connection opened, [startSession]
    resolves with the session connected: a new player and a running
    capture pipeline, a connection made with the configured key (and the
    configured base URL, if it is non-empty), the statuses [connecting]
    and [connected] and the turn mode [idle] published in this order, and
    the initial context, if there is one, sent exactly as
    [sendContextualUpdate] sends an update. *)
Theorem startSession_connects_with_a_key
    (config : VoiceSession.VoiceSessionConfig) (env : VoiceSession.StartEnv)
    (w : VoiceSession.World) :
  let settings := VoiceSession.settings (VoiceSession.storage w) in
  truthy (VoiceSession.geminiApiKey settings) = true →
  VoiceSession.playerAudioMode env = Ok tt →
  NativeCapture.setAudioMode (VoiceSession.captureEnv env) = Ok tt →
  NativeCapture.prepareFirst (VoiceSession.captureEnv env) = Ok tt →
  VoiceSession.connect env = Ok tt →
  let r := fst (VoiceSession.startSession config env w) in
  let w' := snd (VoiceSession.startSession config env w) in
  r = Ok tt ∧
  VoiceSession.realtimeStatus (VoiceSession.storage w') = VoiceSession.Connected ∧
  VoiceSession.realtimeMode (VoiceSession.storage w') = VoiceSession.Idle ∧
  VoiceSession.published w' =
    VoiceSession.published w ++
    [VoiceSession.SetStatus VoiceSession.Connecting;
     VoiceSession.SetStatus VoiceSession.Connected;
     VoiceSession.SetMode VoiceSession.Idle false] ∧
  VoiceSession.session w' =
    Some {| VoiceSession.apiKey := default "" (VoiceSession.geminiApiKey settings);
            VoiceSession.baseUrl :=
              if truthy (VoiceSession.geminiBaseUrl settings)
              then VoiceSession.geminiBaseUrl settings else None |} ∧
  VoiceSession.audioPlayer w' = Some (NativePlayer.start NativePlayer.create) ∧
  (NativeCapture.running <$> VoiceSession.audioCapture w') = Some true ∧
  (NativeCapture.callbacks <$> VoiceSession.audioCapture w') = Some [] ∧
  VoiceSession.sent w' =
    VoiceSession.sent w ++
    (if truthy (VoiceSession.initialContext config)
     then [VoiceSession.ClientContent
             ("[CONTEXT UPDATE] " +:+ default "" (VoiceSession.initialContext config)) true]
     else []) ∧
  (∀ context, VoiceSession.initialContext config = Some context → context ≠ "" →
     VoiceSession.sent w' =
     VoiceSession.sent (VoiceSession.sendContextualUpdate context
                          (VoiceSession.set_session (VoiceSession.session w') w))).
Proof.
  intros settings Hkey Hp Hm Hf Hc. subst settings.
  unfold VoiceSession.startSession.
  unfold bind, modify, get, try_catch, when, await, ret, throw.
  cbn [VoiceSession.setRealtimeStatus VoiceSession.set_storage VoiceSession.storage
       VoiceSession.settings].
  rewrite Hkey, Hp, Hc. cbn [negb].
  unfold VoiceSession.startCapture, NativeCapture.start, NativeCapture.startRecordingCycle.
  unfold bind, modify, get, try_catch, when, await, ret, throw.
  rewrite Hm, Hf.
  destruct w as [st pub conn cap pl snt inv unh].
  destruct config as [sid [ctx|]]; simpl.
  - destruct (String.eqb ctx "") eqn:E; simpl;
      rewrite <- ?app_assoc, ?app_nil_r; repeat split; try done.
    + intros context [= <-] Hne. apply String.eqb_eq in E. done.
    + by intros context [= <-] _.
  - rewrite <- ?app_assoc, ?app_nil_r. repeat split; done.
Qed.

Lemma startSession_connects_with_a_key_witness :
  let config := {| VoiceSession.sessionId := "s1";
                   VoiceSession.initialContext := Some "repo: happy" |} in
  let w := VoiceSession.fresh (Examples.store (Some "key")) in
  let settings := VoiceSession.settings (VoiceSession.storage w) in
  let r := fst (VoiceSession.startSession config Examples.start_succeeds w) in
  let w' := snd (VoiceSession.startSession config Examples.start_succeeds w) in
  r = Ok tt ∧
  VoiceSession.realtimeStatus (VoiceSession.storage w') = VoiceSession.Connected ∧
  VoiceSession.realtimeMode (VoiceSession.storage w') = VoiceSession.Idle ∧
  VoiceSession.published w' =
    VoiceSession.published w ++
    [VoiceSession.SetStatus VoiceSession.Connecting;
     VoiceSession.SetStatus VoiceSession.Connected;
     VoiceSession.SetMode VoiceSession.Idle false] ∧
  VoiceSession.session w' =
    Some {| VoiceSession.apiKey := default "" (VoiceSession.geminiApiKey settings);
            VoiceSession.baseUrl :=
              if truthy (VoiceSession.geminiBaseUrl settings)
              then VoiceSession.geminiBaseUrl settings else None |} ∧
  VoiceSession.audioPlayer w' = Some (NativePlayer.start NativePlayer.create) ∧
  (NativeCapture.running <$> VoiceSession.audioCapture w') = Some true ∧
  (NativeCapture.callbacks <$> VoiceSession.audioCapture w') = Some [] ∧
  VoiceSession.sent w' =
    VoiceSession.sent w ++
    (if truthy (VoiceSession.initialContext config)
     then [VoiceSession.ClientContent
             ("[CONTEXT UPDATE] " +:+ default "" (VoiceSession.initialContext config)) true]
     else []) ∧
  (∀ context, VoiceSession.initialContext config = Some context → context ≠ "" →
     VoiceSession.sent w' =
     VoiceSession.sent (VoiceSession.sendContextualUpdate context
                          (VoiceSession.set_session (VoiceSession.session w') w))).
Proof.
  apply (startSession_connects_with_a_key
           {| VoiceSession.sessionId := "s1";
              VoiceSession.initialContext := Some "repo: happy" |}
           Examples.start_succeeds
           (VoiceSession.fresh (Examples.store (Some "key")))); reflexivity.
Defined.

(** X16. When [startSession] fails after the key check, what is left behind
    depends on the step that failed.  If setting the audio mode for the
    player fails, the error is thrown as it is and no [error] status is
    published: the status stays [connecting].  If starting the capture
    fails, the player is stopped, [error] is published and the error is
    thrown again.  If opening the connection fails, capture and player
    are both stopped, [error] is published and the error is thrown again.
    In all three cases the connection handle is left as it was and
    nothing is sent. *)
Theorem startSession_failure_leaves_no_connection
    (config : VoiceSession.VoiceSessionConfig) (env : VoiceSession.StartEnv)
    (w : VoiceSession.World) (e : Exn) :
  truthy (VoiceSession.geminiApiKey (VoiceSession.settings (VoiceSession.storage w))) = true →
  let r := fst (VoiceSession.startSession config env w) in
  let w' := snd (VoiceSession.startSession config env w) in
  (VoiceSession.playerAudioMode env = Throw e →
     r = Throw e ∧
     VoiceSession.published w' =
       VoiceSession.published w ++ [VoiceSession.SetStatus VoiceSession.Connecting] ∧
     VoiceSession.realtimeStatus (VoiceSession.storage w') = VoiceSession.Connecting ∧
     VoiceSession.audioPlayer w' = Some (NativePlayer.start NativePlayer.create) ∧
     VoiceSession.audioCapture w' = VoiceSession.audioCapture w ∧
     VoiceSession.session w' = VoiceSession.session w ∧
     VoiceSession.sent w' = VoiceSession.sent w) ∧
  (VoiceSession.playerAudioMode env = Ok tt →
   NativeCapture.setAudioMode (VoiceSession.captureEnv env) = Throw e →
     r = Throw e ∧
     VoiceSession.published w' =
       VoiceSession.published w ++
       [VoiceSession.SetStatus VoiceSession.Connecting;
        VoiceSession.SetStatus VoiceSession.StatusError] ∧
     VoiceSession.realtimeStatus (VoiceSession.storage w') = VoiceSession.StatusError ∧
     (NativePlayer.stopped <$> VoiceSession.audioPlayer w') = Some true ∧
     (NativeCapture.running <$> VoiceSession.audioCapture w') = Some false ∧
     VoiceSession.session w' = VoiceSession.session w ∧
     VoiceSession.sent w' = VoiceSession.sent w) ∧
  (VoiceSession.playerAudioMode env = Ok tt →
   NativeCapture.setAudioMode (VoiceSession.captureEnv env) = Ok tt →
   NativeCapture.prepareFirst (VoiceSession.captureEnv env) = Ok tt →
   VoiceSession.connect env = Throw e →
     r = Throw e ∧
     VoiceSession.published w' =
       VoiceSession.published w ++
       [VoiceSession.SetStatus VoiceSession.Connecting;
        VoiceSession.SetStatus VoiceSession.StatusError] ∧
     VoiceSession.realtimeStatus (VoiceSession.storage w') = VoiceSession.StatusError ∧
     (NativePlayer.stopped <$> VoiceSession.audioPlayer w') = Some true ∧
     (NativeCapture.stopped <$> VoiceSession.audioCapture w') = Some true ∧
     (NativeCapture.running <$> VoiceSession.audioCapture w') = Some false ∧
     VoiceSession.session w' = VoiceSession.session w ∧
     VoiceSession.sent w' = VoiceSession.sent w).
Proof.
  intros Hkey. cbv zeta.
  unfold VoiceSession.startSession.
  unfold bind, modify, get, try_catch, when, await, ret, throw.
  cbn [VoiceSession.setRealtimeStatus VoiceSession.set_storage VoiceSession.storage
       VoiceSession.settings].
  rewrite Hkey. cbn [negb].
  unfold VoiceSession.startCapture, NativeCapture.start, NativeCapture.startRecordingCycle.
  unfold bind, modify, get, try_catch, when, await, ret, throw.
  destruct w as [st pub conn cap pl snt inv unh].
  split; [|split].
  - intros ->. simpl. done.
  - intros -> ->. simpl. rewrite <- ?app_assoc. done.
  - intros -> -> -> ->. simpl. rewrite <- ?app_assoc. done.
Qed.

Lemma startSession_failure_leaves_no_connection_witness :
  let config := {| VoiceSession.sessionId := "s1"; VoiceSession.initialContext := None |} in
  let env := {| VoiceSession.playerAudioMode := Ok tt;
                VoiceSession.captureEnv :=
                  {| NativeCapture.setAudioMode := Ok tt;
                     NativeCapture.prepareFirst := Ok tt |};
                VoiceSession.connect := Throw "network down" |} in
  let w := VoiceSession.fresh (Examples.store (Some "key")) in
  let r := fst (VoiceSession.startSession config env w) in
  let w' := snd (VoiceSession.startSession config env w) in
  r = Throw "network down" ∧
  VoiceSession.published w' =
    VoiceSession.published w ++
    [VoiceSession.SetStatus VoiceSession.Connecting;
     VoiceSession.SetStatus VoiceSession.StatusError] ∧
  VoiceSession.realtimeStatus (VoiceSession.storage w') = VoiceSession.StatusError ∧
  (NativePlayer.stopped <$> VoiceSession.audioPlayer w') = Some true ∧
  (NativeCapture.stopped <$> VoiceSession.audioCapture w') = Some true ∧
  (NativeCapture.running <$> VoiceSession.audioCapture w') = Some false ∧
  VoiceSession.session w' = VoiceSession.session w ∧
  VoiceSession.sent w' = VoiceSession.sent w.
Proof.
  pose proof (startSession_failure_leaves_no_connection
    {| VoiceSession.sessionId := "s1"; VoiceSession.initialContext := None |}
    {| VoiceSession.playerAudioMode := Ok tt;
       VoiceSession.captureEnv :=
         {| NativeCapture.setAudioMode := Ok tt;
            NativeCapture.prepareFirst := Ok tt |};
       VoiceSession.connect := Throw "network down" |}
    (VoiceSession.fresh (Examples.store (Some "key"))) "network down" eq_refl)
    as (_ & _ & H).
  exact (H eq_refl eq_refl eq_refl eq_refl).
Defined.



(** ** Inbound messages and captured audio *)

(** X18. What an inbound message does, whatever it carries.  The payloads of
    its inline audio parts, and only those, are handed to the player in
    the order of the parts; [speaking] is published once per audio part
    and then [idle], not forced, if the message signals turn completion.
    The message never changes the connection handle, the capture
    pipeline, the status or the settings. *)
Theorem server_message_updates_player_and_turn_mode
    (tools : VoiceSession.Tools) (message : VoiceSession.LiveServerMessage)
    (w : VoiceSession.World) :
  let w' := VoiceSession.handleServerMessage tools message w in
  VoiceSession.audioPlayer w' =
    foldl (λ p d, NativePlayer.play d <$> p) (VoiceSession.audioPlayer w)
          (SessionRun.audio_data message) ∧
  VoiceSession.published w' =
    VoiceSession.published w ++
    replicate (length (VoiceSession.audio_parts message))
              (VoiceSession.SetMode VoiceSession.Speaking false) ++
    (if VoiceSession.signalsTurnComplete message
     then [VoiceSession.SetMode VoiceSession.Idle false] else []) ∧
  VoiceSession.session w' = VoiceSession.session w ∧
  VoiceSession.audioCapture w' = VoiceSession.audioCapture w ∧
  VoiceSession.realtimeStatus (VoiceSession.storage w') =
    VoiceSession.realtimeStatus (VoiceSession.storage w) ∧
  VoiceSession.settings (VoiceSession.storage w') =
    VoiceSession.settings (VoiceSession.storage w).
Proof.
  cbv zeta.
  destruct (handleServerMessage_frame tools message w) as (F1 & F2 & F3 & F4 & _).
  rewrite F1, F2, F3, F4.
  unfold VoiceSession.handleServerMessage, SessionRun.audio_data, VoiceSession.audio_parts.
  set (w1 := match VoiceSession.parts_of message with
             | Some parts => foldl _ w parts
             | None => w
             end).
  set (ps := filter (λ p, VoiceSession.isAudioPart p = true)
               (default [] (VoiceSession.parts_of message))).
  assert (H1 : VoiceSession.audioPlayer w1 =
                 foldl (λ p d, NativePlayer.play d <$> p) (VoiceSession.audioPlayer w)
                   (map (λ p, default "" (VoiceSession.inlineData p ≫= VoiceSession.data)) ps) ∧
               VoiceSession.published w1 =
                 VoiceSession.published w ++
                 replicate (length ps) (VoiceSession.SetMode VoiceSession.Speaking false)).
  { subst w1 ps. destruct (VoiceSession.parts_of message) as [parts|]; simpl.
    - destruct (handleParts_player parts w) as (_ & _ & ->).
      by rewrite handleParts_published.
    - by rewrite app_nil_r. }
  destruct H1 as (A & B).
  set (w2 := if VoiceSession.signalsTurnComplete message
             then VoiceSession.setRealtimeMode VoiceSession.Idle false w1 else w1).
  assert (H2 : VoiceSession.audioPlayer w2 = VoiceSession.audioPlayer w1 ∧
               VoiceSession.published w2 =
                 VoiceSession.published w1 ++
                 (if VoiceSession.signalsTurnComplete message
                  then [VoiceSession.SetMode VoiceSession.Idle false] else [])).
  { subst w2. destruct (VoiceSession.signalsTurnComplete message);
      [done|by rewrite app_nil_r]. }
  destruct H2 as (A2 & B2). rewrite A in A2. rewrite B, <- app_assoc in B2.
  clearbody w2.
  destruct (VoiceSession.functionCalls_of message) as [calls|]; [|done].
  pose proof (handleToolCalls_frame tools calls w2) as (_ & G2 & _ & _ & G5 & _).
  destruct (VoiceSession.handleToolCalls tools calls w2) as [[[]|e] w3]; simpl in *;
    by rewrite G2, G5.
Qed.

Lemma pollCapture_running cycle w c :
  VoiceSession.audioCapture w = Some c →
  NativeCapture.running c = true →
  SessionRun.pollCapture cycle w =
    foldl (λ w cb, VoiceSession.deliver cb w)
      (VoiceSession.set_audioCapture (Some (NativeCapture.tick cycle c)) w)
      (option_list (NativeCapture.OnData <$> NativeCapture.segment cycle) ++
       option_list (NativeCapture.OnError <$> NativeCapture.failure cycle)) ∧
  NativeCapture.running (NativeCapture.tick cycle c) = true.
Proof.
  intros Hc Hrun. unfold SessionRun.pollCapture. rewrite Hc.
  destruct (capture_tick_running cycle c Hrun) as [Hcb Hrun1].
  rewrite Hcb, drop_app_length. done.
Qed.

(** X19. While the session is connected and its capture pipeline runs, every
    poll cycle forwards its segment, if it has one, to the connection as
    realtime input of type audio/pcm;rate=16000, in the order of the
    cycles.  A failing cycle publishes the status [error] (which then
    stays), but neither closes the connection nor stops the capture:
    later segments are still forwarded. *)
Theorem captured_segments_are_forwarded
    (cycles : list NativeCapture.Cycle) (w : VoiceSession.World)
    (c : NativeCapture.State) (conn : VoiceSession.Connection) :
  VoiceSession.audioCapture w = Some c →
  NativeCapture.running c = true →
  VoiceSession.session w = Some conn →
  let w' := foldl (λ w cycle, SessionRun.pollCapture cycle w) w cycles in
  VoiceSession.sent w' =
    VoiceSession.sent w ++
    map (λ d, VoiceSession.RealtimeInput d "audio/pcm;rate=16000")
        (omap NativeCapture.segment cycles) ∧
  VoiceSession.realtimeStatus (VoiceSession.storage w') =
    match omap NativeCapture.failure cycles with
    | [] => VoiceSession.realtimeStatus (VoiceSession.storage w)
    | _ => VoiceSession.StatusError
    end ∧
  VoiceSession.session w' = Some conn ∧
  (NativeCapture.running <$> VoiceSession.audioCapture w') = Some true.
Proof.
  revert w c. induction cycles as [|cy cycles IH]; intros w c Hc Hrun Hs.
  - simpl. rewrite app_nil_r, Hc. simpl. by rewrite Hrun.
  - cbn [foldl]. destruct (pollCapture_running cy w c Hc Hrun) as [Hpoll Hrun1].
    set (w1 := SessionRun.pollCapture cy w) in *.
    assert (H1 : VoiceSession.audioCapture w1 = Some (NativeCapture.tick cy c) ∧
                 VoiceSession.session w1 = Some conn ∧
                 VoiceSession.sent w1 =
                   VoiceSession.sent w ++
                   map (λ d, VoiceSession.RealtimeInput d "audio/pcm;rate=16000")
                       (option_list (NativeCapture.segment cy)) ∧
                 VoiceSession.realtimeStatus (VoiceSession.storage w1) =
                   match NativeCapture.failure cy with
                   | None => VoiceSession.realtimeStatus (VoiceSession.storage w)
                   | Some _ => VoiceSession.StatusError
                   end).
    { rewrite Hpoll. unfold VoiceSession.deliver, VoiceSession.onData, VoiceSession.onError.
      destruct (NativeCapture.segment cy) as [d|], (NativeCapture.failure cy) as [e|];
        simpl; rewrite ?Hs, ?app_nil_r; simpl; rewrite ?Hs; done. }
    destruct H1 as (A & B & C & D).
    destruct (IH w1 _ A Hrun1 B) as (I1 & I2 & I3 & I4).
    rewrite I1, I2, I3, I4, C, D. rewrite <- app_assoc, <- map_app.
    repeat split; try done.
    + simpl. by destruct (NativeCapture.segment cy).
    + simpl. destruct (NativeCapture.failure cy); simpl; [|done].
      by destruct (omap NativeCapture.failure cycles).
Qed.

Lemma captured_segments_are_forwarded_witness :
  let cycles := [Examples.good_cycle; Examples.failing_cycle; Examples.good_cycle] in
  let w' := foldl (λ w cycle, SessionRun.pollCapture cycle w) Examples.connected cycles in
  VoiceSession.sent w' =
    VoiceSession.sent Examples.connected ++
    map (λ d, VoiceSession.RealtimeInput d "audio/pcm;rate=16000")
        (omap NativeCapture.segment cycles) ∧
  VoiceSession.realtimeStatus (VoiceSession.storage w') =
    match omap NativeCapture.failure cycles with
    | [] => VoiceSession.realtimeStatus (VoiceSession.storage Examples.connected)
    | _ => VoiceSession.StatusError
    end ∧
  VoiceSession.session w' = Some {| VoiceSession.apiKey := "key"; VoiceSession.baseUrl := None |} ∧
  (NativeCapture.running <$> VoiceSession.audioCapture w') = Some true.
Proof.
  apply (captured_segments_are_forwarded
           [Examples.good_cycle; Examples.failing_cycle; Examples.good_cycle]
           Examples.connected Examples.capturing
           {| VoiceSession.apiKey := "key"; VoiceSession.baseUrl := None |});
    reflexivity.
Defined.

Lemma typed_set_all target source :
  length source = length target → TypedArray.set target source 0 = Some source.
Proof.
  intros H. unfold TypedArray.set. simpl. rewrite H, Nat.leb_refl.
  rewrite drop_all, app_nil_r. done.
Qed.

Lemma typed_set_prefix target source :
  (length source <= length target)%nat →
  TypedArray.set target source 0 = Some (source ++ drop (length source) target).
Proof.
  intros H. unfold TypedArray.set. simpl.
  by rewrite (proj2 (Nat.leb_le _ _) H).
Qed.

Lemma processor_onmessage_samples incoming _buffer :
  PlaybackProcessor.onmessage (PlaybackProcessor.Samples incoming) _buffer =
    Some (_buffer ++ incoming).
Proof.
  unfold PlaybackProcessor.onmessage, TypedArray.make.
  rewrite typed_set_prefix by (rewrite length_replicate; lia).
  simpl. unfold TypedArray.set.
  rewrite length_app, length_drop, length_replicate.
  replace (length _buffer + length incoming - length _buffer)%nat
    with (length incoming) by lia.
  rewrite Nat.leb_refl. simpl. f_equal.
  rewrite take_app_length. rewrite (drop_ge (_ ++ _)); [by rewrite app_nil_r|].
  rewrite length_app, length_drop, length_replicate. lia.
Qed.

Lemma processor_process_spec output _buffer :
  PlaybackProcessor.process (Some output) _buffer =
    Some (Some (take (length output)
                  (_buffer ++ replicate (length output) TypedArray.zero)),
          drop (length output) _buffer).
Proof.
  unfold PlaybackProcessor.process.
  destruct (length output <=? length _buffer)%nat eqn:E1.
  - apply Nat.leb_le in E1. unfold TypedArray.slice, TypedArray.slice_from.
    rewrite drop_0, Nat.sub_0_r.
    rewrite typed_set_all by (rewrite length_take; lia). simpl.
    rewrite length_take, Nat.min_l by lia.
    by rewrite take_app_le.
  - apply Nat.leb_gt in E1.
    rewrite (drop_ge _buffer) by lia.
    rewrite take_app_ge by lia. rewrite take_replicate.
    replace (Nat.min (length output - length _buffer) (length output))
      with (length output - length _buffer)%nat by lia.
    destruct (0 <? length _buffer)%nat eqn:E2.
    + rewrite typed_set_prefix by lia. simpl. unfold TypedArray.fill, TypedArray.make.
      rewrite take_app_length, length_app, length_drop. simpl.
      replace (length _buffer + (length output - length _buffer) - length _buffer)%nat
        with (length output - length _buffer)%nat by lia.
      reflexivity.
    + apply Nat.ltb_ge in E2. assert (Hb : _buffer = []) by (destruct _buffer; [done|simpl in *; lia]).
      subst. unfold TypedArray.fill. simpl. by rewrite Nat.sub_0_r.
Qed.

Lemma processor_run_post data rest _buffer :
  PlaybackProcessor.run (PlaybackProcessor.Post data :: rest) _buffer =
  PlaybackProcessor.onmessage data _buffer ≫= PlaybackProcessor.run rest.
Proof. reflexivity. Qed.

Lemma processor_run_render output rest _buffer :
  PlaybackProcessor.run (PlaybackProcessor.Render output :: rest) _buffer =
  '(written, _buffer) ← PlaybackProcessor.process (Some output) _buffer;
  '(outputs, _buffer) ← PlaybackProcessor.run rest _buffer;
  Some (option_list written ++ outputs, _buffer).
Proof. reflexivity. Qed.

Lemma processor_run_posts chunks events _buffer :
  PlaybackProcessor.run
    (map (λ c, PlaybackProcessor.Post (PlaybackProcessor.Samples c)) chunks ++ events) _buffer =
  PlaybackProcessor.run events (_buffer ++ concat chunks).
Proof.
  revert _buffer. induction chunks as [|c chunks IH]; intros b.
  - simpl. by rewrite app_nil_r.
  - cbn [map app concat]. rewrite processor_run_post, processor_onmessage_samples.
    cbn [mbind option_bind]. rewrite IH. by rewrite <- app_assoc.
Qed.

Lemma processor_run_renders outputs _buffer :
  let total := sum_list (length <$> outputs) in
  ∃ written,
    PlaybackProcessor.run (map PlaybackProcessor.Render outputs) _buffer =
      Some (written, drop total _buffer) ∧
    length <$> written = length <$> outputs ∧
    concat written = take total (_buffer ++ replicate total TypedArray.zero).
Proof.
  revert _buffer. induction outputs as [|o outputs IH]; intros b.
  - exists []. simpl. by rewrite drop_0.
  - cbn [map]. rewrite fmap_cons.
    change (sum_list (length o :: (length <$> outputs)))
      with (length o + sum_list (length <$> outputs))%nat.
    rewrite processor_run_render, processor_process_spec.
    cbn [mbind option_bind].
    destruct (IH (drop (length o) b)) as (written & -> & Hlen & Hcat).
    cbn [mbind option_bind option_list].
    eexists. split; [by rewrite drop_drop|].
    change (option_list (Some ?x) ++ written) with (x :: written). split.
    { rewrite fmap_cons, Hlen, length_take, length_app, length_replicate.
      f_equal. lia. }
    cbn [concat]. rewrite Hcat.
    set (n := length o). set (t := sum_list (length <$> outputs)).
    rewrite <- (take_take_drop (b ++ replicate (n + t) TypedArray.zero) n t).
    destruct (decide (n <= length b)%nat) as [Hle|Hgt].
    + rewrite !(take_app_le b) by done. f_equal.
      rewrite drop_app_le by done.
      rewrite !(take_app (drop n b)), !take_replicate. do 2 f_equal. lia.
    + rewrite (drop_ge b) by lia. rewrite (drop_app_ge b) by lia.
      rewrite !(take_app_ge b) by lia. rewrite !take_replicate, drop_replicate.
      rewrite app_nil_l, !take_replicate.
      f_equal; [f_equal; f_equal; lia|f_equal; lia].
Qed.

(** X20. The playback worklet streams without gaps.  From any buffer, after
    the chunks posted to it, a sequence of render quanta writes, quantum
    by quantum and whatever the output channels held before, the buffered
    samples followed by the samples of the chunks, in order, with nothing
    lost, repeated or reordered, and zeros (silence) once they run out;
    what has not been rendered yet stays buffered. *)
Theorem playback_worklet_streams_without_gaps
    (chunks outputs : list Float32Array) (_buffer : PlaybackProcessor.State) :
  let total := sum_list (length <$> outputs) in
  let samples := _buffer ++ concat chunks in
  ∃ written,
    PlaybackProcessor.run
      (map (λ c, PlaybackProcessor.Post (PlaybackProcessor.Samples c)) chunks ++
       map PlaybackProcessor.Render outputs) _buffer =
      Some (written, drop total samples) ∧
    length <$> written = length <$> outputs ∧
    concat written = take total (samples ++ replicate total TypedArray.zero).
Proof.
  cbv zeta. rewrite processor_run_posts. apply processor_run_renders.
Qed.

(** X21. Clearing the playback worklet discards everything buffered: the
    quanta rendered after a clear message are silence, until new samples
    are posted. *)
Theorem playback_worklet_clear_silences
    (outputs : list Float32Array) (_buffer : PlaybackProcessor.State) :
  PlaybackProcessor.run
    (PlaybackProcessor.Post PlaybackProcessor.Clear :: map PlaybackProcessor.Render outputs)
    _buffer =
  Some (map (λ o, replicate (length o) TypedArray.zero) outputs, []).
Proof.
  rewrite processor_run_post. cbn [PlaybackProcessor.onmessage mbind option_bind].
  change (TypedArray.make 0) with (@nil Num.number). clear _buffer.
  induction outputs as [|o outputs IH]; [done|].
  cbn [map]. rewrite processor_run_render, processor_process_spec.
  cbn [mbind option_bind]. rewrite drop_nil, IH. cbn [mbind option_bind option_list app].
  by rewrite take_replicate, Nat.min_id.
Qed.

(** ** Integers as numbers *)

(** A positive integer below 2^53 as a number: its bits, shifted left to
    53 digits. *)
Lemma of_Z_pos_shape (p : positive) :
  Z.pos (digits2_pos p) <= 53 →
  ∃ m e, Num.of_Z (Z.pos p) = S754_finite false m e ∧
         Z.pos (digits2_pos m) = 53 ∧
         e = Z.pos (digits2_pos p) - 53 ∧
         Z.pos m = Z.pos p * 2 ^ (- e).
Proof.
  intros Hd. set (d := Z.pos (digits2_pos p)) in *.
  assert (Hd1 : 1 <= d) by (subst d; lia).
  destruct (Z.eq_dec d 53) as [Heq|Hne].
  - exists p, 0. split; [|split; [done|split; [lia|simpl; lia]]].
    unfold Num.of_Z, binary_normalize, binary_round, shl_align.
    fold d. rewrite Heq.
    change (fexp Num.prec Num.emax (53 + 0) - 0) with 0. cbv iota beta.
    apply binary_round_aux_canonical.
    + fold d. rewrite Heq. reflexivity.
    + unfold Num.emax, Num.prec. lia.
  - exists (Pos.iter xO p (Z.to_pos (53 - d))), (d - 53).
    split; [|split; [|split; [done|]]].
    + unfold Num.of_Z, binary_normalize.
      rewrite binary_round_short; fold d; unfold Num.prec, Num.emax; try lia.
      f_equal; lia.
    + rewrite digits_iter_xO, Pos2Z.inj_add. fold d. rewrite Z2Pos.id by lia. lia.
    + rewrite iter_xO_Z, Z2Pos.id by lia. f_equal. f_equal. lia.
Qed.

Lemma digits_lt_pow (p : positive) (k : Z) :
  Z.pos p < 2 ^ k → 0 <= k → Z.pos (digits2_pos p) <= k.
Proof. intros H Hk. by apply digits_le_of_lt. Qed.

Lemma compare_cont_Eq (a b : positive) :
  Pos.compare_cont Eq a b = (Z.pos a ?= Z.pos b).
Proof. reflexivity. Qed.

(** Comparison of two non-negative integers below 2^53, as numbers. *)
Lemma compare_of_Z (a b : Z) :
  0 <= a < 2 ^ 53 → 0 <= b < 2 ^ 53 →
  SFcompare (Num.of_Z a) (Num.of_Z b) = Some (a ?= b).
Proof.
  intros Ha Hb.
  destruct a as [|p|p]; [|  |lia]; destruct b as [|q|q]; try lia.
  - reflexivity.
  - destruct (of_Z_pos_shape q) as (m & e & -> & _); [apply digits_lt_pow; lia|].
    reflexivity.
  - destruct (of_Z_pos_shape p) as (m & e & -> & _); [apply digits_lt_pow; lia|].
    reflexivity.
  - destruct (of_Z_pos_shape p) as (m1 & e1 & -> & D1 & E1 & M1); [apply digits_lt_pow; lia|].
    destruct (of_Z_pos_shape q) as (m2 & e2 & -> & D2 & E2 & M2); [apply digits_lt_pow; lia|].
    cbn [SFcompare]. f_equal.
    pose proof (digits2_pos_spec p) as [P1 P2].
    pose proof (digits2_pos_spec q) as [Q1 Q2].
    set (dp := Z.pos (digits2_pos p)) in *. set (dq := Z.pos (digits2_pos q)) in *.
    assert (1 <= dp) by (subst dp; lia). assert (1 <= dq) by (subst dq; lia).
    destruct (Z.compare_spec e1 e2) as [Heq|Hlt|Hgt].
    + assert (dp = dq) by lia. rewrite compare_cont_Eq, M1, M2.
      replace e2 with e1 by lia.
      assert (dp <= 53) by (subst dp; apply digits_lt_pow; lia).
      assert (0 < 2 ^ (- e1)) by (apply Z.pow_pos_nonneg; lia).
      destruct (Z.compare_spec (Z.pos p) (Z.pos q)) as [E|E|E].
      * rewrite E. apply Z.compare_refl.
      * apply Z.compare_lt_iff. nia.
      * apply Z.compare_gt_iff. nia.
    + symmetry. apply Z.compare_lt_iff.
      assert (2 ^ dp <= 2 ^ (dq - 1)) by (apply Z.pow_le_mono_r; lia). lia.
    + symmetry. apply Z.compare_gt_iff.
      assert (2 ^ dq <= 2 ^ (dp - 1)) by (apply Z.pow_le_mono_r; lia). lia.
Qed.

(** The integer part of an integer below 2^53 seen as a number. *)
Lemma truncZ_of_Z (p : positive) :
  Z.pos p < 2 ^ 53 →
  ∃ m e, Num.of_Z (Z.pos p) = S754_finite false m e ∧
         Num.truncZ false m e = Z.pos p ∧ Num.floorZ false m e = Z.pos p ∧
         e <= 0 ∧ Z.pos m mod 2 ^ (- e) = 0 ∧ Z.pos m / 2 ^ (- e) = Z.pos p.
Proof.
  intros Hp.
  destruct (of_Z_pos_shape p) as (m & e & Hof & D & E & M); [apply digits_lt_pow; lia|].
  exists m, e. split; [done|].
  assert (He : e <= 0) by (pose proof (digits_lt_pow p 53 Hp); lia).
  assert (Hpow : 0 < 2 ^ (- e)) by (apply Z.pow_pos_nonneg; lia).
  assert (Hdiv : Z.pos m / 2 ^ (- e) = Z.pos p) by (rewrite M; apply Z.div_mul; lia).
  assert (Hmod : Z.pos m mod 2 ^ (- e) = 0) by (rewrite M; apply Z_mod_mult).
  unfold Num.truncZ, Num.floorZ.
  destruct (0 <=? e) eqn:E0.
  - apply Z.leb_le in E0. assert (e = 0) by lia. clear E. subst e.
    change (2 ^ (- 0)) with 1 in *. rewrite Z.mul_1_r in M.
    change (2 ^ 0) with 1. rewrite Z.mul_1_r. done.
  - rewrite Z.quot_div_nonneg by lia. done.
Qed.

(** ** The web player *)

(** Starting the web player.  The processor is registered from the blob
    URL and, only if that fails, from the data URL; if either succeeds,
    [start] resolves with a worklet node whose buffer is empty and the
    sample rate of the audio context recorded; if both fail, [start]
    rejects with the error of the second attempt and no worklet node is
    created, so that every later [play] is ignored. *)
Lemma web_player_start_outcomes (env : WebPlayer.StartEnv) (s : WebPlayer.State) :
  let r := fst (WebPlayer.start env s) in
  let s' := snd (WebPlayer.start env s) in
  WebPlayer.nativeSampleRate s' = WebPlayer.sampleRate env ∧
  (WebPlayer.addModuleBlob env = Ok tt ∨ WebPlayer.addModuleData env = Ok tt →
     r = Ok tt ∧ WebPlayer.workletNode s' = Some []) ∧
  (∀ e1 e2, WebPlayer.addModuleBlob env = Throw e1 →
            WebPlayer.addModuleData env = Throw e2 →
     r = Throw e2 ∧ WebPlayer.workletNode s' = WebPlayer.workletNode s ∧
     (WebPlayer.workletNode s = None →
      ∀ base64PCM, WebPlayer.play base64PCM s' = (Ok tt, s'))).
Proof.
  unfold WebPlayer.start, bind, modify, try_catch, await.
  destruct env as [rate [[]|e1] [[]|e2]]; simpl; (split; [done|]); split;
    try done; try (intros [?|?]; done).
  - intros ? ? [= <-] [= <-]. split; [done|]. split; [done|].
    intros Hn base64PCM. unfold WebPlayer.play, bind, get. simpl. by rewrite Hn.
Qed.

Lemma web_player_postMessage_samples resampled _buffer s :
  WebPlayer.workletNode s = Some _buffer →
  WebPlayer.postMessage (PlaybackProcessor.Samples resampled) s =
    WebPlayer.set_workletNode (Some (_buffer ++ resampled)) s.
Proof.
  intros H. unfold WebPlayer.postMessage. rewrite H. cbn [fmap option_fmap option_map].
  by rewrite processor_onmessage_samples.
Qed.

Lemma web_player_play_eq base64PCM s _buffer :
  WebPlayer.workletNode s = Some _buffer →
  WebPlayer.play base64PCM s =
    match Codec.base64PCM16ToFloat32 base64PCM with
    | None => (Throw (WebPlayer.decodeError base64PCM), s)
    | Some float32 =>
        match Resampler.resample float32 WebPlayer.OUTPUT_SAMPLE_RATE
                (WebPlayer.nativeSampleRate s) with
        | None => (Throw "RangeError", s)
        | Some resampled =>
            (Ok tt, WebPlayer.set_workletNode (Some (_buffer ++ resampled)) s)
        end
    end.
Proof.
  intros Hn. unfold WebPlayer.play, bind, get.
  rewrite Hn, bool_decide_eq_true_2 by eauto. cbn [negb].
  destruct (Codec.base64PCM16ToFloat32 base64PCM) as [float32|]; [|done].
  cbn [WebPlayer.orThrow ret].
  destruct (Resampler.resample float32 _ _) as [resampled|]; [|done].
  cbn [WebPlayer.orThrow ret]. unfold modify.
  by rewrite (web_player_postMessage_samples resampled _buffer s Hn).
Qed.

(** X22. Playing a chunk on the web player.  Without a worklet node (before
    [start], after [stop]) the chunk is dropped without being decoded, so
    even an invalid payload throws nothing.  With a worklet node, a
    payload that does not decode makes [play] throw and leaves the
    buffered audio as it was; a payload that decodes is resampled from
    24 kHz to the rate of the audio context and appended behind the
    samples already buffered, and when that rate is 24 kHz the samples
    appended are exactly the decoded ones. *)
Theorem web_player_play_outcomes (base64PCM : string) (s : WebPlayer.State) :
  (WebPlayer.workletNode s = None → WebPlayer.play base64PCM s = (Ok tt, s)) ∧
  (∀ _buffer, WebPlayer.workletNode s = Some _buffer →
     (Codec.base64PCM16ToFloat32 base64PCM = None →
        WebPlayer.play base64PCM s = (Throw (WebPlayer.decodeError base64PCM), s)) ∧
     (∀ float32 resampled,
        Codec.base64PCM16ToFloat32 base64PCM = Some float32 →
        Resampler.resample float32 WebPlayer.OUTPUT_SAMPLE_RATE
          (WebPlayer.nativeSampleRate s) = Some resampled →
        WebPlayer.play base64PCM s =
          (Ok tt, WebPlayer.set_workletNode (Some (_buffer ++ resampled)) s)) ∧
     (∀ float32,
        Codec.base64PCM16ToFloat32 base64PCM = Some float32 →
        Num.strict_eq WebPlayer.OUTPUT_SAMPLE_RATE (WebPlayer.nativeSampleRate s) = true →
        WebPlayer.play base64PCM s =
          (Ok tt, WebPlayer.set_workletNode (Some (_buffer ++ float32)) s))).
Proof.
  split.
  - intros Hn. unfold WebPlayer.play, bind, get. by rewrite Hn.
  - intros _buffer Hn. rewrite (web_player_play_eq base64PCM s _buffer Hn).
    split; [by intros ->|]. split.
    + by intros float32 resampled -> ->.
    + intros float32 -> Heq. unfold Resampler.resample. by rewrite Heq.
Qed.

Lemma web_player_play_outcomes_witness :
  let s := snd (WebPlayer.start
                  {| WebPlayer.sampleRate := Num.of_Z 24000;
                     WebPlayer.addModuleBlob := Throw "blob URL refused";
                     WebPlayer.addModuleData := Ok tt |}
                  WebPlayer.create) in
  WebPlayer.play "AAD/fwCA" s =
    (Ok tt, WebPlayer.set_workletNode
              (Some ([] ++ map Codec.decodeSample [0; 32767; -32768])) s).
Proof.
  destruct (web_player_play_outcomes "AAD/fwCA"
              (snd (WebPlayer.start
                      {| WebPlayer.sampleRate := Num.of_Z 24000;
                         WebPlayer.addModuleBlob := Throw "blob URL refused";
                         WebPlayer.addModuleData := Ok tt |}
                      WebPlayer.create))) as [_ H].
  destruct (H [] eq_refl) as (_ & _ & H3).
  exact (H3 (map Codec.decodeSample [0; 32767; -32768]) eq_refl eq_refl).
Defined.

(** ** The web capture: cutting the microphone stream into chunks *)

Lemma ge_of_nat (len n : nat) :
  Z.of_nat len < 2 ^ 53 → Z.of_nat n < 2 ^ 53 →
  WebCapture.ge (Num.of_nat len) (Num.of_nat n) = (n <=? len)%nat.
Proof.
  intros Hl Hn. unfold WebCapture.ge, SFleb, Num.of_nat.
  rewrite compare_of_Z by lia.
  destruct (Z.compare_spec (Z.of_nat n) (Z.of_nat len)) as [E|E|E];
    symmetry; [apply Nat.leb_le|apply Nat.leb_le|apply Nat.leb_gt]; lia.
Qed.

Lemma relative_index_of_nat (len n : nat) :
  Z.of_nat n < 2 ^ 53 →
  WebCapture.relative_index len (Num.of_nat n) = Nat.min n len.
Proof.
  intros Hn. unfold Num.of_nat. destruct n as [|n].
  - reflexivity.
  - change (Z.of_nat (S n)) with (Z.pos (Pos.of_succ_nat n)) in *.
    destruct (truncZ_of_Z (Pos.of_succ_nat n) Hn) as (m & e & -> & Ht & _).
    unfold WebCapture.relative_index. rewrite Ht.
    destruct (Z.pos (Pos.of_succ_nat n) <? 0) eqn:E; [apply Z.ltb_lt in E; lia|].
    lia.
Qed.

Lemma blocks_upto_spec {A} (n : nat) (l : list A) (fuel : nat) :
  (0 < n)%nat → (length l / n <= fuel)%nat →
  let q := (length l / n)%nat in
  length (WebCapture.blocks_upto fuel n l) = q ∧
  Forall (λ c, length c = n) (WebCapture.blocks_upto fuel n l) ∧
  concat (WebCapture.blocks_upto fuel n l) = take (q * n) l.
Proof.
  intros Hn. revert l. induction fuel as [|fuel IH]; intros l Hf; simpl.
  - assert (Hq : (length l / n = 0)%nat) by lia. rewrite Hq. done.
  - destruct (n <=? length l)%nat eqn:E.
    + apply Nat.leb_le in E.
      assert (Hdiv : (length l / n = S (length (drop n l) / n))%nat).
      { rewrite length_drop.
        replace (length l) with ((length l - n) + 1 * n)%nat at 1 by lia.
        rewrite Nat.div_add by lia. lia. }
      destruct (IH (drop n l)) as (I1 & I2 & I3); [lia|].
      rewrite Hdiv. simpl. rewrite I1. split; [done|]. split.
      * constructor; [|done]. rewrite length_take. lia.
      * rewrite I3. rewrite <- take_take_drop. done.
    + apply Nat.leb_gt in E. rewrite Nat.div_small by lia. done.
Qed.

Lemma blocks_upto_fuel {A} (n : nat) (l : list A) (fuel : nat) :
  (0 < n)%nat → (length l / n <= fuel)%nat →
  WebCapture.blocks_upto fuel n l = WebCapture.blocks n l.
Proof.
  intros Hn. unfold WebCapture.blocks.
  assert (Hgen : ∀ f1 f2 (k : list A), (length k / n <= f1)%nat → (length k / n <= f2)%nat →
            WebCapture.blocks_upto f1 n k = WebCapture.blocks_upto f2 n k).
  { induction f1 as [|f1 IH]; intros f2 k H1 H2.
    - destruct f2 as [|f2]; [done|]. simpl.
      destruct (n <=? length k)%nat eqn:E; [|done].
      apply Nat.leb_le in E. assert (1 <= length k / n)%nat; [|lia].
      apply Nat.div_le_lower_bound; lia.
    - simpl. destruct (n <=? length k)%nat eqn:E.
      + apply Nat.leb_le in E.
        assert (Hdiv : (length k / n = S (length (drop n k) / n))%nat).
        { rewrite length_drop.
          replace (length k) with ((length k - n) + 1 * n)%nat at 1 by lia.
          rewrite Nat.div_add by lia. lia. }
        destruct f2 as [|f2]; [lia|]. simpl.
        rewrite (proj2 (Nat.leb_le _ _) E). f_equal. apply IH; lia.
      + destruct f2 as [|f2]; [done|]. simpl. by rewrite E. }
  intros Hf. apply Hgen; [done|]. apply Nat.Div0.div_le_upper_bound. nia.
Qed.

Lemma chunkLoop_spec (n : nat) (fuel : nat) (s : WebCapture.State) (payloads : list string) :
  WebCapture.CHUNK_SIZE s = Num.of_nat n → (0 < n)%nat → Z.of_nat n < 2 ^ 53 →
  Z.of_nat (length (WebCapture.buffer s)) < 2 ^ 53 →
  mapM (WebCapture.payload (WebCapture.nativeSampleRate s))
       (WebCapture.blocks_upto fuel n (WebCapture.buffer s)) = Some payloads →
  (length (WebCapture.buffer s) / n < fuel)%nat →
  WebCapture.chunkLoop fuel s =
    Some (Ok tt,
          {| WebCapture.nativeSampleRate := WebCapture.nativeSampleRate s;
             WebCapture.CHUNK_SIZE := WebCapture.CHUNK_SIZE s;
             WebCapture.buffer :=
               drop (length (WebCapture.buffer s) / n * n) (WebCapture.buffer s);
             WebCapture.delivered := WebCapture.delivered s ++ payloads |}).
Proof.
  intros Hc Hn Hn53. revert s payloads Hc.
  induction fuel as [|fuel IH]; intros s payloads Hc Hlen Hp Hf; [lia|].
  cbn [WebCapture.chunkLoop]. rewrite Hc, ge_of_nat, relative_index_of_nat by done.
  cbn [WebCapture.blocks_upto] in Hp.
  destruct (n <=? length (WebCapture.buffer s))%nat eqn:E.
  - apply Nat.leb_le in E. rewrite Nat.min_l by done.
    unfold TypedArray.slice, TypedArray.slice_from. rewrite drop_0, Nat.sub_0_r.
    cbn [WebCapture.set_buffer WebCapture.nativeSampleRate].
    cbn [mapM] in Hp.
    assert (Hpay : ∀ c, WebCapture.payload (WebCapture.nativeSampleRate s) c =
              Codec.float32ToBase64PCM16 <$>
              Resampler.resample c (WebCapture.nativeSampleRate s)
                WebCapture.TARGET_SAMPLE_RATE) by done.
    rewrite Hpay in Hp. clear Hpay.
    destruct (Resampler.resample (take n (WebCapture.buffer s)) _ _) as [resampled|];
      [|done].
    cbn [fmap option_fmap option_map mbind option_bind] in Hp.
    destruct (mapM _ (WebCapture.blocks_upto fuel n (drop n (WebCapture.buffer s))))
      as [rest|] eqn:Hrest; [|done].
    cbn [mbind option_bind mret option_ret] in Hp. injection Hp as <-.
    assert (Hdiv : (length (WebCapture.buffer s) / n =
                    S (length (drop n (WebCapture.buffer s)) / n))%nat).
    { rewrite length_drop.
      replace (length (WebCapture.buffer s))
        with ((length (WebCapture.buffer s) - n) + 1 * n)%nat at 1 by lia.
      rewrite Nat.div_add by lia. lia. }
    rewrite (IH _ rest); cbn [WebCapture.onData WebCapture.set_buffer WebCapture.buffer
      WebCapture.CHUNK_SIZE WebCapture.nativeSampleRate WebCapture.delivered];
      [|done|rewrite length_drop; lia|done|lia].
    rewrite Hdiv, drop_drop, <- app_assoc, Hc.
    replace (S (length (drop n (WebCapture.buffer s)) / n) * n)%nat
      with (n + length (drop n (WebCapture.buffer s)) / n * n)%nat by lia.
    reflexivity.
  - apply Nat.leb_gt in E. injection Hp as <-.
    rewrite Nat.div_small, app_nil_r by lia. rewrite <- Hc. simpl. by destruct s.
Qed.

Lemma web_capture_append samples s fuel :
  WebCapture.onmessage fuel samples s =
    WebCapture.chunkLoop fuel (WebCapture.set_buffer (WebCapture.buffer s ++ samples) s).
Proof.
  unfold WebCapture.onmessage.
  pose proof (processor_onmessage_samples samples (WebCapture.buffer s)) as H.
  unfold PlaybackProcessor.onmessage in H.
  destruct (TypedArray.set _ (WebCapture.buffer s) 0) as [b1|]; [|done].
  cbn [mbind option_bind] in H.
  destruct (TypedArray.set b1 samples _) as [b2|]; [|done].
  cbn [mbind option_bind] in H. by injection H as ->.
Qed.

(** X23. The handler of the capture worklet's messages cuts the microphone
    stream into chunks of exactly [CHUNK_SIZE] samples.  When
    [CHUNK_SIZE] is a positive integer n and every chunk can be
    resampled, a message leaves the handler after floor(len / n)
    iterations, len being the number of samples buffered so far plus
    those of the message: the data callback gets one payload per block of
    n consecutive samples, in order; the blocks followed by the new
    buffer are the old buffer followed by the message, so no sample is
    lost, repeated or reordered; and fewer than n samples stay
    buffered. *)
Theorem web_capture_cuts_fixed_size_chunks
    (samples : Float32Array) (s : WebCapture.State) (n : nat) (payloads : list string) :
  let all := WebCapture.buffer s ++ samples in
  WebCapture.CHUNK_SIZE s = Num.of_nat n → (0 < n)%nat → Z.of_nat n < 2 ^ 53 →
  Z.of_nat (length all) < 2 ^ 53 →
  mapM (WebCapture.payload (WebCapture.nativeSampleRate s)) (WebCapture.blocks n all) =
    Some payloads →
  ∃ s',
    (∀ fuel, (length all / n < fuel)%nat →
       WebCapture.onmessage fuel samples s = Some (Ok tt, s')) ∧
    WebCapture.delivered s' = WebCapture.delivered s ++ payloads ∧
    length payloads = (length all / n)%nat ∧
    Forall (λ chunk, length chunk = n) (WebCapture.blocks n all) ∧
    concat (WebCapture.blocks n all) ++ WebCapture.buffer s' = all ∧
    (length (WebCapture.buffer s') < n)%nat.
Proof.
  intros all Hc Hn Hn53 Hlen Hp.
  destruct (blocks_upto_spec n all (length all) Hn) as (B1 & B2 & B3).
  { apply Nat.Div0.div_le_upper_bound. nia. }
  fold (WebCapture.blocks n all) in B1, B2, B3.
  eexists. split; [|split; [|split; [|split; [|split]]]].
  - intros fuel Hf. rewrite web_capture_append.
    apply (chunkLoop_spec n fuel _ payloads); try done.
    cbn [WebCapture.set_buffer WebCapture.buffer WebCapture.nativeSampleRate].
    rewrite blocks_upto_fuel; [exact Hp|done|fold all; lia].
  - done.
  - apply length_mapM in Hp. by rewrite <- Hp.
  - done.
  - cbn [WebCapture.buffer WebCapture.set_buffer]. rewrite B3. apply take_drop.
  - cbn [WebCapture.buffer WebCapture.set_buffer]. rewrite length_drop.
    fold all. pose proof (Nat.Div0.div_mod (length all) n).
    pose proof (Nat.mod_upper_bound (length all) n). lia.
Qed.

Lemma web_capture_cuts_fixed_size_chunks_witness :
  let x := Num.of_Z 0 in
  let s := {| WebCapture.nativeSampleRate := Num.of_Z 16000;
              WebCapture.CHUNK_SIZE := Num.of_nat 2;
              WebCapture.buffer := [x];
              WebCapture.delivered := [] |} in
  let all := WebCapture.buffer s ++ [x; x; x; x] in
  ∃ s',
    (∀ fuel, (length all / 2 < fuel)%nat →
       WebCapture.onmessage fuel [x; x; x; x] s = Some (Ok tt, s')) ∧
    WebCapture.delivered s' = WebCapture.delivered s ++ ["AAAAAA=="; "AAAAAA=="] ∧
    length ["AAAAAA=="; "AAAAAA=="] = (length all / 2)%nat ∧
    Forall (λ chunk, length chunk = 2%nat) (WebCapture.blocks 2 all) ∧
    concat (WebCapture.blocks 2 all) ++ WebCapture.buffer s' = all ∧
    (length (WebCapture.buffer s') < 2)%nat.
Proof.
  apply (web_capture_cuts_fixed_size_chunks
           [Num.of_Z 0; Num.of_Z 0; Num.of_Z 0; Num.of_Z 0]
           {| WebCapture.nativeSampleRate := Num.of_Z 16000;
              WebCapture.CHUNK_SIZE := Num.of_nat 2;
              WebCapture.buffer := [Num.of_Z 0];
              WebCapture.delivered := [] |}
           2 ["AAAAAA=="; "AAAAAA=="]).
  - reflexivity.
  - lia.
  - reflexivity.
  - reflexivity.
  - reflexivity.
Defined.

Lemma resample_empty a b : Resampler.resample [] a b = Some [].
Proof.
  unfold Resampler.resample. destruct (Num.strict_eq a b); [done|].
  simpl length. by rewrite to_index_outputLength_empty.
Qed.

Lemma ge_zero (len : nat) (sgn : bool) :
  Z.of_nat len < 2 ^ 53 → WebCapture.ge (Num.of_nat len) (S754_zero sgn) = true.
Proof.
  intros Hl. unfold WebCapture.ge, SFleb, Num.of_nat.
  destruct len as [|len]; [done|].
  change (Z.of_nat (S len)) with (Z.pos (Pos.of_succ_nat len)) in *.
  destruct (of_Z_pos_shape (Pos.of_succ_nat len)) as (m & e & -> & _);
    [apply digits_lt_pow; lia|].
  reflexivity.
Qed.

(** X24. The two degenerate chunk sizes of the capture handler.  When
    [CHUNK_SIZE] is zero (a whole sample rate from 1 to 9 Hz makes it
    so), the loop of the handler never ends: however many iterations it
    is given, it has not returned.  When [CHUNK_SIZE] is NaN (as for a
    NaN sample rate) the loop is never entered: the samples are buffered
    and nothing is ever delivered. *)
Theorem web_capture_degenerate_chunk_sizes
    (samples : Float32Array) (s : WebCapture.State) :
  Z.of_nat (length (WebCapture.buffer s ++ samples)) < 2 ^ 53 →
  (∀ sgn, WebCapture.CHUNK_SIZE s = S754_zero sgn →
     ∀ fuel, WebCapture.onmessage fuel samples s = None) ∧
  (WebCapture.CHUNK_SIZE s = Num.NaN →
     ∀ fuel, WebCapture.onmessage (S fuel) samples s =
       Some (Ok tt, WebCapture.set_buffer (WebCapture.buffer s ++ samples) s)) ∧
  (∀ rate, 1 <= rate <= 9 →
     WebCapture.CHUNK_SIZE (WebCapture.started (Num.of_Z rate)) = S754_zero false) ∧
  WebCapture.CHUNK_SIZE (WebCapture.started Num.NaN) = Num.NaN.
Proof.
  intros Hlen. split; [|split; [|split; [|reflexivity]]]; cycle 2.
  { intros rate Hr.
    assert (Hc : rate = 1 ∨ rate = 2 ∨ rate = 3 ∨ rate = 4 ∨ rate = 5 ∨
                 rate = 6 ∨ rate = 7 ∨ rate = 8 ∨ rate = 9) by lia.
    repeat (destruct Hc as [->|Hc]; [reflexivity|]). subst rate. reflexivity. }
  - intros sgn Hc fuel. rewrite web_capture_append.
    set (s0 := WebCapture.set_buffer (WebCapture.buffer s ++ samples) s).
    assert (H0 : WebCapture.CHUNK_SIZE s0 = S754_zero sgn) by done.
    assert (H1 : Z.of_nat (length (WebCapture.buffer s0)) < 2 ^ 53) by done.
    clearbody s0. clear Hlen Hc. revert s0 H0 H1.
    induction fuel as [|fuel IH]; intros s0 H0 H1; [done|].
    cbn [WebCapture.chunkLoop]. rewrite H0, ge_zero by done.
    cbn [WebCapture.relative_index]. unfold TypedArray.slice, TypedArray.slice_from.
    rewrite !drop_0, take_0. cbn [WebCapture.set_buffer WebCapture.nativeSampleRate].
    rewrite resample_empty. apply IH; done.
  - intros Hc fuel. rewrite web_capture_append.
    cbn [WebCapture.chunkLoop WebCapture.set_buffer WebCapture.CHUNK_SIZE WebCapture.buffer].
    rewrite Hc. unfold WebCapture.ge, SFleb. simpl. done.
Qed.

Lemma web_capture_degenerate_chunk_sizes_witness :
  let s := WebCapture.started (Num.of_Z 9) in
  (∀ sgn, WebCapture.CHUNK_SIZE s = S754_zero sgn →
     ∀ fuel, WebCapture.onmessage fuel [Num.of_Z 0] s = None) ∧
  (WebCapture.CHUNK_SIZE s = Num.NaN →
     ∀ fuel, WebCapture.onmessage (S fuel) [Num.of_Z 0] s =
       Some (Ok tt, WebCapture.set_buffer (WebCapture.buffer s ++ [Num.of_Z 0]) s)) ∧
  (∀ rate, 1 <= rate <= 9 →
     WebCapture.CHUNK_SIZE (WebCapture.started (Num.of_Z rate)) = S754_zero false) ∧
  WebCapture.CHUNK_SIZE (WebCapture.started Num.NaN) = Num.NaN.
Proof.
  apply (web_capture_degenerate_chunk_sizes [Num.of_Z 0] (WebCapture.started (Num.of_Z 9))).
  reflexivity.
Defined.

(** The chunk size at the sample rates of common audio hardware: a tenth
    of the rate, the product with the literal 0.1 rounding to the exact
    quotient. *)
Example chunk_sizes_of_common_rates :
  map (λ rate, WebCapture.CHUNK_SIZE (WebCapture.started (Num.of_Z rate)))
      [8000; 16000; 22050; 24000; 32000; 44100; 48000; 96000] =
  map Num.of_Z [800; 1600; 2205; 2400; 3200; 4410; 4800; 9600].
Proof. vm_compute. reflexivity. Qed.

Lemma resample_to_length input a b k :
  Num.strict_eq a b = false →
  Num.to_index (Resampler.outputLength (length input) a b) = Some k →
  ∃ out, Resampler.resample input a b = Some out ∧ length out = k.
Proof.
  intros Hne Hk. unfold Resampler.resample. rewrite Hne, Hk. simpl.
  eexists. split; [done|]. by rewrite length_map, length_seq.
Qed.

(** X25. At the sample rates of common audio hardware every payload of the
    web capture carries 100 ms of audio at 16 kHz: a chunk of a tenth of
    the rate is resampled to exactly 1600 samples (unchanged at 16 kHz),
    encoded as 3200 bytes, that is 4268 characters of base64, which the
    decoder of the playback side turns back into 1600 samples. *)
Theorem web_capture_payload_is_100ms_at_16kHz (rate : Z) (chunk : Float32Array) :
  rate ∈ [8000; 16000; 22050; 24000; 32000; 44100; 48000; 96000] →
  Z.of_nat (length chunk) = rate / 10 →
  WebCapture.CHUNK_SIZE (WebCapture.started (Num.of_Z rate)) = Num.of_nat (length chunk) ∧
  ∃ base64 decoded,
    WebCapture.payload (Num.of_Z rate) chunk = Some base64 ∧
    String.length base64 = 4268%nat ∧
    Codec.base64PCM16ToFloat32 base64 = Some decoded ∧
    length decoded = 1600%nat.
Proof.
  intros Hrate Hlen.
  assert (Hres : ∃ out, Resampler.resample chunk (Num.of_Z rate)
                          WebCapture.TARGET_SAMPLE_RATE = Some out ∧
                        length out = 1600%nat ∧
                        WebCapture.CHUNK_SIZE (WebCapture.started (Num.of_Z rate)) =
                          Num.of_nat (length chunk)).
  { repeat (apply elem_of_cons in Hrate as [->|Hrate]);
      [..|by apply elem_of_nil in Hrate];
      try (match type of Hlen with
           | _ = ?r / 10 =>
               let n := eval vm_compute in (Z.to_nat (r / 10)) in
               assert (Hn : length chunk = n) by (apply Nat2Z.inj; rewrite Hlen; reflexivity)
           end).
    all: try (match goal with
              | |- ∃ out, Resampler.resample _ ?a _ = _ ∧ _ =>
                  destruct (resample_to_length chunk a WebCapture.TARGET_SAMPLE_RATE 1600)
                    as (out & Ho & Hl); [reflexivity|rewrite Hn; vm_compute; reflexivity|]
              end;
              exists out; rewrite Hn; split; [done|split; [done|vm_compute; reflexivity]]).
    exists chunk. rewrite Hn. split; [reflexivity|]. split; [done|]. vm_compute. reflexivity. }
  destruct Hres as (out & Ho & Hl & Hc). split; [done|].
  exists (Codec.float32ToBase64PCM16 out), (map (λ x, Codec.decodeSample (Codec.encodeSample x)) out).
  split; [unfold WebCapture.payload; by rewrite Ho|].
  split; [by rewrite float32ToBase64PCM16_length, Hl|].
  split; [apply codec_round_trip_per_sample|by rewrite length_map].
Qed.

Lemma web_capture_payload_is_100ms_at_16kHz_witness :
  WebCapture.CHUNK_SIZE (WebCapture.started (Num.of_Z 8000)) =
    Num.of_nat (length (replicate 800 (Num.of_Z 0))) ∧
  ∃ base64 decoded,
    WebCapture.payload (Num.of_Z 8000) (replicate 800 (Num.of_Z 0)) = Some base64 ∧
    String.length base64 = 4268%nat ∧
    Codec.base64PCM16ToFloat32 base64 = Some decoded ∧
    length decoded = 1600%nat.
Proof.
  apply (web_capture_payload_is_100ms_at_16kHz 8000 (replicate 800 (Num.of_Z 0))).
  - set_solver.
  - reflexivity.
Defined.

(** ** The session registry *)
Section RegistryFacts.
Import RealtimeSession.
Context {V : Type}.
Variable t : string → string.
Variable impl : VoiceSession V.

Lemma onSession_flags {A} (m : M V A) (s : State V) :
  voiceSessionStarted (snd (onSession m s)) = voiceSessionStarted s ∧
  currentSessionId (snd (onSession m s)) = currentSessionId s ∧
  shown (snd (onSession m s)) = shown s.
Proof.
  unfold onSession. destruct (voiceSession s) as [v|]; [|done].
  by destruct (m v) as [r v'].
Qed.

Lemma startRealtimeSession_flags env sessionId initialContext :
  ∀ s, flags_step sessionId s
         (snd (startRealtimeSession t impl env sessionId initialContext s)).
Proof.
  induction env as [platform presentPaywall IH | | | restart IH]
    using StartEnv_restarts
    with (P0 := λ p, match p with
                     | Purchased restart =>
                         ∀ s, flags_step sessionId s
                                (snd (startRealtimeSession t impl restart
                                        sessionId initialContext s))
                     | _ => True
                     end); try done.
  intros s. cbn [startRealtimeSession].
  unfold bind, get, modify, await, try_catch, ret, throw, serviceUnavailable.
  unfold bind, modify.
  destruct (voiceSession s) as [v|] eqn:Hv; cbn [is_Some bool_decide negb];
    [rewrite bool_decide_eq_true_2 by eauto|rewrite bool_decide_eq_false_2 by (by intros [? ?])];
    cbn [negb]; [|by left].
  destruct (requestMicrophonePermission platform) as [permissionResult|e]; [|by left].
  destruct (granted permissionResult); cbn [negb]; [|by left].
  destruct (String.eqb (voiceEngine platform) "gemini").
  - destruct (truthy (geminiApiKey platform)); cbn [negb]; [|by left].
    match goal with |- context [onSession ?m ?s0] =>
      pose proof (onSession_flags m s0) as (F1 & F2 & _);
      destruct (onSession m s0) as [[[]|e] s1] end; cbn [snd] in F1, F2 |- *.
    + right. left. done.
    + right. right. done.
  - destruct (truthy (elevenLabsAgentId platform)); cbn [negb]; [|by left].
    destruct (experiments platform); cbn [negb].
    + destruct (getCredentials platform) as [[c|]|e]; cbn [is_Some bool_decide negb snd].
      * rewrite bool_decide_eq_true_2 by eauto. cbn [negb].
        destruct (fetchVoiceToken platform) as [response|e]; [|by right; right].
        destruct (allowed response); cbn [negb].
        -- destruct (truthy (response_token response));
             match goal with |- context [onSession ?m ?s0] =>
               pose proof (onSession_flags m s0) as (F1 & F2 & _);
               destruct (onSession m s0) as [[[]|e] s1] end; cbn [snd] in F1, F2 |- *;
             first [by right; left | by right; right].
        -- destruct presentPaywall as [e| |restart]; cbn [snd].
           ++ by right; right.
           ++ by left.
           ++ specialize (IH s).
              destruct (startRealtimeSession t impl restart sessionId initialContext s)
                as [[[]|e] s1]; cbn [snd] in *; [done|by right; right].
      * rewrite bool_decide_eq_false_2 by (by intros [? ?]). by left.
      * by right; right.
    + match goal with |- context [onSession ?m ?s0] =>
        pose proof (onSession_flags m s0) as (F1 & F2 & _);
        destruct (onSession m s0) as [[[]|e] s1] end; cbn [snd] in F1, F2 |- *.
      * by right; left.
      * by right; right.
Qed.

End RegistryFacts.

(** X26. The two flags of the registry always agree.  Whatever the session
    object does and whatever the platform answers, after
    [startRealtimeSession] (restarts after a purchase included),
    [stopRealtimeSession] and [registerVoiceSession] the session counts
    as started exactly when a current session id is recorded, as it does
    initially. *)
Theorem registry_flags_agree {V : Type} (t : string → string)
    (impl : RealtimeSession.VoiceSession V) (s : RealtimeSession.State V) :
  RealtimeSession.flags_agree s →
  (∀ env sessionId initialContext,
     RealtimeSession.flags_agree
       (snd (RealtimeSession.startRealtimeSession t impl env sessionId initialContext s))) ∧
  RealtimeSession.flags_agree (snd (RealtimeSession.stopRealtimeSession impl s)) ∧
  (∀ session, RealtimeSession.flags_agree (RealtimeSession.registerVoiceSession session s)) ∧
  RealtimeSession.flags_agree (@RealtimeSession.initial V).
Proof.
  unfold RealtimeSession.flags_agree. intros Hs. split; [|split; [|split]].
  - intros env sessionId initialContext.
    destruct (startRealtimeSession_flags t impl env sessionId initialContext s)
      as [[-> ->]|[[-> ->]|[-> ->]]]; done.
  - unfold RealtimeSession.stopRealtimeSession, bind, get, try_catch, modify, ret.
    destruct (RealtimeSession.voiceSession s) as [v|] eqn:Hv.
    + rewrite bool_decide_eq_true_2 by eauto. cbn [negb].
      pose proof (onSession_flags (RealtimeSession.endSession impl) s) as (F1 & F2 & _).
      destruct (RealtimeSession.onSession _ s) as [[[]|e] s1]; cbn [snd] in *; [done|].
      by rewrite F1, F2.
    + rewrite bool_decide_eq_false_2 by (by intros [? ?]). done.
  - done.
  - done.
Qed.

Lemma registry_flags_agree_witness :
  let s := RealtimeSession.registerVoiceSession (VoiceSession.fresh (Examples.store (Some "key")))
             RealtimeSession.initial in
  let impl := RealtimeSession.gemini Examples.start_succeeds (Ok tt) in
  (∀ env sessionId initialContext,
     RealtimeSession.flags_agree
       (snd (RealtimeSession.startRealtimeSession id impl env sessionId initialContext s))) ∧
  RealtimeSession.flags_agree (snd (RealtimeSession.stopRealtimeSession impl s)) ∧
  (∀ session, RealtimeSession.flags_agree (RealtimeSession.registerVoiceSession session s)) ∧
  RealtimeSession.flags_agree (@RealtimeSession.initial VoiceSession.World).
Proof.
  apply (registry_flags_agree id
           (RealtimeSession.gemini Examples.start_succeeds (Ok tt))
           (RealtimeSession.registerVoiceSession
              (VoiceSession.fresh (Examples.store (Some "key")))
              RealtimeSession.initial)).
  reflexivity.
Defined.

(** X27. The guards of [startRealtimeSession]: in each of these cases the
    function returns without calling the session object and without
    touching the flags.  With no session registered nothing happens at
    all.  A rejected permission request rejects the call.  A denied
    permission shows the permission alert.  For the Gemini engine a
    missing API key shows the key-required alert, so the session's own
    missing-key error is never reached this way.  For the other engine a
    missing agent id returns silently, missing credentials show the
    authentication alert, and a token service that does not allow the
    session, followed by a paywall that is declined, returns silently. *)
Theorem startRealtimeSession_guards {V : Type} (t : string → string)
    (impl : RealtimeSession.VoiceSession V)
    (platform : RealtimeSession.Platform) (presentPaywall : RealtimeSession.Paywall)
    (sessionId : string) (initialContext : option string) (s : RealtimeSession.State V) :
  let call := RealtimeSession.startRealtimeSession t impl
                (RealtimeSession.Env platform presentPaywall) sessionId initialContext s in
  (RealtimeSession.voiceSession s = None → call = (Ok tt, s)) ∧
  (is_Some (RealtimeSession.voiceSession s) →
   (∀ e, RealtimeSession.requestMicrophonePermission platform = Throw e →
      call = (Throw e, s)) ∧
   (∀ p, RealtimeSession.requestMicrophonePermission platform = Ok p →
      RealtimeSession.granted p = false →
      call = (Ok tt, RealtimeSession.show
                       (RealtimeSession.MicrophonePermissionDenied
                          (RealtimeSession.canAskAgain p)) s)) ∧
   (∀ p, RealtimeSession.requestMicrophonePermission platform = Ok p →
      RealtimeSession.granted p = true →
      (RealtimeSession.voiceEngine platform = "gemini" →
       truthy (RealtimeSession.geminiApiKey platform) = false →
       call = (Ok tt, RealtimeSession.show
                        (RealtimeSession.Alert (t "common.error")
                           (t "settingsVoice.geminiApiKeyRequired")) s)) ∧
      (RealtimeSession.voiceEngine platform ≠ "gemini" →
       (truthy (RealtimeSession.elevenLabsAgentId platform) = false →
        call = (Ok tt, s)) ∧
       (truthy (RealtimeSession.elevenLabsAgentId platform) = true →
        RealtimeSession.experiments platform = true →
        (RealtimeSession.getCredentials platform = Ok None →
         call = (Ok tt, RealtimeSession.show
                          (RealtimeSession.Alert (t "common.error")
                             (t "errors.authenticationFailed")) s)) ∧
        (∀ credentials response,
           RealtimeSession.getCredentials platform = Ok (Some credentials) →
           RealtimeSession.fetchVoiceToken platform = Ok response →
           RealtimeSession.allowed response = false →
           presentPaywall = RealtimeSession.NotPurchased →
           call = (Ok tt, s)))))).
Proof.
  cbv zeta. cbn [RealtimeSession.startRealtimeSession].
  unfold bind, get, modify, await, try_catch, ret, throw.
  split.
  - intros ->. by rewrite bool_decide_eq_false_2 by (by intros [? ?]).
  - intros Hv. rewrite (bool_decide_eq_true_2 _ Hv). cbn [negb].
    split; [by intros e ->|]. split; [by intros p -> ->|].
    intros p -> ->. cbn [negb]. split.
    + intros -> ->. done.
    + intros Hne. apply String.eqb_neq in Hne. rewrite Hne. split.
      * by intros ->.
      * intros -> ->. cbn [negb]. split.
        -- intros ->. rewrite bool_decide_eq_false_2 by (by intros [? ?]). done.
        -- intros credentials response -> -> -> ->.
           rewrite bool_decide_eq_true_2 by eauto. done.
Qed.

Lemma startRealtimeSession_guards_witness :
  let platform :=
    {| RealtimeSession.requestMicrophonePermission :=
         Ok {| RealtimeSession.granted := true; RealtimeSession.canAskAgain := true |};
       RealtimeSession.voiceEngine := "gemini";
       RealtimeSession.geminiApiKey := None;
       RealtimeSession.experiments := false;
       RealtimeSession.elevenLabsAgentId := None;
       RealtimeSession.getCredentials := Ok None;
       RealtimeSession.fetchVoiceToken := Throw "offline" |} in
  let s := RealtimeSession.registerVoiceSession
             (VoiceSession.fresh (Examples.store None)) RealtimeSession.initial in
  RealtimeSession.startRealtimeSession id
    (RealtimeSession.gemini Examples.start_succeeds (Ok tt))
    (RealtimeSession.Env platform RealtimeSession.NotPurchased) "s1" None s =
  (Ok tt, RealtimeSession.show
            (RealtimeSession.Alert (id "common.error")
               (id "settingsVoice.geminiApiKeyRequired")) s).
Proof.
  destruct (startRealtimeSession_guards id
    (RealtimeSession.gemini Examples.start_succeeds (Ok tt))
    {| RealtimeSession.requestMicrophonePermission :=
         Ok {| RealtimeSession.granted := true; RealtimeSession.canAskAgain := true |};
       RealtimeSession.voiceEngine := "gemini";
       RealtimeSession.geminiApiKey := None;
       RealtimeSession.experiments := false;
       RealtimeSession.elevenLabsAgentId := None;
       RealtimeSession.getCredentials := Ok None;
       RealtimeSession.fetchVoiceToken := Throw "offline" |}
    RealtimeSession.NotPurchased "s1" None
    (RealtimeSession.registerVoiceSession
       (VoiceSession.fresh (Examples.store None)) RealtimeSession.initial)) as [_ H].
  destruct (H ltac:(by eexists)) as (_ & _ & H3).
  destruct (H3 _ eq_refl eq_refl) as [H4 _].
  exact (H4 eq_refl eq_refl).
Defined.

Lemma onSession_Some {V A} (m : M V A) (s : RealtimeSession.State V) v :
  RealtimeSession.voiceSession s = Some v →
  RealtimeSession.onSession m s =
    (fst (m v), RealtimeSession.set_voiceSession (Some (snd (m v))) s).
Proof. intros H. unfold RealtimeSession.onSession. rewrite H. by destruct (m v). Qed.

(** X28. Starting the Gemini session through the registry, with the
    permission granted and the registry and the session reading the same
    API key from the store.  The call never rejects.  Without a key the
    session object is not touched: no status is published at all.  With
    a key the session's own [startSession] runs once; if it resolves, the
    session counts as started under the given id and nothing is shown; if
    it rejects, both flags are reset, the service-unavailable alert is
    shown, and the session object is left as its failed start left it. *)
Theorem gemini_session_started_through_the_registry
    (t : string → string) (env : VoiceSession.StartEnv) (closeResult : result unit)
    (platform : RealtimeSession.Platform) (presentPaywall : RealtimeSession.Paywall)
    (p : RealtimeSession.PermissionResult)
    (sessionId : string) (initialContext : option string)
    (s : RealtimeSession.State VoiceSession.World) (w : VoiceSession.World) :
  RealtimeSession.voiceSession s = Some w →
  RealtimeSession.requestMicrophonePermission platform = Ok p →
  RealtimeSession.granted p = true →
  RealtimeSession.voiceEngine platform = "gemini" →
  RealtimeSession.geminiApiKey platform =
    VoiceSession.geminiApiKey (VoiceSession.settings (VoiceSession.storage w)) →
  let call := RealtimeSession.startRealtimeSession t
                (RealtimeSession.gemini env closeResult)
                (RealtimeSession.Env platform presentPaywall) sessionId initialContext s in
  let started := VoiceSession.startSession
                   {| VoiceSession.sessionId := sessionId;
                      VoiceSession.initialContext := initialContext |} env w in
  fst call = Ok tt ∧
  (truthy (RealtimeSession.geminiApiKey platform) = false →
     snd call = RealtimeSession.show
                  (RealtimeSession.Alert (t "common.error")
                     (t "settingsVoice.geminiApiKeyRequired")) s) ∧
  (truthy (RealtimeSession.geminiApiKey platform) = true →
     is_Some (VoiceSession.audioPlayer (snd started)) ∧
     RealtimeSession.voiceSession (snd call) = Some (snd started) ∧
     match fst started with
     | Ok _ =>
         RealtimeSession.voiceSessionStarted (snd call) = true ∧
         RealtimeSession.currentSessionId (snd call) = Some sessionId ∧
         RealtimeSession.shown (snd call) = RealtimeSession.shown s
     | Throw _ =>
         RealtimeSession.voiceSessionStarted (snd call) = false ∧
         RealtimeSession.currentSessionId (snd call) = None ∧
         RealtimeSession.shown (snd call) =
           RealtimeSession.shown s ++
           [RealtimeSession.Alert (t "common.error") (t "errors.voiceServiceUnavailable")]
     end).
Proof.
  intros Hv Hperm Hg He Hkey. cbv zeta.
  cbn [RealtimeSession.startRealtimeSession].
  unfold bind, get, modify, await, try_catch, ret, throw, RealtimeSession.serviceUnavailable.
  unfold bind, modify.
  rewrite Hv, bool_decide_eq_true_2 by eauto.
  rewrite Hperm, Hg, He, String.eqb_refl. cbn [negb]. cbv beta iota.
  destruct (truthy (RealtimeSession.geminiApiKey platform)) eqn:Hk; cbn [negb].
  - rewrite (onSession_Some _ _ w) by exact Hv.
    cbn [RealtimeSession.gemini RealtimeSession.startSession
         RealtimeSession.sessionId RealtimeSession.initialContext].
    set (started := VoiceSession.startSession _ env w).
    assert (Hpl : is_Some (VoiceSession.audioPlayer (snd started))).
    { subst started. unfold VoiceSession.startSession.
      unfold bind, modify, get, try_catch, when, await, ret, throw.
      cbn [VoiceSession.setRealtimeStatus VoiceSession.set_storage VoiceSession.storage
           VoiceSession.settings].
      rewrite <- Hkey, Hk. cbn [negb].
      unfold VoiceSession.startCapture, NativeCapture.start,
        NativeCapture.startRecordingCycle.
      unfold bind, modify, get, try_catch, when, await, ret, throw.
      destruct env as [[[]|e1] [[[]|e2] [[]|e3]] [[]|e4]]; simpl;
        try destruct (truthy initialContext); simpl; by eexists. }
    destruct started as [[[]|e] w']; cbn [fst snd] in *; (split; [done|]);
      (split; [done|]); intros _; done.
  - split; [done|]. split; [done|]. done.
Qed.

Lemma gemini_session_started_through_the_registry_witness :
  let platform :=
    {| RealtimeSession.requestMicrophonePermission :=
         Ok {| RealtimeSession.granted := true; RealtimeSession.canAskAgain := true |};
       RealtimeSession.voiceEngine := "gemini";
       RealtimeSession.geminiApiKey := Some "key";
       RealtimeSession.experiments := false;
       RealtimeSession.elevenLabsAgentId := None;
       RealtimeSession.getCredentials := Ok None;
       RealtimeSession.fetchVoiceToken := Throw "offline" |} in
  let w := VoiceSession.fresh (Examples.store (Some "key")) in
  let s := RealtimeSession.registerVoiceSession w RealtimeSession.initial in
  let call := RealtimeSession.startRealtimeSession id
                (RealtimeSession.gemini Examples.start_succeeds (Ok tt))
                (RealtimeSession.Env platform RealtimeSession.NotPurchased) "s1" None s in
  let started := VoiceSession.startSession
                   {| VoiceSession.sessionId := "s1";
                      VoiceSession.initialContext := None |} Examples.start_succeeds w in
  fst call = Ok tt ∧
  (truthy (RealtimeSession.geminiApiKey platform) = false →
     snd call = RealtimeSession.show
                  (RealtimeSession.Alert (id "common.error")
                     (id "settingsVoice.geminiApiKeyRequired")) s) ∧
  (truthy (RealtimeSession.geminiApiKey platform) = true →
     is_Some (VoiceSession.audioPlayer (snd started)) ∧
     RealtimeSession.voiceSession (snd call) = Some (snd started) ∧
     match fst started with
     | Ok _ =>
         RealtimeSession.voiceSessionStarted (snd call) = true ∧
         RealtimeSession.currentSessionId (snd call) = Some "s1" ∧
         RealtimeSession.shown (snd call) = RealtimeSession.shown s
     | Throw _ =>
         RealtimeSession.voiceSessionStarted (snd call) = false ∧
         RealtimeSession.currentSessionId (snd call) = None ∧
         RealtimeSession.shown (snd call) =
           RealtimeSession.shown s ++
           [RealtimeSession.Alert (id "common.error") (id "errors.voiceServiceUnavailable")]
     end).
Proof.
  apply (gemini_session_started_through_the_registry id Examples.start_succeeds (Ok tt)
    {| RealtimeSession.requestMicrophonePermission :=
         Ok {| RealtimeSession.granted := true; RealtimeSession.canAskAgain := true |};
       RealtimeSession.voiceEngine := "gemini";
       RealtimeSession.geminiApiKey := Some "key";
       RealtimeSession.experiments := false;
       RealtimeSession.elevenLabsAgentId := None;
       RealtimeSession.getCredentials := Ok None;
       RealtimeSession.fetchVoiceToken := Throw "offline" |}
    RealtimeSession.NotPurchased
    {| RealtimeSession.granted := true; RealtimeSession.canAskAgain := true |}
    "s1" None
    (RealtimeSession.registerVoiceSession
       (VoiceSession.fresh (Examples.store (Some "key"))) RealtimeSession.initial)
    (VoiceSession.fresh (Examples.store (Some "key")))); reflexivity.
Defined.

(** X29. Stopping through the registry.  With no session registered nothing
    happens.  Otherwise [endSession] is called on the session object; if
    it resolves both flags are reset, and if it rejects the call still
    resolves but both flags stay as they were, so a session whose
    [endSession] fails keeps counting as started.  The Gemini session's
    [endSession] never rejects: stopping it always resets the flags and
    leaves the session object disconnected, with no connection handle. *)
Theorem stopping_through_the_registry {V : Type}
    (impl : RealtimeSession.VoiceSession V) (s : RealtimeSession.State V) :
  (RealtimeSession.voiceSession s = None →
     RealtimeSession.stopRealtimeSession impl s = (Ok tt, s)) ∧
  (∀ v, RealtimeSession.voiceSession s = Some v →
     match RealtimeSession.endSession impl v with
     | (Ok _, v') =>
         RealtimeSession.stopRealtimeSession impl s =
           (Ok tt, RealtimeSession.set_started None false
                     (RealtimeSession.set_voiceSession (Some v') s))
     | (Throw _, v') =>
         RealtimeSession.stopRealtimeSession impl s =
           (Ok tt, RealtimeSession.set_voiceSession (Some v') s)
     end) ∧
  (∀ env closeResult (s0 : RealtimeSession.State VoiceSession.World) w,
     RealtimeSession.voiceSession s0 = Some w →
     let s' := snd (RealtimeSession.stopRealtimeSession
                      (RealtimeSession.gemini env closeResult) s0) in
     RealtimeSession.voiceSessionStarted s' = false ∧
     RealtimeSession.currentSessionId s' = None ∧
     ∃ w', RealtimeSession.voiceSession s' = Some w' ∧
           VoiceSession.session w' = None ∧
           VoiceSession.realtimeStatus (VoiceSession.storage w') = VoiceSession.Disconnected).
Proof.
  assert (Hgen : ∀ (W : Type) (i : RealtimeSession.VoiceSession W) s1 v,
    RealtimeSession.voiceSession s1 = Some v →
    match RealtimeSession.endSession i v with
    | (Ok _, v') =>
        RealtimeSession.stopRealtimeSession i s1 =
          (Ok tt, RealtimeSession.set_started None false
                    (RealtimeSession.set_voiceSession (Some v') s1))
    | (Throw _, v') =>
        RealtimeSession.stopRealtimeSession i s1 =
          (Ok tt, RealtimeSession.set_voiceSession (Some v') s1)
    end).
  { intros W i s1 v Hv.
    unfold RealtimeSession.stopRealtimeSession, bind, get, try_catch, modify, ret.
    rewrite Hv, bool_decide_eq_true_2 by eauto. cbn [negb].
    rewrite (onSession_Some _ _ v) by exact Hv.
    by destruct (RealtimeSession.endSession i v) as [[[]|e] v']. }
  split; [|split].
  - intros Hv. unfold RealtimeSession.stopRealtimeSession, bind, get.
    by rewrite Hv, bool_decide_eq_false_2 by (by intros [? ?]).
  - intros v Hv. by apply Hgen.
  - intros env closeResult s0 w Hv. specialize (Hgen _ (RealtimeSession.gemini env closeResult) s0 w Hv).
    cbn [RealtimeSession.gemini RealtimeSession.endSession] in Hgen.
    assert (He : fst (VoiceSession.endSession closeResult w) = Ok tt ∧
                 VoiceSession.session (snd (VoiceSession.endSession closeResult w)) = None ∧
                 VoiceSession.realtimeStatus (VoiceSession.storage
                   (snd (VoiceSession.endSession closeResult w))) = VoiceSession.Disconnected).
    { unfold VoiceSession.endSession, bind, get, try_catch, when, modify, await, ret.
      destruct w as [st pub [conn|] cap pl snt inv unh]; destruct closeResult as [[]|e];
        simpl; done. }
    destruct (VoiceSession.endSession closeResult w) as [[[]|e] w'];
      cbn [fst snd] in He; destruct He as (E1 & E2 & E3); [|done].
    cbv zeta. rewrite Hgen. cbn [snd]. split; [done|]. split; [done|].
    exists w'. done.
Qed.

(** X30. Which configuration the other engine's session is started with, read
    off a session object that records its calls.  With the permission
    granted, an engine other than Gemini and an agent id configured:
    without experiments the session is started once with the configured
    agent id and no token; with experiments, credentials and a token
    service that allows the session, it is started once with the token
    and the agent id of the response if the response carries a token, and
    with the configured agent id and no token otherwise; and when the
    token service does not allow the session and the paywall is declined
    or fails, the session is not started at all. *)
Theorem session_config_of_the_other_engine
    (t : string → string) (platform : RealtimeSession.Platform)
    (presentPaywall : RealtimeSession.Paywall) (p : RealtimeSession.PermissionResult)
    (sessionId : string) (initialContext : option string)
    (s : RealtimeSession.State (list RealtimeSession.SessionConfig))
    (log : list RealtimeSession.SessionConfig) :
  RealtimeSession.voiceSession s = Some log →
  RealtimeSession.requestMicrophonePermission platform = Ok p →
  RealtimeSession.granted p = true →
  RealtimeSession.voiceEngine platform ≠ "gemini" →
  truthy (RealtimeSession.elevenLabsAgentId platform) = true →
  let s' := snd (RealtimeSession.startRealtimeSession t RealtimeSession.recording
                   (RealtimeSession.Env platform presentPaywall)
                   sessionId initialContext s) in
  let direct := {| RealtimeSession.sessionId := sessionId;
                   RealtimeSession.initialContext := initialContext;
                   RealtimeSession.token := None;
                   RealtimeSession.agentId := RealtimeSession.elevenLabsAgentId platform |} in
  (RealtimeSession.experiments platform = false →
     RealtimeSession.voiceSession s' = Some (log ++ [direct]) ∧
     RealtimeSession.currentSessionId s' = Some sessionId) ∧
  (∀ credentials response,
     RealtimeSession.experiments platform = true →
     RealtimeSession.getCredentials platform = Ok (Some credentials) →
     RealtimeSession.fetchVoiceToken platform = Ok response →
     (RealtimeSession.allowed response = true →
        RealtimeSession.voiceSession s' =
          Some (log ++
                [if truthy (RealtimeSession.response_token response)
                 then {| RealtimeSession.sessionId := sessionId;
                         RealtimeSession.initialContext := initialContext;
                         RealtimeSession.token := RealtimeSession.response_token response;
                         RealtimeSession.agentId :=
                           RealtimeSession.response_agentId response |}
                 else direct]) ∧
        RealtimeSession.currentSessionId s' = Some sessionId) ∧
     (RealtimeSession.allowed response = false →
        (presentPaywall = RealtimeSession.NotPurchased → s' = s) ∧
        (∀ e, presentPaywall = RealtimeSession.PaywallThrows e →
           RealtimeSession.voiceSession s' = Some log ∧
           RealtimeSession.voiceSessionStarted s' = false ∧
           RealtimeSession.currentSessionId s' = None) ∧
        (∀ restart, presentPaywall = RealtimeSession.Purchased restart →
           let again := RealtimeSession.startRealtimeSession t RealtimeSession.recording
                          restart sessionId initialContext s in
           fst again = Ok tt → s' = snd again))).
Proof.
  intros Hv Hperm Hg Hne Hagent. cbv zeta.
  cbn [RealtimeSession.startRealtimeSession].
  unfold bind, get, modify, await, try_catch, ret, throw, RealtimeSession.serviceUnavailable.
  unfold bind, modify.
  rewrite Hv, bool_decide_eq_true_2 by eauto.
  apply String.eqb_neq in Hne. rewrite Hperm, Hg, Hne, Hagent. cbn [negb]. cbv beta iota.
  split.
  - intros ->. cbn [negb]. rewrite (onSession_Some _ _ log) by exact Hv.
    cbn. done.
  - intros credentials response -> -> ->. cbn [negb].
    rewrite bool_decide_eq_true_2 by eauto. cbn [negb]. split.
    + intros ->. cbn [negb].
      destruct (truthy (RealtimeSession.response_token response));
        rewrite (onSession_Some _ _ log) by exact Hv; cbn; done.
    + intros ->. cbn [negb]. split; [by intros ->|]. split.
      * intros e ->. done.
      * intros restart ->.
        destruct (RealtimeSession.startRealtimeSession t RealtimeSession.recording
                    restart sessionId initialContext s) as [[[]|e] s1]; cbn [fst snd]; done.
Qed.

Lemma session_config_of_the_other_engine_witness :
  let platform :=
    {| RealtimeSession.requestMicrophonePermission :=
         Ok {| RealtimeSession.granted := true; RealtimeSession.canAskAgain := true |};
       RealtimeSession.voiceEngine := "elevenlabs";
       RealtimeSession.geminiApiKey := None;
       RealtimeSession.experiments := false;
       RealtimeSession.elevenLabsAgentId := Some "agent-1";
       RealtimeSession.getCredentials := Ok None;
       RealtimeSession.fetchVoiceToken := Throw "offline" |} in
  let s := RealtimeSession.registerVoiceSession [] RealtimeSession.initial in
  let s' := snd (RealtimeSession.startRealtimeSession id RealtimeSession.recording
                   (RealtimeSession.Env platform RealtimeSession.NotPurchased)
                   "s1" (Some "context") s) in
  RealtimeSession.voiceSession s' =
    Some ([] ++ [{| RealtimeSession.sessionId := "s1";
                    RealtimeSession.initialContext := Some "context";
                    RealtimeSession.token := None;
                    RealtimeSession.agentId := Some "agent-1" |}]) ∧
  RealtimeSession.currentSessionId s' = Some "s1".
Proof.
  destruct (session_config_of_the_other_engine id
    {| RealtimeSession.requestMicrophonePermission :=
         Ok {| RealtimeSession.granted := true; RealtimeSession.canAskAgain := true |};
       RealtimeSession.voiceEngine := "elevenlabs";
       RealtimeSession.geminiApiKey := None;
       RealtimeSession.experiments := false;
       RealtimeSession.elevenLabsAgentId := Some "agent-1";
       RealtimeSession.getCredentials := Ok None;
       RealtimeSession.fetchVoiceToken := Throw "offline" |}
    RealtimeSession.NotPurchased
    {| RealtimeSession.granted := true; RealtimeSession.canAskAgain := true |}
    "s1" (Some "context")
    (RealtimeSession.registerVoiceSession [] RealtimeSession.initial) [])
    as [H _]; [reflexivity|reflexivity|reflexivity|discriminate|reflexivity|].
  exact (H eq_refl).
Defined.

(** ** Exact arithmetic on integers below 2^53 *)

Lemma digits_shift (N : positive) (k : positive) :
  Z.pos (digits2_pos (Pos.iter xO N k)) = Z.pos (digits2_pos N) + Z.pos k.
Proof. by rewrite digits_iter_xO, Pos2Z.inj_add. Qed.

(** The shape of [of_Z] on a nonzero integer below 2^53, either sign. *)
Lemma of_Z_signed_shape (s : bool) (N : positive) :
  Z.pos N < 2 ^ 53 →
  ∃ m e, Num.of_Z (if s then Z.neg N else Z.pos N) = S754_finite s m e ∧
         Z.pos (digits2_pos m) = 53 ∧
         e = Z.pos (digits2_pos N) - 53 ∧
         Z.pos m = Z.pos N * 2 ^ (- e).
Proof.
  intros HN.
  destruct (of_Z_pos_shape N) as (m & e & Hof & D & E & M); [by apply digits_lt_pow|].
  exists m, e. split; [|done].
  destruct s; [|done].
  unfold Num.of_Z, binary_normalize in *.
  unfold binary_round in *.
  destruct (shl_align N 0 _) as [mz ez].
  unfold binary_round_aux in *.
  destruct (shr_fexp _ _ (Z.pos mz) ez loc_Exact) as [mrs' e'].
  destruct (shr_fexp _ _ _ e' loc_Exact) as [mrs'' e''].
  destruct (shr_m mrs''); try done.
  destruct (e'' <=? Num.emax - Num.prec); [|done].
  by injection Hof as -> ->.
Qed.

(** Rounding an integer multiple of a power of two that denotes an
    integer below 2^53 gives that integer: nothing is rounded away. *)
Lemma binary_round_integer (s : bool) (M N : positive) (e : Z) :
  e <= 0 → Z.pos M = Z.pos N * 2 ^ (- e) → Z.pos N < 2 ^ 53 →
  binary_round Num.prec Num.emax s M e = Num.of_Z (if s then Z.neg N else Z.pos N).
Proof.
  intros He HM HN.
  destruct (of_Z_signed_shape s N HN) as (m3 & e3 & -> & D3 & E3 & M3).
  set (dN := Z.pos (digits2_pos N)) in *.
  assert (HdN : 1 <= dN <= 53).
  { split; [subst dN; lia|]. by apply digits_lt_pow. }
  assert (HdM : Z.pos (digits2_pos M) = dN - e).
  { destruct (Z.eq_dec e 0) as [->|Hne].
    - change (2 ^ (- 0)) with 1 in HM. rewrite Z.mul_1_r in HM.
      injection HM as ->. fold dN. lia.
    - assert (HMi : M = Pos.iter xO N (Z.to_pos (- e))).
      { apply Pos2Z.inj. rewrite iter_xO_Z, Z2Pos.id by lia. done. }
      rewrite HMi, digits_shift, Z2Pos.id by lia. fold dN. lia. }
  unfold binary_round, shl_align. rewrite HdM.
  assert (Hf : fexp Num.prec Num.emax (dN - e + e) = e3).
  { unfold fexp, emin, Num.prec, Num.emax. lia. }
  rewrite Hf.
  destruct (e3 - e) as [|d|d] eqn:Hd.
  - (* no shift: already canonical *)
    assert (He3 : e = e3) by lia. clear Hd. subst e.
    assert (m3 = M) by (apply Pos2Z.inj; rewrite M3, HM; f_equal; f_equal; lia).
    subst m3. apply binary_round_aux_canonical.
    + rewrite HdM. unfold fexp, emin, Num.prec, Num.emax. lia.
    + unfold Num.prec, Num.emax. lia.
  - (* trailing zeros are shifted out *)
    assert (HMi : M = Pos.iter xO m3 d).
    { apply Pos2Z.inj. rewrite iter_xO_Z, M3, HM, <- Z.mul_assoc, <- Z.pow_add_r by lia.
      f_equal. f_equal. lia. }
    rewrite HMi. rewrite (binary_round_aux_exact Num.prec Num.emax s m3 d e).
    + f_equal. lia.
    + rewrite <- HMi, HdM, Hf. lia.
    + unfold Num.prec, Num.emax. lia.
  - (* shifted left to full width *)
    assert (Hm3 : m3 = Pos.iter xO M d).
    { apply Pos2Z.inj. rewrite iter_xO_Z, M3, HM, <- Z.mul_assoc, <- Z.pow_add_r by lia.
      f_equal. f_equal. lia. }
    rewrite <- Hm3. apply binary_round_aux_canonical.
    + rewrite D3. unfold fexp, emin, Num.prec, Num.emax. lia.
    + unfold Num.prec, Num.emax. lia.
Qed.

Lemma binary_normalize_integer (z N e : Z) :
  e <= 0 → z = N * 2 ^ (- e) → - 2 ^ 53 < N < 2 ^ 53 →
  binary_normalize Num.prec Num.emax z e false = Num.of_Z N.
Proof.
  intros He Hz HN.
  assert (Hp : 0 < 2 ^ (- e)) by (apply Z.pow_pos_nonneg; lia).
  destruct z as [|M|M].
  - assert (N = 0) by nia. by subst N.
  - destruct N as [|N|N]; [lia| |lia].
    apply (binary_round_integer false M N e); [done|done|lia].
  - destruct N as [|N|N]; [lia|lia|].
    apply (binary_round_integer true M N e); [done| |lia].
    change (Z.neg M) with (- Z.pos M) in Hz. change (Z.neg N) with (- Z.pos N) in Hz. lia.
Qed.

Lemma shl_align_value m e ez :
  ez <= e → Z.pos (fst (shl_align m e ez)) = Z.pos m * 2 ^ (e - ez).
Proof.
  intros H. unfold shl_align. destruct (ez - e) as [|d|d] eqn:Hd; simpl.
  - replace (e - ez) with 0 by lia. simpl. lia.
  - lia.
  - rewrite iter_xO_Z. f_equal. f_equal. lia.
Qed.

Lemma of_nat_shape (n : nat) :
  (0 < n)%nat → Z.of_nat n < 2 ^ 53 →
  ∃ m e, Num.of_nat n = S754_finite false m e ∧
         Z.pos (digits2_pos m) = 53 ∧ -52 <= e <= 0 ∧
         Z.pos m = Z.of_nat n * 2 ^ (- e).
Proof.
  intros Hn Hb. unfold Num.of_nat. destruct n as [|n]; [lia|].
  change (Z.of_nat (S n)) with (Z.pos (Pos.of_succ_nat n)) in *.
  destruct (of_Z_pos_shape (Pos.of_succ_nat n)) as (m & e & -> & D & E & M);
    [by apply digits_lt_pow|].
  exists m, e. split; [done|]. split; [done|]. split; [|done].
  pose proof (digits_lt_pow (Pos.of_succ_nat n) 53 Hb). lia.
Qed.

(** Sums and differences of natural numbers below 2^53 are exact. *)
Lemma add_of_nat (a b : nat) :
  Z.of_nat (a + b) < 2 ^ 53 →
  Num.add (Num.of_nat a) (Num.of_nat b) = Num.of_nat (a + b).
Proof.
  intros Hab.
  destruct a as [|a].
  { change (Num.of_nat 0) with (S754_zero false). simpl Nat.add.
    destruct b as [|b]; [done|].
    destruct (of_nat_shape (S b)) as (m & e & -> & _); [lia|lia|]. done. }
  destruct b as [|b].
  { change (Num.of_nat 0) with (S754_zero false). rewrite Nat.add_0_r.
    destruct (of_nat_shape (S a)) as (m & e & -> & _); [lia|lia|]. done. }
  destruct (of_nat_shape (S a)) as (m1 & e1 & -> & _ & E1 & M1); [lia|lia|].
  destruct (of_nat_shape (S b)) as (m2 & e2 & -> & _ & E2 & M2); [lia|lia|].
  unfold Num.add, SFadd. cbn [cond_Zopp].
  rewrite !shl_align_value by lia.
  apply binary_normalize_integer; [lia| |lia].
  rewrite M1, M2, <- !Z.mul_assoc, <- !Z.pow_add_r by lia.
  replace (- e1 + (e1 - Z.min e1 e2)) with (- Z.min e1 e2) by lia.
  replace (- e2 + (e2 - Z.min e1 e2)) with (- Z.min e1 e2) by lia.
  lia.
Qed.

Lemma sub_of_nat (a b : nat) :
  (b <= a)%nat → Z.of_nat a < 2 ^ 53 →
  Num.sub (Num.of_nat a) (Num.of_nat b) = Num.of_nat (a - b).
Proof.
  intros Hba Ha.
  destruct b as [|b].
  { change (Num.of_nat 0) with (S754_zero false). rewrite Nat.sub_0_r.
    destruct a as [|a]; [done|].
    destruct (of_nat_shape (S a)) as (m & e & -> & _); [lia|lia|]. done. }
  destruct a as [|a]; [lia|].
  destruct (of_nat_shape (S a)) as (m1 & e1 & -> & _ & E1 & M1); [lia|lia|].
  destruct (of_nat_shape (S b)) as (m2 & e2 & -> & _ & E2 & M2); [lia|lia|].
  unfold Num.sub, SFsub. cbn [cond_Zopp].
  rewrite !shl_align_value by lia.
  apply binary_normalize_integer; [lia| |lia].
  rewrite M1, M2, <- !Z.mul_assoc, <- !Z.pow_add_r by lia.
  replace (- e1 + (e1 - Z.min e1 e2)) with (- Z.min e1 e2) by lia.
  replace (- e2 + (e2 - Z.min e1 e2)) with (- Z.min e1 e2) by lia.
  rewrite (Nat2Z.inj_sub (S a) (S b)) by lia. ring.
Qed.

Lemma min_of_nat (a b : nat) :
  Z.of_nat a < 2 ^ 53 → Z.of_nat b < 2 ^ 53 →
  Num.min (Num.of_nat a) (Num.of_nat b) = Num.of_nat (Nat.min a b).
Proof.
  intros Ha Hb. unfold Num.min, Num.of_nat. rewrite compare_of_Z by lia.
  destruct (Z.compare_spec (Z.of_nat a) (Z.of_nat b)) as [E|E|E].
  - apply Nat2Z.inj in E. subst b. rewrite Nat.min_id.
    by destruct (Num.of_Z (Z.of_nat a)) as [[]| | |].
  - by rewrite Nat.min_l by lia.
  - by rewrite Nat.min_r by lia.
Qed.

(** Products of natural numbers are exact when below 2^53. *)
Lemma mul_of_nat (a b : nat) :
  Z.of_nat a < 2 ^ 53 → Z.of_nat b < 2 ^ 53 → Z.of_nat (a * b) < 2 ^ 53 →
  Num.mul (Num.of_nat a) (Num.of_nat b) = Num.of_nat (a * b).
Proof.
  intros Ha Hb Hab.
  destruct a as [|a].
  { change (Num.of_nat 0) with (S754_zero false). simpl Nat.mul.
    destruct b as [|b]; [done|].
    destruct (of_nat_shape (S b)) as (m & e & -> & _); [lia|lia|]. done. }
  destruct b as [|b].
  { change (Num.of_nat 0) with (S754_zero false). rewrite Nat.mul_0_r.
    destruct (of_nat_shape (S a)) as (m & e & -> & _); [lia|lia|]. done. }
  destruct (of_nat_shape (S a)) as (m1 & e1 & -> & D1 & E1 & M1); [lia|lia|].
  destruct (of_nat_shape (S b)) as (m2 & e2 & -> & D2 & E2 & M2); [lia|lia|].
  destruct (of_nat_shape (S a * S b)) as (m3 & e3 & -> & D3 & E3 & M3); [lia|lia|].
  unfold Num.mul, SFmul. cbn [xorb].
  pose proof (digits2_pos_spec m1) as [L1 U1]. rewrite D1 in L1, U1.
  pose proof (digits2_pos_spec m2) as [L2 U2]. rewrite D2 in L2, U2.
  pose proof (digits2_pos_spec m3) as [L3 U3]. rewrite D3 in L3, U3.
  assert (Hprod : Z.pos (m1 * m2) = Z.pos m3 * 2 ^ (e3 - (e1 + e2))
                  ∧ 0 < e3 - (e1 + e2)).
  { assert (Hv : Z.pos (m1 * m2) * 2 ^ (- e3) = Z.pos m3 * 2 ^ (- e1 + - e2)).
    { rewrite Pos2Z.inj_mul, M1, M2, M3, Nat2Z.inj_mul, Z.pow_add_r by lia. ring. }
    assert (Hlt : e1 + e2 < e3).
    { destruct (Z_lt_le_dec (e1 + e2) e3) as [|Hge]; [done|exfalso].
      assert (Hsplit : 2 ^ (- e3) = 2 ^ (- e1 + - e2) * 2 ^ (e1 + e2 - e3)).
      { rewrite <- Z.pow_add_r by lia. f_equal. lia. }
      assert (0 < 2 ^ (- e1 + - e2)) by (apply Z.pow_pos_nonneg; lia).
      assert (1 <= 2 ^ (e1 + e2 - e3)) by (apply (Z.pow_le_mono_r 2 0); lia).
      rewrite Hsplit in Hv.
      assert (Z.pos (m1 * m2) * 2 ^ (e1 + e2 - e3) = Z.pos m3) by nia.
      rewrite Pos2Z.inj_mul in *.
      change (2 ^ (53 - 1)) with 4503599627370496 in *.
      change (2 ^ 53) with 9007199254740992 in *. nia. }
    split; [|lia].
    assert (Hsplit : 2 ^ (- e1 + - e2) = 2 ^ (e3 - (e1 + e2)) * 2 ^ (- e3)).
    { rewrite <- Z.pow_add_r by lia. f_equal. lia. }
    assert (0 < 2 ^ (- e3)) by (apply Z.pow_pos_nonneg; lia).
    rewrite Hsplit in Hv. nia. }
  destruct Hprod as [Hprod Hpos].
  assert (Hiter : (m1 * m2)%positive = Pos.iter xO m3 (Z.to_pos (e3 - (e1 + e2)))).
  { apply Pos2Z.inj. rewrite iter_xO_Z, Z2Pos.id by lia. exact Hprod. }
  rewrite Hiter.
  rewrite (binary_round_aux_exact Num.prec Num.emax false m3 _ (e1 + e2)).
  - f_equal. rewrite Z2Pos.id by lia. lia.
  - rewrite digits_shift, D3, Z2Pos.id by lia.
    unfold fexp, emin, Num.prec, Num.emax. lia.
  - rewrite Z2Pos.id by lia. unfold Num.prec, Num.emax. lia.
Qed.

(** ** The resampler at integer source positions *)

Lemma floor_of_nat (k : nat) :
  Z.of_nat k < 2 ^ 53 → Num.floor (Num.of_nat k) = Num.of_nat k.
Proof.
  intros Hk. unfold Num.of_nat. destruct k as [|k]; [done|].
  change (Z.of_nat (S k)) with (Z.pos (Pos.of_succ_nat k)) in *.
  destruct (truncZ_of_Z (Pos.of_succ_nat k) Hk) as (m & e & Hof & _ & Hfl & _).
  rewrite Hof. unfold Num.floor. rewrite Hfl.
  destruct (0 <=? e); [done|]. by rewrite Hof.
Qed.

Lemma as_element_index_of_nat (k : nat) :
  Z.of_nat k < 2 ^ 53 → Num.as_element_index (Num.of_nat k) = Some k.
Proof.
  intros Hk. unfold Num.of_nat. destruct k as [|k]; [done|].
  change (Z.of_nat (S k)) with (Z.pos (Pos.of_succ_nat k)) in *.
  destruct (truncZ_of_Z (Pos.of_succ_nat k) Hk) as (m & e & Hof & _ & Hfl & He & Hmod & Hdiv).
  rewrite Hof. unfold Num.as_element_index.
  destruct (0 <=? e) eqn:E0.
  - apply Z.leb_le in E0. assert (e = 0) by lia. subst e.
    change (2 ^ (- 0)) with 1 in Hdiv. rewrite Z.div_1_r in Hdiv.
    change (2 ^ 0) with 1. rewrite Z.mul_1_r, Hdiv. f_equal. lia.
  - rewrite Hmod, Hdiv. simpl. f_equal. lia.
Qed.

Lemma get_of_nat (input : Float32Array) (k : nat) :
  Z.of_nat k < 2 ^ 53 →
  Resampler.get input (Num.of_nat k) = default Num.NaN (input !! k).
Proof. intros Hk. unfold Resampler.get. by rewrite as_element_index_of_nat. Qed.

(** Multiplying an element by 1 changes nothing. *)
Lemma mul_one_sample (x : Num.number) :
  Num.is_float32_sample x = true → Num.mul x (Num.of_Z 1) = x.
Proof.
  rewrite of_Z_1. destruct x as [s|s| |s m e]; try done.
  - intros _. by destruct s.
  - intros Hs. destruct (float32_sample_shape _ _ _ Hs) as (Hd & He & _).
    unfold Num.mul, SFmul. rewrite xorb_false_r, Pos.mul_comm.
    change (4503599627370496 * m)%positive with (Pos.iter xO m 52).
    rewrite (binary_round_aux_exact Num.prec Num.emax s m 52 (e + -52)).
    + f_equal. lia.
    + rewrite digits_iter_xO, Pos2Z.inj_add, Hd.
      unfold fexp, emin, Num.prec, Num.emax. lia.
    + unfold Num.prec, Num.emax. lia.
Qed.

(** Multiplying an element by +0 gives a zero. *)
Lemma mul_zero_sample (x : Num.number) :
  Num.is_float32_sample x = true →
  ∃ s, Num.mul x (S754_zero false) = S754_zero s.
Proof. destruct x as [s|s| |s m e]; try done; intros _; by eexists. Qed.

(** Adding a zero to an element gives the element, up to the sign of a
    zero. *)
Lemma add_zero_sample (x : Num.number) (s : bool) :
  Num.is_float32_sample x = true →
  Num.add x (S754_zero s) = x ∨
  ∃ sx s', x = S754_zero sx ∧ Num.add x (S754_zero s) = S754_zero s'.
Proof.
  destruct x as [sx|sx| |sx m e]; try done; intros _.
  - right. exists sx. destruct sx, s; eexists; (split; reflexivity).
  - by left.
Qed.

Lemma interpolate_at_integer (input : Float32Array) (ratio : Num.number)
    (i k : nat) (x : Num.number) :
  Forall (λ v, Num.is_float32_sample v = true) input →
  Z.of_nat (length input) < 2 ^ 53 →
  Num.mul (Num.of_nat i) ratio = Num.of_nat k →
  input !! k = Some x →
  Resampler.interpolate input ratio i = x ∨
  ∃ s s', x = S754_zero s ∧ Resampler.interpolate input ratio i = S754_zero s'.
Proof.
  intros Hall Hlen Hsrc Hk.
  pose proof (lookup_lt_Some _ _ _ Hk) as Hkn.
  assert (Hx : Num.is_float32_sample x = true).
  { by apply (proj1 (Forall_lookup _ _) Hall k x). }
  unfold Resampler.interpolate. rewrite Hsrc.
  rewrite floor_of_nat by lia.
  change (Num.of_Z 1) with (Num.of_nat 1).
  rewrite add_of_nat by lia.
  rewrite (sub_of_nat (length input) 1) by lia.
  rewrite min_of_nat by lia.
  rewrite (sub_of_nat k k) by lia.
  rewrite Nat.sub_diag.
  rewrite (sub_of_nat 1 0) by (simpl; lia).
  rewrite !get_of_nat by lia.
  rewrite Hk. simpl default.
  destruct (lookup_lt_is_Some_2 input (Nat.min (k + 1) (length input - 1))) as [x' Hk'];
    [lia|].
  assert (Hx' : Num.is_float32_sample x' = true).
  { by apply (proj1 (Forall_lookup _ _) Hall (Nat.min (k + 1) (length input - 1)) x'). }
  rewrite Hk'. simpl default.
  change (Num.of_nat (1 - 0)) with (Num.of_Z 1).
  rewrite mul_one_sample by done.
  change (Num.of_nat 0) with (S754_zero false).
  destruct (mul_zero_sample x' Hx') as [s' ->].
  destruct (add_zero_sample x s' Hx) as [->|(sx & sy & -> & ->)].
  - left. by apply float32_sample_fround.
  - right. by exists sx, sy.
Qed.

(** X13. When the source rate is an integer multiple [r] of the target rate,
    resampling is plain decimation: output sample [i] is input sample
    [i * r], unchanged except possibly for the sign of a zero.  Nothing is
    averaged or filtered. *)
Theorem resample_by_an_integer_factor_decimates
    (input out : Float32Array) (source target : Num.number) (r : nat) :
  Forall (λ v, Num.is_float32_sample v = true) input →
  Z.of_nat (length input) < 2 ^ 53 →
  Num.strict_eq source target = false →
  Num.div source target = Num.of_nat r →
  (r <= length input)%nat →
  Resampler.resample input source target = Some out →
  ∀ i x y, input !! (i * r)%nat = Some x → out !! i = Some y →
    y = x ∨ ∃ s s', x = S754_zero s ∧ y = S754_zero s'.
Proof.
  intros Hall Hlen Hne Hdiv Hr Hres i x y Hx Hy.
  unfold Resampler.resample in Hres. rewrite Hne, Hdiv in Hres.
  destruct (Num.to_index _) as [n|] eqn:Hn; [|done].
  simpl in Hres. injection Hres as <-.
  rewrite list_lookup_fmap in Hy.
  destruct (seq 0 n !! i) as [j|] eqn:Hj; [|done].
  apply lookup_seq in Hj as [-> Hi]. simpl in Hy. injection Hy as <-.
  pose proof (lookup_lt_Some _ _ _ Hx) as Hir.
  apply (interpolate_at_integer input (Num.of_nat r) i (i * r) x); try done.
  assert (Hn53 : Z.of_nat n <= 2 ^ 53 - 1).
  { unfold Num.to_index in Hn.
    destruct (Resampler.outputLength _ _ _) as [s|s| |s m e]; try (injection Hn as <-; lia); try done.
    destruct (_ && _) eqn:Hb; [|done]. injection Hn as <-.
    apply andb_true_iff in Hb as [H0 H1]. apply Z.leb_le in H0, H1. lia. }
  apply mul_of_nat; lia.
Qed.

Lemma resample_by_an_integer_factor_decimates_witness :
  let x (k : Z) := Num.fround (Num.div (Num.of_Z k) (Num.of_Z 8)) in
  let input := [x 1; x (-2); x 3; x (-4); x 5; x (-6); x 7] in
  Resampler.resample input (Num.of_Z 48000) (Num.of_Z 16000) = Some [x 1; x (-4)] ∧
  (x (-4) = x (-4) ∨ ∃ s s', x (-4) = S754_zero s ∧ x (-4) = S754_zero s').
Proof.
  split; [vm_compute; reflexivity|].
  apply (resample_by_an_integer_factor_decimates
           [Num.fround (Num.div (Num.of_Z 1) (Num.of_Z 8));
            Num.fround (Num.div (Num.of_Z (-2)) (Num.of_Z 8));
            Num.fround (Num.div (Num.of_Z 3) (Num.of_Z 8));
            Num.fround (Num.div (Num.of_Z (-4)) (Num.of_Z 8));
            Num.fround (Num.div (Num.of_Z 5) (Num.of_Z 8));
            Num.fround (Num.div (Num.of_Z (-6)) (Num.of_Z 8));
            Num.fround (Num.div (Num.of_Z 7) (Num.of_Z 8))]
           [Num.fround (Num.div (Num.of_Z 1) (Num.of_Z 8));
            Num.fround (Num.div (Num.of_Z (-4)) (Num.of_Z 8))]
           (Num.of_Z 48000) (Num.of_Z 16000) 3 ltac:(repeat constructor)
           ltac:(simpl; lia) ltac:(vm_compute; reflexivity) ltac:(vm_compute; reflexivity)
           ltac:(simpl; lia) ltac:(vm_compute; reflexivity) 1%nat);
    vm_compute; reflexivity.
Defined.
